(** * A dependency-aware task scheduler: layered execution of a task DAG

    Shallow embedding of the Go package [graph] of the repository
    (two variants of the same file: [src/graph/task.go], whose [Execute]
    takes an [ExecuteOptions] value, and [src/unnamed/part_000], whose
    [Execute] takes functional options), and proofs about layer
    assignment, construction errors and layered execution. *)

From stdpp Require Import gmap strings list fin_maps sorting.
From Stdlib Require Import ZArith Lia.

#[local] Set Warnings "-clear-no-such-hyp".

Local Open Scope string_scope.
Local Open Scope Z_scope.
Local Open Scope list_scope.

(** ** The dependency store *)

(** Modelled from the spec: the dependency store is the external library
    [github.com/dominikbraun/graph], which is not part of the repository.
    The embedding follows the contract of section 6 of the specification
    (vertex insertion keyed by the task identifier, edge insertion between
    two existing vertices that fails when an endpoint is absent, and a
    topological sort that yields a linear order or a cycle failure), for a
    directed graph created by [graph.New(hash, graph.Directed())]. As the
    library does, inserting an edge that is already present fails. *)
Module Store.

Inductive Error :=
| ErrVertexAlreadyExists
| ErrSourceNotFound (hash : string)
| ErrTargetNotFound (hash : string)
| ErrEdgeAlreadyExists
| ErrCycle.

Definition Error_string (e : Error) : string :=
  match e with
  | ErrVertexAlreadyExists => "vertex already exists"
  | ErrSourceNotFound h => "source vertex " +:+ h +:+ ": vertex not found"
  | ErrTargetNotFound h => "target vertex " +:+ h +:+ ": vertex not found"
  | ErrEdgeAlreadyExists => "edge already exists"
  | ErrCycle => "topological sort cannot be computed on graph with cycles"
  end.

Record Graph (T : Type) := mkGraph {
    vertices : gmap string T;
    edges : list (string * string)
}.
Arguments mkGraph {T} _ _.
Arguments vertices {T} _.
Arguments edges {T} _.

Definition New {T : Type} : Graph T := mkGraph ∅ [].

Definition AddVertex {T} (hash : T → string) (g : Graph T) (v : T)
    : Graph T * option Error :=
  match vertices g !! hash v with
  | Some _ => (g, Some ErrVertexAlreadyExists)
  | None => (mkGraph (<[hash v := v]> (vertices g)) (edges g), None)
  end.

Definition AddEdge {T} (g : Graph T) (source target : string)
    : Graph T * option Error :=
  match vertices g !! source with
  | None => (g, Some (ErrSourceNotFound source))
  | Some _ =>
    match vertices g !! target with
    | None => (g, Some (ErrTargetNotFound target))
    | Some _ =>
      if bool_decide ((source, target) ∈ edges g)
        then (g, Some ErrEdgeAlreadyExists)
        else (mkGraph (vertices g) (edges g ++ [(source, target)]), None)
    end
  end.

Definition Vertex {T} (g : Graph T) (hash : string) : option T :=
  vertices g !! hash.

(** [u] occurs strictly before [v] in [order]. *)
Definition before (order : list string) (u v : string) : Prop :=
  ∃ l1 l2 l3, order = l1 ++ u :: l2 ++ v :: l3.

(** A linear order of all the vertices in which every edge goes
    forward. *)
Definition is_topological_order {T} (g : Graph T) (order : list string) : Prop :=
  NoDup order ∧
  (∀ h, h ∈ order ↔ is_Some (vertices g !! h)) ∧
  (∀ u v, (u, v) ∈ edges g → before order u v).

(** A vertex of [remaining] none of whose predecessors is still in
    [remaining]. *)
Definition no_pred (es : list (string * string)) (remaining : list string)
    (v : string) : bool :=
  forallb (λ e : string * string,
      negb (bool_decide (e.2 = v) && bool_decide (e.1 ∈ remaining))) es.

(** Kahn's algorithm: repeatedly emit a vertex without a remaining
    predecessor; when none is left although vertices remain, the graph
    has a cycle. *)
Fixpoint kahn (fuel : nat) (es : list (string * string))
    (remaining : list string) : option (list string) :=
  match remaining with
  | [] => Some []
  | _ :: _ =>
    match fuel with
    | O => None
    | S fuel' =>
      match find (no_pred es remaining) remaining with
      | None => None
      | Some v =>
        (v ::.) <$> kahn fuel' es (filter (λ w, w ≠ v) remaining)
      end
    end
  end.

Definition hashes {T} (g : Graph T) : list string :=
  (map_to_list (vertices g)).*1.

Definition TopologicalSort {T} (g : Graph T) : list string + Error :=
  match kahn (length (hashes g)) (edges g) (hashes g) with
  | Some order => inl order
  | None => inr ErrCycle
  end.

(** The library leaves the linearisation open (it iterates over hash
    maps): any outcome allowed by the contract. [TopologicalSort] above
    is one function that meets it. *)
Inductive TopologicalSort_outcome {T} (g : Graph T) : list string + Error → Prop :=
| sorted order :
  is_topological_order g order → TopologicalSort_outcome g (inl order)
| cyclic :
  (∀ order, ¬ is_topological_order g order) →
  TopologicalSort_outcome g (inr ErrCycle).

(** Every edge joins two vertices; [AddEdge] keeps it so. *)
Definition edges_closed {T} (g : Graph T) : Prop :=
  ∀ u v, (u, v) ∈ edges g →
  is_Some (vertices g !! u) ∧ is_Some (vertices g !! v).

(** A linear order of [remaining] in which the edges among [remaining]
    go forward: what [kahn] computes. *)
Definition orders (es : list (string * string))
    (remaining order : list string) : Prop :=
  NoDup order ∧
  (∀ h, h ∈ order ↔ h ∈ remaining) ∧
  (∀ u v, (u, v) ∈ es → u ∈ remaining → v ∈ remaining → before order u v).

End Store.

(** ** Tasks *)

Inductive TaskStatus :=
| TaskStatusPending
| TaskStatusRunning
| TaskStatusCompleted
| TaskStatusFailed
| TaskStatusSkipped.

(** [context.Context]: the scheduler only ever derives a cancellable
    context and cancels it, so a context is its cancellation flag. *)
Record Context := mkContext { cancelled : bool }.

(** A task. [V] stands for the values of [interface{}] that work functions
    exchange; a Go [error] is its message. The work function returns
    either a result or an error. [Depends] holds the tasks a task points
    to; the package reads nothing of them but their [ID]. The guard
    [Condition] may be [nil]. *)
#[local] Set Warnings "-register-all".
Inductive Task (V : Type) := mkTask {
    ID : string;
    Execute : Context → gmap string V → V + string;
    Depends : list (Task V);
    Status : TaskStatus;
    Condition : option (gmap string V → bool)
}.
Arguments mkTask {V} _ _ _ _ _.
Arguments ID {V} _.
Arguments Execute {V} _ _ _.
Arguments Depends {V} _.
Arguments Status {V} _.
Arguments Condition {V} _.

(** [task.Status = st] *)
Definition set_Status {V} (st : TaskStatus) (task : Task V) : Task V :=
  mkTask (ID task) (Execute task) (Depends task) st (Condition task).

(** The errors of [AddTask], one constructor per [fmt.Errorf] of the
    function. *)
Inductive AddTaskError :=
| FailedToAddTask (err : Store.Error)
| FailedToAddDependency (err : Store.Error)
| DependencyNotInLayerMap (dep : string)
| InvalidTaskGraph (err : Store.Error).

Definition AddTaskError_string (e : AddTaskError) : string :=
  match e with
  | FailedToAddTask err => "failed to add task: " +:+ Store.Error_string err
  | FailedToAddDependency err =>
    "failed to add dependency: " +:+ Store.Error_string err
  | DependencyNotInLayerMap dep =>
    "dependency task " +:+ dep +:+ " not found in layer map"
  | InvalidTaskGraph err => "invalid task graph: " +:+ Store.Error_string err
  end.

(** The loop of [AddTask] over [task.Depends]: insert the edge, then look
    the dependency's layer up; either failure returns at once. The result
    is the store reached and the largest dependency layer or the error. *)
Fixpoint add_dependencies {V} (g : Store.Graph (Task V))
    (taskLayers : gmap string Z) (taskID : string) (deps : list (Task V))
    (maxDepLayer : Z) : Store.Graph (Task V) * (Z + AddTaskError) :=
  match deps with
  | [] => (g, inl maxDepLayer)
  | dep :: rest =>
    match Store.AddEdge g (ID dep) taskID with
    | (g', Some err) => (g', inr (FailedToAddDependency err))
    | (g', None) =>
      match taskLayers !! ID dep with
      | Some layer =>
        add_dependencies g' taskLayers taskID rest
          (if layer >? maxDepLayer then layer else maxDepLayer)
      | None => (g', inr (DependencyNotInLayerMap (ID dep)))
      end
    end
  end.

(** ** Layer execution, shared by both variants *)

(** What a run does that a caller can observe besides the return value:
    the guard and work function calls with their arguments, the status
    assignments, the limit given to the errgroup and the diagnostics
    printed. *)
Inductive Event (V : Type) :=
| EvCondition (taskID : string) (inputs : gmap string V) (holds : bool)
| EvStatus (taskID : string) (st : TaskStatus)
| EvExecute (taskID : string) (ctx : Context) (inputs : gmap string V)
| EvSetLimit (n : Z)
| EvLogTaskLayers (taskLayers : gmap string Z)
| EvLogLayers (layers : list (list string)).
Arguments EvCondition {V} _ _ _.
Arguments EvStatus {V} _ _.
Arguments EvExecute {V} _ _ _.
Arguments EvSetLimit {V} _.
Arguments EvLogTaskLayers {V} _.
Arguments EvLogLayers {V} _.

(** The input snapshot of a task: for each dependency, in order, copy its
    entry of [results] when there is one. *)
Definition collect_inputs {V} (deps : list (Task V)) (results : gmap string V)
    : gmap string V :=
  foldl (λ inputs dep,
      match results !! ID dep with
      | Some result => <[ID dep := result]> inputs
      | None => inputs
      end) ∅ deps.

(** The state of one [executeLayer] call while its goroutines run: the
    store (whose tasks carry [Status]), the layer's result map, the error
    kept by the errgroup (the first one), the derived context and the
    events so far. *)
Record LayerState (V : Type) := mkLayerState {
    ls_graph : Store.Graph (Task V);
    ls_results : gmap string V;
    ls_err : option string;
    ls_ctx : Context;
    ls_trace : list (Event V)
}.
Arguments mkLayerState {V} _ _ _ _ _.
Arguments ls_graph {V} _.
Arguments ls_results {V} _.
Arguments ls_err {V} _.
Arguments ls_ctx {V} _.
Arguments ls_trace {V} _.

(** [task.Status = st] on the task object the store holds under
    [taskID]. *)
Definition assign_status {V} (taskID : string) (st : TaskStatus)
    (g : Store.Graph (Task V)) : Store.Graph (Task V) :=
  Store.mkGraph (alter (set_Status st) taskID (Store.vertices g)) (Store.edges g).

(** [fmt.Errorf("task %s failed: %v", taskID, err)] *)
Definition task_failed (taskID err : string) : string :=
  "task " +:+ taskID +:+ " failed: " +:+ err.

(** The function given to [g.Go] for one task, run from start to end.
    The errgroup keeps the first error returned and cancels the derived
    context on it. *)
Definition goroutine {V} (taskID : string) (task : Task V)
    (results : gmap string V) (s : LayerState V) : LayerState V :=
  let inputs := collect_inputs (Depends task) results in
  let guarded :=
    match Condition task with
    | Some condition => Some (condition inputs)
    | None => None
    end in
  let after_guard :=
    match guarded with
    | Some holds => ls_trace s ++ [EvCondition taskID inputs holds]
    | None => ls_trace s
    end in
  match guarded with
  | Some false =>
    mkLayerState (assign_status taskID TaskStatusSkipped (ls_graph s))
      (ls_results s) (ls_err s) (ls_ctx s)
      (after_guard ++ [EvStatus taskID TaskStatusSkipped])
  | _ =>
    let running :=
      after_guard ++ [EvStatus taskID TaskStatusRunning;
        EvExecute taskID (ls_ctx s) inputs] in
    match Execute task (ls_ctx s) inputs with
    | inr err =>
      mkLayerState (assign_status taskID TaskStatusFailed (ls_graph s))
        (ls_results s)
        (match ls_err s with
        | Some first => Some first
        | None => Some (task_failed taskID err)
        end)
        (match ls_err s with
        | Some _ => ls_ctx s
        | None => mkContext true
        end)
        (running ++ [EvStatus taskID TaskStatusFailed])
    | inl result =>
      mkLayerState (assign_status taskID TaskStatusCompleted (ls_graph s))
        (<[taskID := result]> (ls_results s)) (ls_err s) (ls_ctx s)
        (running ++ [EvStatus taskID TaskStatusCompleted])
    end
  end.

(** The [for] loop of [executeLayer] under one schedule of the
    goroutines, the sequential one: the goroutine of each task runs to
    its end before the next one is launched, so that the goroutines run
    in the order of the slice. The Go runtime may run them in any other
    order, or interleaved; what is stated about a run is therefore
    stated for every order of the slice, and about what does not depend
    on it. [None] is the nil dereference of a task the store does not
    hold. *)
Fixpoint run_layer {V} (layer : list string) (results : gmap string V)
    (s : LayerState V) : option (LayerState V) :=
  match layer with
  | [] => Some s
  | taskID :: rest =>
    match Store.Vertex (ls_graph s) taskID with
    | None => None
    | Some task => run_layer rest results (goroutine taskID task results s)
    end
  end.

(** Modelled from the spec: the launch group is the external library
    [golang.org/x/sync/errgroup]. The worker limit given to [g.SetLimit]
    caps the number of goroutines of the group that run at a time
    (section 5 of the specification). As the library does, a limit of
    zero admits no goroutine at all, so that the first call of [g.Go]
    blocks for ever; a negative limit is no limit. Under a positive
    limit every goroutine is launched once earlier ones have ended,
    which the sequential schedule satisfies. *)
Definition go_blocks (limit : Z) (layer : list string) : bool :=
  match layer with
  | [] => false
  | _ :: _ => limit =? 0
  end.

(** What [Execute] and [executeLayer] return: the pair of Go, a result
    map or [nil] and an error or [nil]. *)
Definition Returned (V : Type) : Type := option (gmap string V) * option string.

(** [g.Wait()] and the two [return]s of [executeLayer]. *)
Definition wait {V} (s : LayerState V) : Returned V :=
  match ls_err s with
  | Some err => (None, Some err)
  | None => (Some (ls_results s), None)
  end.

(** [maxLayer]: the largest layer in the map, at least 0. *)
Definition max_layer (iter : list (string * Z)) : Z :=
  foldl (λ maxLayer kv, if kv.2 >? maxLayer then kv.2 else maxLayer) 0 iter.

(** [layers[layer] = append(layers[layer], taskID)] for the entries of
    [taskLayers] in the order [iter] in which [range] yields them. [None]
    is the index-out-of-range panic. *)
Fixpoint group_layers (iter : list (string * Z)) (layers : list (list string))
    : option (list (list string)) :=
  match iter with
  | [] => Some layers
  | (taskID, layer) :: rest =>
    if bool_decide (0 ≤ layer < Z.of_nat (length layers))
      then group_layers rest (alter (λ l, l ++ [taskID]) (Z.to_nat layer) layers)
      else None
  end.

(** [for k, v := range layerResults { results[k] = v }]; ranging over a
    nil map does nothing. *)
Definition merge_results {V} (layerResults : option (gmap string V))
    (results : gmap string V) : gmap string V :=
  match layerResults with
  | Some m => m ∪ results
  | None => results
  end.

(** ** The variant with functional options ([src/unnamed/part_000]) *)
Module Opt.

Record ExecuteOptions := mkExecuteOptions {
    WorkerCount : Z;
    EnableDebugLog : bool
}.

(** A function on a pointer to [ExecuteOptions]: what the call leaves in
    the structure. *)
Definition ExecuteOption : Type := ExecuteOptions → ExecuteOptions.

Definition WithWorkerCount (count : Z) : ExecuteOption :=
  λ opts,
    if count >? 0 then mkExecuteOptions count (EnableDebugLog opts) else opts.

Definition WithDebugLog (enable : bool) : ExecuteOption :=
  λ opts, mkExecuteOptions (WorkerCount opts) enable.

Record TaskGraph (V : Type) := mkTaskGraph {
    graph : Store.Graph (Task V);
    taskLayers : gmap string Z;
    opts : ExecuteOptions
}.
Arguments mkTaskGraph {V} _ _ _.
Arguments graph {V} _.
Arguments taskLayers {V} _.
Arguments opts {V} _.

Section Methods.
Context {V : Type}.

Definition NewTaskGraph : TaskGraph V :=
  mkTaskGraph Store.New ∅ (mkExecuteOptions 5 false).

(** The cycle check that ends [AddTask]. *)
Definition check_cycles (tg : TaskGraph V) : TaskGraph V * option AddTaskError :=
  match Store.TopologicalSort (graph tg) with
  | inr err => (tg, Some (InvalidTaskGraph err))
  | inl _ => (tg, None)
  end.

Definition AddTask (tg : TaskGraph V) (task : Task V)
    : TaskGraph V * option AddTaskError :=
  match Store.AddVertex ID (graph tg) task with
  | (g, Some err) =>
    (mkTaskGraph g (taskLayers tg) (opts tg), Some (FailedToAddTask err))
  | (g, None) =>
    match Depends task with
    | [] =>
      check_cycles (mkTaskGraph g (<[ID task := 0]> (taskLayers tg)) (opts tg))
    | _ :: _ =>
      match add_dependencies g (taskLayers tg) (ID task) (Depends task) (-1) with
      | (g', inr err) => (mkTaskGraph g' (taskLayers tg) (opts tg), Some err)
      | (g', inl maxDepLayer) =>
        check_cycles
          (mkTaskGraph g' (<[ID task := maxDepLayer + 1]> (taskLayers tg))
            (opts tg))
      end
    end
  end.

(** The result carries the graph after the call (the statuses
    changed), the events of the call and what the call returns.
    [None]: the call does not return, because the first [g.Go] blocks
    for ever under a limit of zero, or because of a panic. *)
Definition executeLayer (tg : TaskGraph V) (ctx : Context)
    (layer : list string) (results : gmap string V)
    : option (TaskGraph V * list (Event V) * Returned V) :=
  if go_blocks (WorkerCount (opts tg)) layer then None
    else
    match run_layer layer results
      (mkLayerState (graph tg) ∅ None ctx
        [EvSetLimit (WorkerCount (opts tg))]) with
  | None => None
  | Some s =>
    Some (mkTaskGraph (ls_graph s) (taskLayers tg) (opts tg), ls_trace s, wait s)
  end.

(** The loop of [Execute] over the layers. *)
Fixpoint execute_layers (tg : TaskGraph V) (ctx : Context)
    (layers : list (list string)) (results : gmap string V)
    (trace : list (Event V))
    : option (TaskGraph V * list (Event V) * Returned V) :=
  match layers with
  | [] => Some (tg, trace, (Some results, None))
  | layer :: rest =>
    match executeLayer tg ctx layer results with
    | None => None
    | Some (tg', events, (_, Some err)) =>
      Some (tg', trace ++ events, (None, Some err))
    | Some (tg', events, (layerResults, None)) =>
      execute_layers tg' ctx rest (merge_results layerResults results)
        (trace ++ events)
    end
  end.

(** [iter] is the order in which [range tg.taskLayers] yields the
    entries of the map, which Go leaves open. The first [range] only
    takes a maximum, so one order serves both loops. [None]: the call
    does not return (the index panic of the grouping, or a layer that
    does not return). *)
Definition Execute (tg : TaskGraph V) (ctx : Context)
    (options : list ExecuteOption) (iter : list (string * Z))
    : option (TaskGraph V * list (Event V) * Returned V) :=
  let tg := mkTaskGraph (graph tg) (taskLayers tg)
    (foldl (λ o (option : ExecuteOption), option o) (opts tg) options) in
  let results : gmap string V := ∅ in
  let maxLayer := max_layer iter in
  let log1 : list (Event V) :=
    if EnableDebugLog (opts tg) then [EvLogTaskLayers (taskLayers tg)] else [] in
  match group_layers iter (replicate (Z.to_nat (maxLayer + 1)) []) with
  | None => None
  | Some layers =>
    let log2 : list (Event V) :=
      if EnableDebugLog (opts tg) then [EvLogLayers layers] else [] in
    execute_layers tg ctx layers results (log1 ++ log2)
  end.

Definition GetExecutionOrder (tg : TaskGraph V) : list string + Store.Error :=
  Store.TopologicalSort (graph tg).

Definition GetTaskStatus (tg : TaskGraph V) (taskID : string)
    : option TaskStatus * option string :=
  match Store.Vertex (graph tg) taskID with
  | None => (None, Some ("task " +:+ taskID +:+ " not found"))
  | Some task => (Some (Status task), None)
  end.

End Methods.
End Opt.

(** ** The variant with an options value ([src/graph/task.go]) *)
Module Plain.

Record ExecuteOptions := mkExecuteOptions { WorkerCount : Z }.

Record TaskGraph (V : Type) := mkTaskGraph {
    graph : Store.Graph (Task V);
    taskLayers : gmap string Z
}.
Arguments mkTaskGraph {V} _ _.
Arguments graph {V} _.
Arguments taskLayers {V} _.

Section Methods.
Context {V : Type}.

Definition NewTaskGraph : TaskGraph V := mkTaskGraph Store.New ∅.

Definition check_cycles (tg : TaskGraph V) : TaskGraph V * option AddTaskError :=
  match Store.TopologicalSort (graph tg) with
  | inr err => (tg, Some (InvalidTaskGraph err))
  | inl _ => (tg, None)
  end.

Definition AddTask (tg : TaskGraph V) (task : Task V)
    : TaskGraph V * option AddTaskError :=
  match Store.AddVertex ID (graph tg) task with
  | (g, Some err) => (mkTaskGraph g (taskLayers tg), Some (FailedToAddTask err))
  | (g, None) =>
    match Depends task with
    | [] => check_cycles (mkTaskGraph g (<[ID task := 0]> (taskLayers tg)))
    | _ :: _ =>
      match add_dependencies g (taskLayers tg) (ID task) (Depends task) (-1) with
      | (g', inr err) => (mkTaskGraph g' (taskLayers tg), Some err)
      | (g', inl maxDepLayer) =>
        check_cycles
          (mkTaskGraph g' (<[ID task := maxDepLayer + 1]> (taskLayers tg)))
      end
    end
  end.

(** No limit is given to the errgroup here. *)
Definition executeLayer (tg : TaskGraph V) (ctx : Context)
    (layer : list string) (results : gmap string V)
    : option (TaskGraph V * list (Event V) * Returned V) :=
  match run_layer layer results (mkLayerState (graph tg) ∅ None ctx []) with
  | None => None
  | Some s => Some (mkTaskGraph (ls_graph s) (taskLayers tg), ls_trace s, wait s)
  end.

Fixpoint execute_layers (tg : TaskGraph V) (ctx : Context)
    (layers : list (list string)) (results : gmap string V)
    (trace : list (Event V))
    : option (TaskGraph V * list (Event V) * Returned V) :=
  match layers with
  | [] => Some (tg, trace, (Some results, None))
  | layer :: rest =>
    match executeLayer tg ctx layer results with
    | None => None
    | Some (tg', events, (_, Some err)) =>
      Some (tg', trace ++ events, (None, Some err))
    | Some (tg', events, (layerResults, None)) =>
      execute_layers tg' ctx rest (merge_results layerResults results)
        (trace ++ events)
    end
  end.

(** [opts] is a copy: the default written into it is lost at return,
    and nothing reads it. The two [fmt.Println] are unconditional. *)
Definition Execute (tg : TaskGraph V) (ctx : Context)
    (opts : ExecuteOptions) (iter : list (string * Z))
    : option (TaskGraph V * list (Event V) * Returned V) :=
  let opts :=
    if (WorkerCount opts <=? 0)%Z then mkExecuteOptions 5 else opts in
  match Store.TopologicalSort (graph tg) with
  | inr err =>
    Some (tg, [], (None, Some ("failed to sort tasks: " +:+ Store.Error_string err)))
  | inl _ =>
    let results : gmap string V := ∅ in
    let maxLayer := max_layer iter in
    match group_layers iter (replicate (Z.to_nat (maxLayer + 1)) []) with
    | None => None
    | Some layers =>
      execute_layers tg ctx layers results
        [EvLogTaskLayers (taskLayers tg); EvLogLayers layers]
    end
  end.

Definition GetExecutionOrder (tg : TaskGraph V) : list string + Store.Error :=
  Store.TopologicalSort (graph tg).

Definition GetTaskStatus (tg : TaskGraph V) (taskID : string)
    : option TaskStatus * option string :=
  match Store.Vertex (graph tg) taskID with
  | None => (None, Some ("task " +:+ taskID +:+ " not found"))
  | Some task => (Some (Status task), None)
  end.

End Methods.
End Plain.

(** ** Invariants of the registry *)

(** The body that [AddTask] has in both variants, on the two fields it
    works on. *)
Definition add_task {V} (g : Store.Graph (Task V)) (taskLayers : gmap string Z)
    (task : Task V) : Store.Graph (Task V) * gmap string Z * option AddTaskError :=
  let check g taskLayers :=
    match Store.TopologicalSort g with
    | inr err => (g, taskLayers, Some (InvalidTaskGraph err))
    | inl _ => (g, taskLayers, None)
    end in
  match Store.AddVertex ID g task with
  | (g, Some err) => (g, taskLayers, Some (FailedToAddTask err))
  | (g, None) =>
    match Depends task with
    | [] => check g (<[ID task := 0]> taskLayers)
    | _ :: _ =>
      match add_dependencies g taskLayers (ID task) (Depends task) (-1) with
      | (g', inr err) => (g', taskLayers, Some err)
      | (g', inl maxDepLayer) =>
        check g' (<[ID task := maxDepLayer + 1]> taskLayers)
      end
    end
  end.

(** The layer invariant of the specification: the layer of a registered
    task is 0 when it declares no dependency, and otherwise one more than
    the largest layer among its dependencies. *)
Definition layer_invariant {V} (g : Store.Graph (Task V))
    (taskLayers : gmap string Z) : Prop :=
  ∀ id l, taskLayers !! id = Some l →
  ∃ task, Store.vertices g !! id = Some task ∧
  match Depends task with
  | [] => l = 0
  | _ :: _ =>
    ∃ m, l = 1 + m ∧
    (∃ d, d ∈ Depends task ∧ taskLayers !! ID d = Some m) ∧
    (∀ d, d ∈ Depends task → ∃ ld, taskLayers !! ID d = Some ld ∧ ld ≤ m)
  end.

Record registry_ok {V} (g : Store.Graph (Task V))
    (taskLayers : gmap string Z) : Prop := mk_registry_ok {
    ok_hash : ∀ id task, Store.vertices g !! id = Some task → ID task = id;
    ok_edges : Store.edges_closed g;
    ok_registered : ∀ id, is_Some (taskLayers !! id) → is_Some (Store.vertices g !! id);
    ok_layers : layer_invariant g taskLayers;
    ok_nonneg : ∀ id l, taskLayers !! id = Some l → 0 ≤ l
}.

(** Two tasks that differ in nothing but [Status]. *)
Definition same_task {V} (t t' : Task V) : Prop :=
  ID t = ID t' ∧ Execute t = Execute t' ∧ Depends t = Depends t' ∧
  Condition t = Condition t'.

(** Two stores that differ in nothing but the [Status] of their tasks. *)
Definition status_only {V} (g g' : Store.Graph (Task V)) : Prop :=
  Store.edges g = Store.edges g' ∧
  ∀ id, option_Forall2 same_task (Store.vertices g !! id) (Store.vertices g' !! id).

(** The graphs a caller can hold: a new one, and what [AddTask] (failed
    or not) and [Execute] (under any iteration order) leave of one. *)
Inductive reachable {V} : Opt.TaskGraph V → Prop :=
| reachable_new : reachable Opt.NewTaskGraph
| reachable_AddTask tg task :
  reachable tg → reachable (Opt.AddTask tg task).1
| reachable_Execute tg ctx options iter tg' trace ret :
  reachable tg →
  iter ≡ₚ map_to_list (Opt.taskLayers tg) →
  Opt.Execute tg ctx options iter = Some (tg', trace, ret) →
  reachable tg'.

Inductive reachable_plain {V} : Plain.TaskGraph V → Prop :=
| reachable_plain_new : reachable_plain Plain.NewTaskGraph
| reachable_plain_AddTask tg task :
  reachable_plain tg → reachable_plain (Plain.AddTask tg task).1
| reachable_plain_Execute tg ctx opts iter tg' trace ret :
  reachable_plain tg →
  iter ≡ₚ map_to_list (Plain.taskLayers tg) →
  Plain.Execute tg ctx opts iter = Some (tg', trace, ret) →
  reachable_plain tg'.

(** ** One task of a layer, as a function of what it reads *)

(** How the goroutine of a task ends. *)
Inductive Outcome (V : Type) :=
| Skipped
| Completed (result : V)
| Failed (err : string).
Arguments Skipped {V}.
Arguments Completed {V} _.
Arguments Failed {V} _.

(** The outcome depends on the context the work function sees, on the
    results of the earlier layers and on the task, not on its status. *)
Definition outcome {V} (ctx : Context) (results : gmap string V)
    (task : Task V) : Outcome V :=
  let inputs := collect_inputs (Depends task) results in
  let run :=
    match Execute task ctx inputs with
    | inl result => Completed result
    | inr err => Failed err
    end in
  match Condition task with
  | Some condition => if condition inputs then run else Skipped
  | None => run
  end.

(** The events of the goroutine of a task. *)
Definition task_events {V} (taskID : string) (ctx : Context)
    (results : gmap string V) (task : Task V) : list (Event V) :=
  let inputs := collect_inputs (Depends task) results in
  match Condition task with
  | Some condition => [EvCondition taskID inputs (condition inputs)]
  | None => []
  end ++
  match outcome ctx results task with
  | Skipped => [EvStatus taskID TaskStatusSkipped]
  | Completed _ =>
    [EvStatus taskID TaskStatusRunning; EvExecute taskID ctx inputs;
      EvStatus taskID TaskStatusCompleted]
  | Failed _ =>
    [EvStatus taskID TaskStatusRunning; EvExecute taskID ctx inputs;
      EvStatus taskID TaskStatusFailed]
  end.

(** The status a task is left with. *)
Definition final_status {V} (o : Outcome V) : TaskStatus :=
  match o with
  | Skipped => TaskStatusSkipped
  | Completed _ => TaskStatusCompleted
  | Failed _ => TaskStatusFailed
  end.

(** The task an event is about. *)
Definition event_task {V} (e : Event V) : option string :=
  match e with
  | EvCondition taskID _ _ | EvStatus taskID _ | EvExecute taskID _ _ => Some taskID
  | EvSetLimit _ | EvLogTaskLayers _ | EvLogLayers _ => None
  end.

Definition completed {V} (o : Outcome V) : option V :=
  match o with Completed result => Some result | _ => None end.

Definition failed {V} (o : Outcome V) : option string :=
  match o with Failed err => Some err | _ => None end.

(** The guard of the task is present and false on its input snapshot. *)
Definition guard_false {V} (results : gmap string V) (task : Task V) : Prop :=
  ∃ condition, Condition task = Some condition ∧
  condition (collect_inputs (Depends task) results) = false.

(** ** Building graphs, and the graphs of the scenarios *)

(** Register the tasks in order, whatever each call returns. *)
Definition register {V} (tasks : list (Task V)) (tg : Opt.TaskGraph V)
    : Opt.TaskGraph V :=
  foldl (λ tg task, (Opt.AddTask tg task).1) tg tasks.

Definition register_plain {V} (tasks : list (Task V)) (tg : Plain.TaskGraph V)
    : Plain.TaskGraph V :=
  foldl (λ tg task, (Plain.AddTask tg task).1) tg tasks.

(** A work function that returns [v], and one that fails with [err]. *)
Definition succeed {V} (v : V) : Context → gmap string V → V + string :=
  λ _ _, inl v.
Definition fail {V} (err : string) : Context → gmap string V → V + string :=
  λ _ _, inr err.

(** A pending task without guard. *)
Definition new_task {V} (id : string)
    (work : Context → gmap string V → V + string) (deps : list (Task V)) : Task V :=
  mkTask id work deps TaskStatusPending None.

(** The diamond: A, then B and C on A, then D on B and C. *)
Section Diamond.
Context {V : Type} (workA workB workC workD : Context → gmap string V → V + string).

Definition diamond_A : Task V := new_task "A" workA [].
Definition diamond_B : Task V := new_task "B" workB [diamond_A].
Definition diamond_C : Task V := new_task "C" workC [diamond_A].
Definition diamond_D : Task V := new_task "D" workD [diamond_B; diamond_C].
Definition diamond : Opt.TaskGraph V :=
  register [diamond_A; diamond_B; diamond_C; diamond_D] Opt.NewTaskGraph.
End Diamond.


(** A task that names itself as a dependency, and a task that depends on
    a task X that is never registered. *)
Definition self_dependent : Task string :=
  new_task "S" (succeed "s") [new_task "S" (succeed "s") []].

Definition orphan : Task string :=
  new_task "A" (succeed "a") [new_task "X" (succeed "x") []].


(** ** What a run computes *)

(** The result map of a layer none of whose tasks fails: the results of
    its tasks that complete. *)
Definition layer_results {V} (g : Store.Graph (Task V)) (ctx : Context)
    (results : gmap string V) (layer : list string) : gmap string V :=
  foldr (λ taskID acc,
      match Store.vertices g !! taskID ≫= (λ t, completed (outcome ctx results t)) with
      | Some result => <[taskID := result]> acc
      | None => acc
      end) ∅ layer.

(** The cumulative results handed to layer [i] when the layers before it
    did not fail. *)
Fixpoint results_before {V} (g : Store.Graph (Task V)) (ctx : Context)
    (layers : list (list string)) (results : gmap string V) (i : nat)
    : gmap string V :=
  match i, layers with
  | S i', layer :: rest =>
    results_before g ctx rest (layer_results g ctx results layer ∪ results) i'
  | _, _ => results
  end.


(** The scenarios of the specification: B on A with a guard that is
    false; B on A with a work function that fails; and two independent
    tasks that both fail. *)
Definition skip_graph : Opt.TaskGraph string :=
  register [diamond_A (succeed "a");
    mkTask "B" (succeed "b") [diamond_A (succeed "a")] TaskStatusPending
      (Some (λ _, false))]
    Opt.NewTaskGraph.

Definition fail_graph : Opt.TaskGraph string :=
  register [diamond_A (succeed "a"); diamond_B (succeed "a") (fail "boom")]
    Opt.NewTaskGraph.

Definition failing_pair : Opt.TaskGraph string :=
  register [new_task "A" (fail "boom A") []; new_task "B" (fail "boom B") []]
    Opt.NewTaskGraph.

(** One run of a graph: a live context, no option, and the entries of
    the layer map in the order of [map_to_list]. *)
Definition run_once {V} (tg : Opt.TaskGraph V)
    : option (Opt.TaskGraph V * list (Event V) * Returned V) :=
  Opt.Execute tg (mkContext false) [] (map_to_list (Opt.taskLayers tg)).


(** The diamond with work functions that return the name of the task. *)
Definition abcd : Opt.TaskGraph string :=
  diamond (succeed "a") (succeed "b") (succeed "c") (succeed "d").


(** The graph left by the failed registration of [orphan]: the store
    holds the vertex A, the layer map has no entry for it. *)
Definition half_registered : Opt.TaskGraph string :=
  register [orphan] Opt.NewTaskGraph.


(** [later tg tg']: the graph [tg] has become [tg'] by calls of [AddTask]
    (failed or not) and [Execute] (under any iteration order). *)
Inductive later {V} (tg : Opt.TaskGraph V) : Opt.TaskGraph V → Prop :=
| later_now : later tg tg
| later_AddTask tg' task :
  later tg tg' → later tg (Opt.AddTask tg' task).1
| later_Execute tg' ctx options iter tg'' trace ret :
  later tg tg' →
  iter ≡ₚ map_to_list (Opt.taskLayers tg') →
  Opt.Execute tg' ctx options iter = Some (tg'', trace, ret) →
  later tg tg''.


(** The graph left by the registration of [self_dependent]: the store
    holds the vertex S and the edge from S to S. *)
Definition looped : Opt.TaskGraph string :=
  register [self_dependent] Opt.NewTaskGraph.


(** ** The two variants side by side *)

(** The graph of [src/graph/task.go] as a graph of the variant with
    functional options, under the stored options [opts]. *)
Definition of_plain {V} (tg : Plain.TaskGraph V) (opts : Opt.ExecuteOptions)
    : Opt.TaskGraph V :=
  Opt.mkTaskGraph (Plain.graph tg) (Plain.taskLayers tg) opts.

(** The events of a trace that are about a task: guard calls, status
    assignments and work function calls. *)
Definition task_trace {V} (trace : list (Event V)) : list (Event V) :=
  filter (λ e, is_Some (event_task e)) trace.

(** Two calls of [Execute], one per variant, do the same under the
    sequential schedule: neither returns, or they leave the same store
    and layer map, return the same, and have the same events about
    tasks. *)
Definition same_run {V}
  (plain : option (Plain.TaskGraph V * list (Event V) * Returned V))
    (opt : option (Opt.TaskGraph V * list (Event V) * Returned V)) : Prop :=
  match plain, opt with
  | None, None => True
  | Some (ptg, ptrace, pret), Some (tg, trace, ret) =>
    Plain.graph ptg = Opt.graph tg ∧ Plain.taskLayers ptg = Opt.taskLayers tg ∧
    pret = ret ∧ task_trace ptrace = task_trace trace
  | _, _ => False
  end.


(** The diamond in a graph of [src/graph/task.go]. *)
Definition abcd_plain : Plain.TaskGraph string :=
  register_plain
    [diamond_A (succeed "a"); diamond_B (succeed "a") (succeed "b");
    diamond_C (succeed "a") (succeed "c");
    diamond_D (succeed "a") (succeed "b") (succeed "c") (succeed "d")]
    Plain.NewTaskGraph.

(** * Properties *)

(** ** The dependency store *)
Module StoreFacts.
Import Store.

Lemma no_pred_true es remaining v :
  no_pred es remaining v = true ↔ ∀ u, (u, v) ∈ es → u ∉ remaining.
Proof.
  unfold no_pred. rewrite forallb_forall. split.
  - intros H u Hin Hu. apply list_elem_of_In, H in Hin. simpl in Hin.
    rewrite bool_decide_eq_true_2 in Hin by done.
    rewrite bool_decide_eq_true_2 in Hin by done. done.
  - intros H [u w] Hin. simpl. apply list_elem_of_In in Hin.
    apply negb_true_iff, andb_false_iff.
    destruct (decide (w = v)) as [->|Hne].
    + right. apply bool_decide_eq_false_2. by apply H.
    + left. by apply bool_decide_eq_false_2.
Qed.

Lemma before_cons order x u v : before order u v → before (x :: order) u v.
Proof. intros (l1 & l2 & l3 & ->). by exists (x :: l1), l2, l3. Qed.

Lemma before_head order u v : v ∈ order → before (u :: order) u v.
Proof.
  intros (l2 & l3 & ->)%list_elem_of_split. by exists [], l2, l3.
Qed.

Lemma before_filter (P : string → Prop) `{!∀ x, Decision (P x)} order u v :
  before order u v → P u → P v → before (filter P order) u v.
Proof.
  intros (l1 & l2 & l3 & ->) Hu Hv.
  exists (filter P l1), (filter P l2), (filter P l3).
  rewrite filter_app, filter_cons_True by done.
  by rewrite filter_app, filter_cons_True by done.
Qed.

Lemma before_irrefl order u : NoDup order → ¬ before order u u.
Proof.
  intros Hnd (l1 & l2 & l3 & ->).
  apply NoDup_app in Hnd as (_ & _ & Hnd).
  apply NoDup_cons in Hnd as [Hnot _]. apply Hnot. set_solver.
Qed.

Lemma before_not_head order h u : NoDup (h :: order) → ¬ before (h :: order) u h.
Proof.
  intros Hnd (l1 & l2 & l3 & Heq).
  apply NoDup_cons in Hnd as [Hnot _]. apply Hnot.
  destruct l1 as [|x l1]; simplify_eq/=; set_solver.
Qed.

Lemma length_filter_ne (l : list string) v :
  v ∈ l → (length (filter (λ w, w ≠ v) l) < length l)%nat.
Proof.
  induction l as [|x l IH]; [set_solver|]. intros Hin.
  destruct (decide (x = v)) as [->|Hne].
  - rewrite filter_cons_False by naive_solver. simpl.
    pose proof (length_filter (λ w, w ≠ v) l). lia.
  - rewrite filter_cons_True by done. simpl.
    apply elem_of_cons in Hin as [?|Hin]; [congruence|]. specialize (IH Hin). lia.
Qed.

Lemma kahn_sound fuel es remaining order :
  NoDup remaining → kahn fuel es remaining = Some order → orders es remaining order.
Proof.
  revert remaining order.
  induction fuel as [|fuel IH]; intros remaining order Hnd Hk.
  - destruct remaining; simplify_eq/=. split_and!; [constructor|done|set_solver].
  - destruct remaining as [|r0 rest0] eqn:Hrem.
    { simplify_eq/=. split_and!; [constructor|done|set_solver]. }
    rewrite <- Hrem in *. assert (remaining ≠ []) as Hne by (by subst).
    assert (kahn (S fuel) es remaining =
      match find (no_pred es remaining) remaining with
      | None => None
      | Some v => (v ::.) <$> kahn fuel es (filter (λ w, w ≠ v) remaining)
      end) as Hunf by (by subst).
    rewrite Hunf in Hk. clear Hunf Hrem r0 rest0.
    destruct (find _ remaining) as [v|] eqn:Hfind; [|done].
    apply find_some in Hfind as [Hin Hnp]. apply list_elem_of_In in Hin.
    destruct (kahn fuel es _) as [o'|] eqn:Hrec; simplify_eq/=.
    apply IH in Hrec as (Hnd' & Hmem & Hedges); [|by apply NoDup_filter].
    rewrite no_pred_true in Hnp.
    split_and!.
    + apply NoDup_cons. split; [|done]. rewrite Hmem, list_elem_of_filter. naive_solver.
    + intros h. rewrite elem_of_cons, Hmem, list_elem_of_filter.
      destruct (decide (h = v)); naive_solver.
    + intros u w Hin' Hu Hw.
      destruct (decide (w = v)) as [->|Hwv]; [by apply Hnp in Hin'|].
      destruct (decide (u = v)) as [->|Huv].
      * apply before_head. rewrite Hmem, list_elem_of_filter. done.
      * apply before_cons, Hedges; [done|..]; by apply list_elem_of_filter.
Qed.

Lemma kahn_complete fuel es remaining order :
  orders es remaining order → (length remaining ≤ fuel)%nat →
  is_Some (kahn fuel es remaining).
Proof.
  revert remaining order.
  induction fuel as [|fuel IH]; intros remaining order (Hnd & Hmem & Hedges) Hlen.
  - destruct remaining; simpl in *; [by eexists|lia].
  - destruct remaining as [|r0 rest0] eqn:Hrem; [by eexists|].
    rewrite <- Hrem in *.
    assert (kahn (S fuel) es remaining =
      match find (no_pred es remaining) remaining with
      | None => None
      | Some v => (v ::.) <$> kahn fuel es (filter (λ w, w ≠ v) remaining)
      end) as -> by (by subst).
    assert (r0 ∈ remaining) as Hr0 by (subst; set_solver).
    clear Hrem rest0.
    destruct (find _ remaining) as [v|] eqn:Hfind.
    + apply find_some in Hfind as [Hin Hnp]. apply list_elem_of_In in Hin.
      apply fmap_is_Some.
      apply (IH _ (filter (λ w, w ≠ v) order)).
      * split_and!.
        -- by apply NoDup_filter.
        -- intros h. rewrite !list_elem_of_filter, Hmem. done.
        -- intros u w Hin' [Hu1 Hu2]%list_elem_of_filter [Hw1 Hw2]%list_elem_of_filter.
           apply before_filter; auto.
      * pose proof (length_filter_ne remaining v Hin). lia.
    + exfalso. destruct order as [|h0 tl]; [apply Hmem in Hr0; set_solver|].
      assert (h0 ∈ remaining) as Hh0 by (apply Hmem; set_solver).
      pose proof (find_none _ _ Hfind h0 (proj1 (list_elem_of_In _ _) Hh0)) as Hf.
      apply not_true_iff_false in Hf. apply Hf, no_pred_true.
      intros u Hin' Hu. eapply before_not_head; [done|]. by apply Hedges.
Qed.


Lemma hashes_NoDup {T} (g : Graph T) : NoDup (hashes g).
Proof. apply NoDup_fst_map_to_list. Qed.

Lemma elem_of_hashes {T} (g : Graph T) h :
  h ∈ hashes g ↔ is_Some (vertices g !! h).
Proof.
  unfold hashes. rewrite list_elem_of_fmap. split.
  - intros ([k v] & -> & Hin). apply elem_of_map_to_list in Hin. by eexists.
  - intros [v Hv]. exists (h, v). split; [done|]. by apply elem_of_map_to_list.
Qed.

Lemma orders_topological {T} (g : Graph T) order :
  edges_closed g → orders (edges g) (hashes g) order →
  is_topological_order g order.
Proof.
  intros Hcl (Hnd & Hmem & Hedges). split_and!; [done|..].
  - intros h. by rewrite Hmem, elem_of_hashes.
  - intros u v Hin. destruct (Hcl _ _ Hin).
    apply Hedges; [done|..]; by apply elem_of_hashes.
Qed.

Lemma topological_orders {T} (g : Graph T) order :
  is_topological_order g order → orders (edges g) (hashes g) order.
Proof.
  intros (Hnd & Hmem & Hedges). split_and!; [done|..].
  - intros h. by rewrite Hmem, elem_of_hashes.
  - intros u v Hin _ _. by apply Hedges.
Qed.

Lemma TopologicalSort_inl {T} (g : Graph T) order :
  edges_closed g → TopologicalSort g = inl order → is_topological_order g order.
Proof.
  unfold TopologicalSort. intros Hcl Hs.
  destruct (kahn _ _ _) as [o|] eqn:Hk; simplify_eq.
  apply orders_topological; [done|].
  eapply kahn_sound; [apply hashes_NoDup|done].
Qed.

Lemma TopologicalSort_inr {T} (g : Graph T) err :
  TopologicalSort g = inr err →
  err = ErrCycle ∧ ∀ order, ¬ is_topological_order g order.
Proof.
  unfold TopologicalSort. intros Hs.
  destruct (kahn _ _ _) as [o|] eqn:Hk; simplify_eq. split; [done|].
  intros order Ho%topological_orders.
  eapply kahn_complete in Ho as [o Ho]; [|reflexivity]. congruence.
Qed.

Lemma TopologicalSort_acyclic {T} (g : Graph T) order :
  is_topological_order g order → ∃ order', TopologicalSort g = inl order'.
Proof.
  intros Ho. destruct (TopologicalSort g) as [o|err] eqn:Hs; [by eexists|].
  apply TopologicalSort_inr in Hs as [_ Hs]. by destruct (Hs order).
Qed.

(** The reference sort meets the contract, and every outcome the
    contract allows fails exactly when the reference sort does. *)
Lemma TopologicalSort_meets_contract {T} (g : Graph T) :
  edges_closed g → TopologicalSort_outcome g (TopologicalSort g).
Proof.
  intros Hcl. destruct (TopologicalSort g) as [o|err] eqn:Hs.
  - constructor. by apply TopologicalSort_inl.
  - apply TopologicalSort_inr in Hs as [-> Hs]. by constructor.
Qed.

Lemma outcome_fails_iff {T} (g : Graph T) r :
  edges_closed g → TopologicalSort_outcome g r →
  (r = inr ErrCycle ↔ TopologicalSort g = inr ErrCycle) ∧
  (∀ err, r = inr err → err = ErrCycle).
Proof.
  intros Hcl Hr. split; [|by destruct Hr; intros; simplify_eq].
  destruct Hr as [order Ho|Hno].
  - apply TopologicalSort_acyclic in Ho as [o' Ho']. rewrite Ho'. split; done.
  - split; [|done]. intros _.
    destruct (TopologicalSort g) as [o|err] eqn:Hs.
    + apply TopologicalSort_inl in Hs; [|done]. by destruct (Hno o).
    + by apply TopologicalSort_inr in Hs as [-> _].
Qed.

End StoreFacts.

(** ** Registration *)
Section Registration.
Context {V : Type}.
Implicit Types (g : Store.Graph (Task V)) (taskLayers : gmap string Z)
    (task dep : Task V) (deps : list (Task V)).

Lemma AddVertex_ok g task g' :
  Store.AddVertex ID g task = (g', None) →
  Store.vertices g !! ID task = None ∧
  g' = Store.mkGraph (<[ID task := task]> (Store.vertices g)) (Store.edges g).
Proof.
  unfold Store.AddVertex. destruct (Store.vertices g !! ID task); naive_solver.
Qed.

Lemma AddVertex_err g task g' err :
  Store.AddVertex ID g task = (g', Some err) →
  g' = g ∧ err = Store.ErrVertexAlreadyExists ∧ is_Some (Store.vertices g !! ID task).
Proof.
  unfold Store.AddVertex.
  destruct (Store.vertices g !! ID task) eqn:?; naive_solver.
Qed.

Lemma AddEdge_ok g source target g' :
  Store.AddEdge g source target = (g', None) →
  is_Some (Store.vertices g !! source) ∧ is_Some (Store.vertices g !! target) ∧
  ((source, target) ∉ Store.edges g) ∧
  g' = Store.mkGraph (Store.vertices g) (Store.edges g ++ [(source, target)]).
Proof.
  unfold Store.AddEdge.
  destruct (Store.vertices g !! source) eqn:?; [|naive_solver].
  destruct (Store.vertices g !! target) eqn:?; [|naive_solver].
  case_bool_decide; naive_solver.
Qed.

Lemma AddEdge_err g source target g' err :
  Store.AddEdge g source target = (g', Some err) →
  g' = g ∧
  (err = Store.ErrSourceNotFound source ∧ Store.vertices g !! source = None ∨
    err = Store.ErrTargetNotFound target ∧ Store.vertices g !! target = None ∨
    err = Store.ErrEdgeAlreadyExists ∧ (source, target) ∈ Store.edges g).
Proof.
  unfold Store.AddEdge.
  destruct (Store.vertices g !! source) eqn:?; [|naive_solver].
  destruct (Store.vertices g !! target) eqn:?; [|naive_solver].
  case_bool_decide; naive_solver.
Qed.

(** What the loop over the dependencies leaves in the store: the
    vertices as they were, and the old edges followed by edges from
    dependencies to the task. *)
Lemma add_dependencies_store g taskLayers taskID deps maxDepLayer g' r :
  add_dependencies g taskLayers taskID deps maxDepLayer = (g', r) →
  Store.vertices g' = Store.vertices g ∧
  ∃ added, Store.edges g' = Store.edges g ++ added ∧
  ∀ e, e ∈ added →
  ∃ dep, dep ∈ deps ∧ e = (ID dep, taskID) ∧
  is_Some (Store.vertices g !! ID dep) ∧
  is_Some (Store.vertices g !! taskID).
Proof.
  revert g maxDepLayer.
  induction deps as [|dep deps IH]; intros g maxDepLayer Hadd; simpl in Hadd.
  - simplify_eq. split; [done|]. exists []. rewrite app_nil_r. set_solver.
  - destruct (Store.AddEdge g (ID dep) taskID) as [g1 [err|]] eqn:Hedge.
    { apply AddEdge_err in Hedge as [-> _]. simplify_eq. split; [done|].
      exists []. rewrite app_nil_r. set_solver. }
    apply AddEdge_ok in Hedge as (Hs & Ht & _ & ->).
    destruct (taskLayers !! ID dep) as [layer|].
    + apply IH in Hadd as (Hv & added & He & Hadded). simpl in *.
      split; [done|]. exists ((ID dep, taskID) :: added).
      split; [by rewrite He, <- app_assoc|].
      intros e [->|Hin]%elem_of_cons.
      * exists dep. set_solver.
      * destruct (Hadded e Hin) as (d & ? & ? & ? & ?). exists d. set_solver.
    + simplify_eq. split; [done|]. exists [(ID dep, taskID)]. split; [done|].
      intros e ->%list_elem_of_singleton. exists dep. set_solver.
Qed.

Lemma add_dependencies_closed g taskLayers taskID deps maxDepLayer g' r :
  add_dependencies g taskLayers taskID deps maxDepLayer = (g', r) →
  Store.edges_closed g → Store.edges_closed g'.
Proof.
  intros (Hv & added & He & Hadded)%add_dependencies_store Hcl u v.
  rewrite He, Hv, elem_of_app. intros [Hin|Hin]; [by apply Hcl|].
  destruct (Hadded _ Hin) as (d & _ & ? & ? & ?). by simplify_eq.
Qed.

(** When the loop ends without error, every dependency has a layer and
    an edge to the task, and the value computed is the largest of the
    start value and these layers. *)
Lemma add_dependencies_inl g taskLayers taskID deps maxDepLayer g' m :
  add_dependencies g taskLayers taskID deps maxDepLayer = (g', inl m) →
  maxDepLayer ≤ m ∧
  (m = maxDepLayer ∨ ∃ dep, dep ∈ deps ∧ taskLayers !! ID dep = Some m) ∧
  (∀ dep, dep ∈ deps →
    (∃ ld, taskLayers !! ID dep = Some ld ∧ ld ≤ m) ∧
    (ID dep, taskID) ∈ Store.edges g').
Proof.
  revert g maxDepLayer.
  induction deps as [|dep deps IH]; intros g maxDepLayer Hadd; simpl in Hadd.
  - simplify_eq. split; [lia|]. split; [by left|]. set_solver.
  - destruct (Store.AddEdge g (ID dep) taskID) as [g1 [err|]] eqn:Hedge; [done|].
    apply AddEdge_ok in Hedge as (_ & _ & _ & ->).
    destruct (taskLayers !! ID dep) as [layer|] eqn:Hlayer; [|done].
    pose proof Hadd as Hstore.
    apply add_dependencies_store in Hstore as (_ & added & He & _). simpl in He.
    apply IH in Hadd as (Hle & Hmax & Hall).
    assert (maxDepLayer ≤ m ∧ layer ≤ m) as [? ?].
    { destruct (Z.gtb_spec layer maxDepLayer); lia. }
    split; [done|]. split.
    + destruct Hmax as [->|(d & ? & ?)].
      * destruct (Z.gtb_spec layer maxDepLayer); [|by left].
        right. exists dep. set_solver.
      * right. exists d. set_solver.
    + intros d [->|Hin]%elem_of_cons; [|by apply Hall].
      split; [by exists layer|]. rewrite He. set_solver.
Qed.

Lemma add_dependencies_inr g taskLayers taskID deps maxDepLayer g' err :
  add_dependencies g taskLayers taskID deps maxDepLayer = (g', inr err) →
  ∃ done dep rest, deps = done ++ dep :: rest ∧
  (∀ d, d ∈ done → is_Some (taskLayers !! ID d) ∧ is_Some (Store.vertices g !! ID d)) ∧
  ((∃ e, err = FailedToAddDependency e ∧
      (e = Store.ErrSourceNotFound (ID dep) ∧ Store.vertices g !! ID dep = None ∨
        e = Store.ErrTargetNotFound taskID ∧ Store.vertices g !! taskID = None ∨
        e = Store.ErrEdgeAlreadyExists ∧ (ID dep, taskID) ∈ Store.edges g')) ∨
    err = DependencyNotInLayerMap (ID dep) ∧ taskLayers !! ID dep = None ∧
    is_Some (Store.vertices g !! ID dep) ∧ (ID dep, taskID) ∈ Store.edges g').
Proof.
  revert g maxDepLayer.
  induction deps as [|dep deps IH]; intros g maxDepLayer Hadd; simpl in Hadd;
    [done|].
  destruct (Store.AddEdge g (ID dep) taskID) as [g1 [e|]] eqn:Hedge.
  - apply AddEdge_err in Hedge as [-> He]. simplify_eq.
    exists [], dep, deps. split; [done|]. split; [set_solver|]. left.
    exists e. split; [done|]. naive_solver.
  - apply AddEdge_ok in Hedge as (Hs & Ht & _ & ->).
    destruct (taskLayers !! ID dep) as [layer|] eqn:Hlayer.
    + apply IH in Hadd as (done' & d & rest & -> & Hdone & Herr). simpl in *.
      exists (dep :: done'), d, rest. split; [done|]. split; [|done].
      intros d' [->|Hin]%elem_of_cons; [by rewrite Hlayer|by apply Hdone].
    + simplify_eq. exists [], dep, deps. split; [done|]. split; [set_solver|].
      right. simpl. set_solver.
Qed.
End Registration.

Section RegistryInvariant.
Context {V : Type}.
Implicit Types (g : Store.Graph (Task V)) (taskLayers : gmap string Z)
    (task dep : Task V) (deps : list (Task V)).

Lemma registry_ok_new : registry_ok (@Store.New (Task V)) ∅.
Proof.
  split; simpl; try done.
  - intros u v Hin. by apply elem_of_nil in Hin.
  - by intros id [? ?].
Qed.

(** The invariant survives a store that gained vertices and edges, as
    long as the vertices that had a layer are untouched. *)
Lemma layer_invariant_mono g g' taskLayers :
  (∀ id task, Store.vertices g !! id = Some task →
    Store.vertices g' !! id = Some task) →
  layer_invariant g taskLayers → layer_invariant g' taskLayers.
Proof.
  intros Hsub Hinv id l Hl. destruct (Hinv id l Hl) as (task & Hv & Hm).
  exists task. split; [by apply Hsub|done].
Qed.

Lemma layer_invariant_insert g taskLayers task l :
  taskLayers !! ID task = None →
  Store.vertices g !! ID task = Some task →
  layer_invariant g taskLayers →
  match Depends task with
  | [] => l = 0
  | _ :: _ =>
    ∃ m, l = 1 + m ∧
    (∃ d, d ∈ Depends task ∧ taskLayers !! ID d = Some m) ∧
    (∀ d, d ∈ Depends task → ∃ ld, taskLayers !! ID d = Some ld ∧ ld ≤ m)
  end →
  layer_invariant g (<[ID task := l]> taskLayers).
Proof.
  intros Hfresh Hv Hinv Hnew id l'.
  assert (∀ (d : Task V) ld, taskLayers !! ID d = Some ld →
    <[ID task := l]> taskLayers !! ID d = Some ld) as Hkeep.
  { intros d ld Hd. rewrite lookup_insert_ne; [done|]. congruence. }
  rewrite lookup_insert. case_decide as Heq.
  - intros [= <-]. subst id. exists task. split; [done|].
    destruct (Depends task); [done|].
    destruct Hnew as (m & -> & (d & Hd & Hdm) & Hall).
    exists m. split; [done|]. split; [exists d; eauto|].
    intros d' Hd'. destruct (Hall d' Hd') as (ld & ? & ?). eauto.
  - intros Hl. destruct (Hinv id l' Hl) as (t & Ht & Hm).
    exists t. split; [done|]. destruct (Depends t); [done|].
    destruct Hm as (m & -> & (d & Hd & Hdm) & Hall).
    exists m. split; [done|]. split; [exists d; eauto|].
    intros d' Hd'. destruct (Hall d' Hd') as (ld & ? & ?). eauto.
Qed.

Lemma add_task_ok g taskLayers task :
  registry_ok g taskLayers →
  registry_ok (add_task g taskLayers task).1.1 (add_task g taskLayers task).1.2.
Proof.
  intros Hok. unfold add_task.
  destruct (Store.AddVertex ID g task) as [g1 [err|]] eqn:Hvert.
  { apply AddVertex_err in Hvert as (-> & _ & _). done. }
  apply AddVertex_ok in Hvert as [Hnew ->].
  assert (taskLayers !! ID task = None) as Hfresh.
  { destruct (taskLayers !! ID task) eqn:Hl; [|done].
    destruct (ok_registered _ _ Hok (ID task)) as [t Ht]; [by eexists|congruence]. }
  set (g1 := Store.mkGraph (<[ID task:=task]> (Store.vertices g)) (Store.edges g)).
  assert (∀ id t, Store.vertices g !! id = Some t →
    Store.vertices g1 !! id = Some t) as Hsub.
  { intros id t Ht. simpl. rewrite lookup_insert_ne; [done|]. congruence. }
  assert (registry_ok g1 taskLayers) as Hok1.
  { split.
    - intros id t. simpl. rewrite lookup_insert. case_decide; [naive_solver|].
      apply Hok.
    - intros u v Hin. destruct (ok_edges _ _ Hok u v Hin) as [[? ?] [? ?]].
      split; eexists; eauto.
    - intros id Hid. destruct (ok_registered _ _ Hok id Hid) as [t Ht]. eauto.
    - eapply layer_invariant_mono; [done|apply Hok].
    - apply Hok. }
  assert (∀ g2 l,
    Store.vertices g2 = Store.vertices g1 → Store.edges_closed g2 →
    match Depends task with
    | [] => l = 0
    | _ :: _ =>
    ∃ m, l = 1 + m ∧
    (∃ d, d ∈ Depends task ∧ taskLayers !! ID d = Some m) ∧
    (∀ d, d ∈ Depends task → ∃ ld, taskLayers !! ID d = Some ld ∧ ld ≤ m)
    end → 0 ≤ l →
    registry_ok g2 (<[ID task := l]> taskLayers)) as Hins.
  { intros g2 l Hv Hcl Hl Hnn. split.
    - intros id t. rewrite Hv. apply Hok1.
    - done.
    - intros id. rewrite Hv, lookup_insert. case_decide as Heq.
      + intros _. subst id. simpl. rewrite lookup_insert_eq. by eexists.
      + apply Hok1.
    - apply layer_invariant_insert; [done|by rewrite Hv; apply lookup_insert_eq| |done].
      eapply layer_invariant_mono; [|apply Hok1]. intros id t. by rewrite Hv.
    - intros id l'. rewrite lookup_insert. case_decide; [naive_solver|]. apply Hok. }
  destruct (Depends task) as [|d0 ds] eqn:Hdeps.
  - assert (registry_ok g1 (<[ID task:=0]> taskLayers)).
    { apply Hins; [done|apply Hok1|done|lia]. }
    by destruct (Store.TopologicalSort g1).
  - destruct (add_dependencies _ _ _ _ _) as [g2 [m|err]] eqn:Hadd.
    + pose proof Hadd as (Hv & _)%add_dependencies_store.
      pose proof Hadd as Hcl%add_dependencies_closed; [|apply Hok1].
      apply add_dependencies_inl in Hadd as (Hle & Hmax & Hall).
      assert (0 ≤ m).
      { destruct (Hall d0) as [(ld & Hld & ?) _]; [set_solver|].
        pose proof (ok_nonneg _ _ Hok _ _ Hld). lia. }
      assert (registry_ok g2 (<[ID task:=m + 1]> taskLayers)).
      { apply Hins; [done|done| |lia]. exists m. split; [lia|].
        split; [|intros d Hd; by destruct (Hall d Hd)].
        destruct Hmax as [->|?]; [lia|done]. }
      by destruct (Store.TopologicalSort g2).
    + pose proof Hadd as (Hv & _)%add_dependencies_store.
      pose proof Hadd as Hcl%add_dependencies_closed; [|apply Hok1].
      simpl. split.
      * intros id t. rewrite Hv. apply Hok1.
      * done.
      * intros id. rewrite Hv. apply Hok1.
      * eapply layer_invariant_mono; [|apply Hok1]. intros id t. by rewrite Hv.
      * apply Hok.
Qed.

(** What a successful [AddTask] leaves behind: the task is registered
    under its identifier with a layer, and the store is acyclic. *)
Lemma add_task_success g taskLayers task g' taskLayers' :
  add_task g taskLayers task = (g', taskLayers', None) →
  Store.vertices g !! ID task = None ∧
  Store.vertices g' = <[ID task := task]> (Store.vertices g) ∧
  (∃ l, taskLayers' = <[ID task := l]> taskLayers) ∧
  (∃ order, Store.TopologicalSort g' = inl order).
Proof.
  unfold add_task.
  destruct (Store.AddVertex ID g task) as [g1 [err|]] eqn:Hvert; [done|].
  apply AddVertex_ok in Hvert as [Hnew ->].
  destruct (Depends task) as [|d0 ds] eqn:Hdeps.
  - destruct (Store.TopologicalSort _) as [order|err] eqn:Hs; [|done].
    intros [= <- <-]. rewrite Hs. eauto 10.
  - destruct (add_dependencies _ _ _ _ _) as [g2 [m|err]] eqn:Hadd; [|done].
    apply add_dependencies_store in Hadd as (Hv & _).
    destruct (Store.TopologicalSort _) as [order|err] eqn:Hs; [|done].
    intros [= <- <-]. rewrite Hs. eauto 10.
Qed.
End RegistryInvariant.

(** ** One layer *)
Section Layer.
Context {V : Type}.
Implicit Types (g : Store.Graph (Task V)) (task : Task V)
    (results : gmap string V) (s : LayerState V) (layer : list string).

Lemma same_task_refl task : same_task task task.
Proof. by repeat split. Qed.

Lemma same_task_trans (t1 t2 t3 : Task V) :
  same_task t1 t2 → same_task t2 t3 → same_task t1 t3.
Proof. unfold same_task. naive_solver congruence. Qed.

Lemma same_task_outcome ctx results (t t' : Task V) :
  same_task t t' → outcome ctx results t = outcome ctx results t'.
Proof. intros (_ & He & Hd & Hc). unfold outcome. by rewrite He, Hd, Hc. Qed.

Lemma same_task_events taskID ctx results (t t' : Task V) :
  same_task t t' → task_events taskID ctx results t = task_events taskID ctx results t'.
Proof.
  intros Hs. unfold task_events. rewrite (same_task_outcome _ _ _ _ Hs).
  destruct Hs as (_ & He & Hd & Hc). by rewrite Hd, Hc.
Qed.

Lemma status_only_refl g : status_only g g.
Proof.
  split; [done|]. intros id. destruct (Store.vertices g !! id); constructor.
  apply same_task_refl.
Qed.

Lemma status_only_trans g1 g2 g3 :
  status_only g1 g2 → status_only g2 g3 → status_only g1 g3.
Proof.
  intros [He1 Hv1] [He2 Hv2]. split; [congruence|]. intros id.
  specialize (Hv1 id). specialize (Hv2 id).
  destruct Hv1; inversion Hv2; simplify_eq; constructor.
  by eapply same_task_trans.
Qed.

Lemma status_only_lookup g g' id task :
  status_only g g' → Store.vertices g !! id = Some task →
  ∃ task', Store.vertices g' !! id = Some task' ∧ same_task task task'.
Proof.
  intros [_ Hv] Hid. specialize (Hv id). rewrite Hid in Hv.
  inversion Hv; simplify_eq. eauto.
Qed.

Lemma status_only_lookup_None g g' id :
  status_only g g' → Store.vertices g !! id = None →
  Store.vertices g' !! id = None.
Proof.
  intros [_ Hv] Hid. specialize (Hv id). rewrite Hid in Hv. by inversion Hv.
Qed.

Lemma assign_status_only taskID st g : status_only g (assign_status taskID st g).
Proof.
  split; [done|]. intros id. simpl. rewrite lookup_alter.
  case_decide; [subst|]; destruct (Store.vertices g !! _); constructor;
    by repeat split.
Qed.

Lemma assign_status_lookup taskID st g task :
  Store.vertices g !! taskID = Some task →
  Store.vertices (assign_status taskID st g) !! taskID = Some (set_Status st task).
Proof. intros H. simpl. rewrite lookup_alter, decide_True by done. by rewrite H. Qed.

Lemma assign_status_lookup_ne taskID st g id :
  id ≠ taskID →
  Store.vertices (assign_status taskID st g) !! id = Store.vertices g !! id.
Proof. intros H. simpl. by rewrite lookup_alter, decide_False. Qed.

(** The goroutine of a task in terms of its outcome. *)
Lemma goroutine_outcome taskID task results s :
  goroutine taskID task results s =
  mkLayerState
    (assign_status taskID (final_status (outcome (ls_ctx s) results task)) (ls_graph s))
    (match outcome (ls_ctx s) results task with
    | Completed result => <[taskID := result]> (ls_results s)
    | _ => ls_results s
    end)
    (match outcome (ls_ctx s) results task, ls_err s with
    | Failed err, None => Some (task_failed taskID err)
    | _, first => first
    end)
    (match outcome (ls_ctx s) results task, ls_err s with
    | Failed err, None => mkContext true
    | _, _ => ls_ctx s
    end)
    (ls_trace s ++ task_events taskID (ls_ctx s) results task).
Proof.
  unfold goroutine, task_events, outcome.
  destruct (Condition task) as [c|];
    [destruct (c (collect_inputs (Depends task) results))|];
    destruct (Execute task (ls_ctx s) (collect_inputs (Depends task) results));
    destruct (ls_err s); simpl; rewrite <- ?app_assoc; try done.
Qed.

Lemma goroutine_graph taskID task results s :
  status_only (ls_graph s) (ls_graph (goroutine taskID task results s)).
Proof. rewrite goroutine_outcome. apply assign_status_only. Qed.

Lemma goroutine_err_keep taskID task results s err :
  ls_err s = Some err → ls_err (goroutine taskID task results s) = Some err.
Proof.
  intros H. rewrite goroutine_outcome. simpl. rewrite H.
  by destruct (outcome _ _ _).
Qed.

Lemma run_layer_graph layer results s s' :
  run_layer layer results s = Some s' → status_only (ls_graph s) (ls_graph s').
Proof.
  revert s. induction layer as [|id layer IH]; intros s Hrun; simpl in Hrun.
  - simplify_eq. apply status_only_refl.
  - destruct (Store.Vertex _ _) as [task|]; [|done].
    eapply status_only_trans; [apply goroutine_graph|by apply IH].
Qed.

Lemma run_layer_is_Some layer results s :
  (∀ id, id ∈ layer → is_Some (Store.vertices (ls_graph s) !! id)) ↔
  is_Some (run_layer layer results s).
Proof.
  revert s. induction layer as [|id layer IH]; intros s; simpl.
  - split; [by eexists|]. intros _ id Hid. by apply elem_of_nil in Hid.
  - unfold Store.Vertex. split.
    + intros Hall. destruct (Hall id) as [task ->]; [set_solver|].
      apply IH. intros id' Hid'. destruct (Hall id') as [t Ht]; [set_solver|].
      destruct (status_only_lookup _ _ _ _ (goroutine_graph id task results s) Ht)
        as (t' & -> & _). by eexists.
    + destruct (Store.vertices (ls_graph s) !! id) as [task|] eqn:Hid;
        [|by intros [? ?]].
      intros Hrest id' [->|Hin]%elem_of_cons; [by eexists|].
      destruct (proj2 (IH _) Hrest id' Hin) as [t' Ht'].
      destruct (Store.vertices (ls_graph s) !! id') eqn:Hid'; [by eexists|].
      apply (status_only_lookup_None _ _ _ (goroutine_graph id task results s)) in Hid'.
      congruence.
Qed.

Lemma run_layer_err_keep layer results s s' err :
  ls_err s = Some err → run_layer layer results s = Some s' → ls_err s' = Some err.
Proof.
  revert s. induction layer as [|id layer IH]; intros s Herr Hrun; simpl in Hrun.
  - by simplify_eq.
  - destruct (Store.Vertex _ _) as [task|]; [|done].
    eapply IH; [|done]. by apply goroutine_err_keep.
Qed.

(** A layer fails exactly when one of its tasks fails in the context the
    layer was started with: a context is cancelled after a failure
    only. *)
Lemma run_layer_fails_iff layer results s s' :
  ls_err s = None → run_layer layer results s = Some s' →
  (is_Some (ls_err s') ↔
    ∃ id task, id ∈ layer ∧ Store.vertices (ls_graph s) !! id = Some task ∧
    is_Some (failed (outcome (ls_ctx s) results task))).
Proof.
  revert s. induction layer as [|id layer IH]; intros s Herr Hrun; simpl in Hrun.
  - simplify_eq. rewrite Herr. split; [by intros [? ?]|].
    intros (id & _ & Hin & _). by apply elem_of_nil in Hin.
  - unfold Store.Vertex in Hrun.
    destruct (Store.vertices (ls_graph s) !! id) as [task|] eqn:Hid; [|done].
    destruct (failed (outcome (ls_ctx s) results task)) as [e|] eqn:Hfail.
    + split; [|intros _].
      * intros _. exists id, task. rewrite Hfail. set_solver.
      * eapply (run_layer_err_keep _ _ _ _ (task_failed id e)) in Hrun;
          [by rewrite Hrun|].
        rewrite goroutine_outcome. simpl. rewrite Herr.
        by destruct (outcome _ _ _); simplify_eq/=.
    + assert (ls_err (goroutine id task results s) = None ∧
        ls_ctx (goroutine id task results s) = ls_ctx s) as [Herr1 Hctx1].
      { rewrite goroutine_outcome. simpl. rewrite Herr.
        by destruct (outcome _ _ _). }
      rewrite (IH _ Herr1 Hrun), Hctx1. split.
      * intros (id' & t' & Hin & Hv & Hf).
        destruct (Store.vertices (ls_graph s) !! id') as [t|] eqn:Hid'.
        -- destruct (status_only_lookup _ _ _ _ (goroutine_graph id task results s) Hid')
             as (t'' & Ht'' & Hsame).
           exists id', t. split; [set_solver|]. split; [done|].
           rewrite (same_task_outcome _ _ _ _ Hsame). congruence.
        -- apply (status_only_lookup_None _ _ _ (goroutine_graph id task results s))
             in Hid'. congruence.
      * intros (id' & t' & [->|Hin]%elem_of_cons & Hv & Hf).
        { simplify_eq. rewrite Hfail in Hf. by destruct Hf. }
        destruct (status_only_lookup _ _ _ _ (goroutine_graph id task results s) Hv)
          as (t'' & Ht'' & Hsame).
        exists id', t''. split; [done|]. split; [done|].
        by rewrite <- (same_task_outcome _ _ _ _ Hsame).
Qed.

Lemma status_only_completed g g' ctx results id :
  status_only g g' →
  Store.vertices g' !! id ≫= (λ t, completed (outcome ctx results t)) =
  Store.vertices g !! id ≫= (λ t, completed (outcome ctx results t)).
Proof.
  intros [_ Hv]. specialize (Hv id). destruct Hv as [t t' Hsame|]; [|done].
  simpl. by rewrite (same_task_outcome _ _ _ _ Hsame).
Qed.

(** The result map of a layer that did not fail: the results of the
    tasks of the layer that completed, in the context the layer was
    started with. *)
Lemma run_layer_results layer results s s' :
  ls_err s = None → run_layer layer results s = Some s' → ls_err s' = None →
  ls_ctx s' = ls_ctx s ∧
  ∀ id, ls_results s' !! id =
  match (if decide (id ∈ layer)
        then Store.vertices (ls_graph s) !! id ≫=
      (λ t, completed (outcome (ls_ctx s) results t))
        else None) with
  | Some v => Some v
  | None => ls_results s !! id
  end.
Proof.
  revert s. induction layer as [|id0 layer IH]; intros s Herr Hrun Herr';
    simpl in Hrun.
  - simplify_eq. split; [done|]. intros id. rewrite decide_False; [done|].
    apply not_elem_of_nil.
  - unfold Store.Vertex in Hrun.
    destruct (Store.vertices (ls_graph s) !! id0) as [task|] eqn:Hid0; [|done].
    pose proof (goroutine_graph id0 task results s) as Hso.
    pose proof (goroutine_outcome id0 task results s) as Hg.
    rewrite Herr in Hg.
    set (s1 := goroutine id0 task results s) in *.
    destruct (outcome (ls_ctx s) results task) as [|v|e] eqn:Ho.
    3:{ eapply (run_layer_err_keep _ _ _ _ (task_failed id0 e)) in Hrun;
          [congruence|]. by rewrite Hg. }
    all: assert (ls_err s1 = None) as Herr1 by (by rewrite Hg);
      assert (ls_ctx s1 = ls_ctx s) as Hctx1 by (by rewrite Hg);
      destruct (IH _ Herr1 Hrun Herr') as [Hctx Hres];
      rewrite Hctx1 in Hctx, Hres;
      split; [done|]; intros id; rewrite Hres;
      rewrite (status_only_completed _ _ _ _ _ Hso);
      replace (ls_results s1) with (ls_results (mkLayerState (ls_graph s1)
      (ls_results s1) None (ls_ctx s) [])) by done;
      rewrite Hg; simpl;
      destruct (decide (id = id0)) as [->|Hne].
    + rewrite (decide_True (P := id0 ∈ id0 :: layer)) by set_solver.
      rewrite Hid0. simpl. rewrite Ho. simpl. by case_decide.
    + destruct (decide (id ∈ layer)).
      * by rewrite decide_True by set_solver.
      * by rewrite decide_False by set_solver.
    + rewrite (decide_True (P := id0 ∈ id0 :: layer)) by set_solver.
      rewrite Hid0. simpl. rewrite Ho. simpl. rewrite lookup_insert_eq.
      by case_decide.
    + rewrite lookup_insert_ne by done. destruct (decide (id ∈ layer)).
      * by rewrite decide_True by set_solver.
      * by rewrite decide_False by set_solver.
Qed.

(** The error of a layer that failed is that of the first task, in
    launch order, that fails in the context the layer was started
    with. *)
Lemma run_layer_first_error layer results s s' err :
  ls_err s = None → run_layer layer results s = Some s' → ls_err s' = Some err →
  ∃ pre id post task e,
    layer = pre ++ id :: post ∧
    Store.vertices (ls_graph s) !! id = Some task ∧
    outcome (ls_ctx s) results task = Failed e ∧
    err = task_failed id e ∧
    ∀ id' task', id' ∈ pre → Store.vertices (ls_graph s) !! id' = Some task' →
    failed (outcome (ls_ctx s) results task') = None.
Proof.
  revert s. induction layer as [|id0 layer IH]; intros s Herr Hrun Herr';
    simpl in Hrun; [by simplify_eq; congruence|].
  unfold Store.Vertex in Hrun.
  destruct (Store.vertices (ls_graph s) !! id0) as [task|] eqn:Hid0; [|done].
  pose proof (goroutine_graph id0 task results s) as Hso.
  pose proof (goroutine_outcome id0 task results s) as Hg.
  rewrite Herr in Hg.
  destruct (outcome (ls_ctx s) results task) as [|v|e] eqn:Ho.
  3:{ eapply (run_layer_err_keep _ _ _ _ (task_failed id0 e)) in Hrun;
        [|by rewrite Hg].
      exists [], id0, layer, task, e. split_and!; try done; [congruence|].
      intros ?? Hin. by apply elem_of_nil in Hin. }
  all: assert (ls_err (goroutine id0 task results s) = None) as Herr1
    by (by rewrite Hg);
    assert (ls_ctx (goroutine id0 task results s) = ls_ctx s) as Hctx1
    by (by rewrite Hg);
    destruct (IH _ Herr1 Hrun Herr')
    as (pre & id & post & t1 & e & -> & Hv & Ho1 & -> & Hpre);
    rewrite Hctx1 in Ho1, Hpre;
    assert (∀ i t, Store.vertices (ls_graph s) !! i = Some t →
    ∃ t', Store.vertices (ls_graph (goroutine id0 task results s)) !! i = Some t' ∧
    outcome (ls_ctx s) results t' = outcome (ls_ctx s) results t) as Hfw
    by (intros i t Ht;
    destruct (status_only_lookup _ _ _ _ Hso Ht) as (t' & ? & Hsame);
    exists t'; split; [done|]; symmetry; by apply same_task_outcome);
    destruct (Store.vertices (ls_graph s) !! id) as [t0|] eqn:Hid;
    [|apply (status_only_lookup_None _ _ _ Hso) in Hid; congruence];
    destruct (Hfw _ _ Hid) as (t' & Ht' & Hout); simplify_eq;
    exists (id0 :: pre), id, post, t0, e;
    (split_and!; [done|done|congruence|done|]);
    intros i t [->|Hin]%elem_of_cons Ht;
    [simplify_eq; by rewrite Ho|];
    destruct (Hfw _ _ Ht) as (t'' & Ht'' & Hout'');
    rewrite <- Hout''; by eapply Hpre.
Qed.

Lemma goroutine_ctx taskID task results s :
  ls_ctx (goroutine taskID task results s) = ls_ctx s ∨
  is_Some (ls_err (goroutine taskID task results s)).
Proof.
  rewrite goroutine_outcome. simpl.
  destruct (outcome _ _ _), (ls_err s); eauto.
Qed.

(** The events of a layer are those of the goroutines of its tasks; a
    goroutine sees the context the layer was started with unless the
    layer has failed. *)
Lemma run_layer_trace layer results s s' :
  run_layer layer results s = Some s' →
  ∃ events, ls_trace s' = ls_trace s ++ events ∧
  ∀ e, e ∈ events →
  ∃ id task ctx', id ∈ layer ∧
  Store.vertices (ls_graph s) !! id = Some task ∧
  e ∈ task_events id ctx' results task ∧
  (ctx' = ls_ctx s ∨ is_Some (ls_err s')).
Proof.
  revert s. induction layer as [|id0 layer IH]; intros s Hrun; simpl in Hrun.
  - simplify_eq. exists []. rewrite app_nil_r. split; [done|].
    intros e He. by apply elem_of_nil in He.
  - unfold Store.Vertex in Hrun.
    destruct (Store.vertices (ls_graph s) !! id0) as [task|] eqn:Hid0; [|done].
    pose proof (goroutine_graph id0 task results s) as Hso.
    destruct (IH _ Hrun) as (events & Htr & Hev).
    rewrite goroutine_outcome in Htr. simpl in Htr.
    exists (task_events id0 (ls_ctx s) results task ++ events).
    split; [by rewrite Htr, app_assoc|].
    intros e [He|He]%elem_of_app.
    + exists id0, task, (ls_ctx s). set_solver.
    + destruct (Hev e He) as (id & t' & ctx' & Hin & Hv & Hte & Hctx).
      destruct (Store.vertices (ls_graph s) !! id) as [t|] eqn:Hid;
        [|apply (status_only_lookup_None _ _ _ Hso) in Hid; congruence].
      destruct (status_only_lookup _ _ _ _ Hso Hid) as (t'' & ? & Hsame).
      simplify_eq. exists id, t, ctx'. split; [set_solver|]. split; [done|].
      split; [by rewrite (same_task_events _ _ _ _ _ Hsame)|].
      destruct Hctx as [->|?]; [|by right].
      destruct (goroutine_ctx id0 task results s) as [->|[err Herr]]; [by left|].
      right. rewrite (run_layer_err_keep _ _ _ _ _ Herr Hrun). by eexists.
Qed.

(** The events of the first task that fails are among the events of the
    layer, with the context the layer was started with. *)
Lemma run_layer_first_error_events layer results s s' pre id post task :
  ls_err s = None → run_layer layer results s = Some s' →
  layer = pre ++ id :: post →
  Store.vertices (ls_graph s) !! id = Some task →
  (∀ id' task', id' ∈ pre → Store.vertices (ls_graph s) !! id' = Some task' →
    failed (outcome (ls_ctx s) results task') = None) →
  ∀ e, e ∈ task_events id (ls_ctx s) results task → e ∈ ls_trace s'.
Proof.
  revert s layer task.
  induction pre as [|id0 pre IH]; intros s layer task Herr Hrun -> Hv Hpre;
    simpl in Hrun; unfold Store.Vertex in Hrun.
  - rewrite Hv in Hrun. apply run_layer_trace in Hrun as (events & -> & _).
    rewrite goroutine_outcome. simpl. set_solver.
  - destruct (Store.vertices (ls_graph s) !! id0) as [task0|] eqn:Hid0; [|done].
    pose proof (goroutine_graph id0 task0 results s) as Hso.
    pose proof (Hpre id0 task0 ltac:(set_solver) Hid0) as Hnf.
    assert (ls_err (goroutine id0 task0 results s) = None ∧
      ls_ctx (goroutine id0 task0 results s) = ls_ctx s) as [Herr1 Hctx1].
    { rewrite goroutine_outcome. simpl. rewrite Herr.
      by destruct (outcome _ _ _). }
    destruct (status_only_lookup _ _ _ _ Hso Hv) as (task1 & Hv1 & Hsame).
    intros e He. eapply (IH _ _ task1 Herr1 Hrun eq_refl Hv1).
    + intros id' task' Hin Hv'. rewrite Hctx1.
      destruct (Store.vertices (ls_graph s) !! id') as [t|] eqn:Hid';
        [|apply (status_only_lookup_None _ _ _ Hso) in Hid'; congruence].
      destruct (status_only_lookup _ _ _ _ Hso Hid') as (t'' & ? & Hsame').
      simplify_eq. rewrite <- (same_task_outcome _ _ _ _ Hsame').
      apply (Hpre id'); [set_solver|done].
    + by rewrite Hctx1, <- (same_task_events _ _ _ _ _ Hsame).
Qed.

Lemma run_layer_untouched layer results s s' id :
  id ∉ layer → run_layer layer results s = Some s' →
  Store.vertices (ls_graph s') !! id = Store.vertices (ls_graph s) !! id.
Proof.
  revert s. induction layer as [|id0 layer IH]; intros s Hnin Hrun;
    simpl in Hrun; [by simplify_eq|].
  destruct (Store.Vertex _ _) as [task|]; [|done].
  rewrite (IH _ ltac:(set_solver) Hrun), goroutine_outcome. simpl.
  rewrite lookup_alter, decide_False; [done|]. set_solver.
Qed.

(** The status a task of the layer is left with is the one its outcome
    gives, in the context its work function saw. *)
Lemma run_layer_status layer results s s' id task :
  id ∈ layer → Store.vertices (ls_graph s) !! id = Some task →
  run_layer layer results s = Some s' →
  ∃ ctx', Store.vertices (ls_graph s') !! id =
  Some (set_Status (final_status (outcome ctx' results task)) task).
Proof.
  revert s task. induction layer as [|id0 layer IH]; intros s task Hin Hid Hrun;
    simpl in Hrun; [by apply elem_of_nil in Hin|].
  unfold Store.Vertex in Hrun.
  destruct (Store.vertices (ls_graph s) !! id0) as [task0|] eqn:Hid0; [|done].
  destruct (decide (id ∈ layer)) as [Hin'|Hnin].
  - assert (∃ st, Store.vertices (ls_graph (goroutine id0 task0 results s)) !! id
      = Some (set_Status st task)) as [st Hst].
    { rewrite goroutine_outcome. simpl. rewrite lookup_alter. case_decide.
      - subst id0. rewrite Hid. by eexists.
      - rewrite Hid. exists (Status task). by destruct task. }
    destruct (IH _ _ Hin' Hst Hrun) as (ctx' & ->). exists ctx'.
    by rewrite (same_task_outcome ctx' results (set_Status st task) task).
  - assert (id = id0) as -> by set_solver.
    assert (task0 = task) as -> by congruence.
    rewrite (run_layer_untouched _ _ _ _ _ Hnin Hrun), goroutine_outcome. simpl.
    rewrite lookup_alter, decide_True, Hid0 by done. by eexists.
Qed.

Lemma outcome_guard_false ctx results task :
  guard_false results task → outcome ctx results task = Skipped.
Proof. intros (c & Hc & Hf). unfold outcome. by rewrite Hc, Hf. Qed.
End Layer.

(** ** Grouping the tasks by layer *)
Section Grouping.
Implicit Types (iter : list (string * Z)) (layers : list (list string)).

Lemma max_layer_spec iter :
  0 ≤ max_layer iter ∧
  (∀ kv, kv ∈ iter → kv.2 ≤ max_layer iter) ∧
  (max_layer iter = 0 ∨ ∃ kv, kv ∈ iter ∧ kv.2 = max_layer iter).
Proof.
  unfold max_layer.
  assert (∀ m0, 0 ≤ m0 →
    let m := foldl (λ maxLayer kv, if kv.2 >? maxLayer then kv.2 else maxLayer) m0 iter in
    m0 ≤ m ∧ (∀ kv : string * Z, kv ∈ iter → kv.2 ≤ m) ∧
    (m = m0 ∨ ∃ kv : string * Z, kv ∈ iter ∧ kv.2 = m)) as H.
  { induction iter as [|kv iter IH]; intros m0 Hm0; simpl.
    - split; [lia|]. split; [|by left]. intros kv Hkv. by apply elem_of_nil in Hkv.
    - destruct (Z.gtb_spec kv.2 m0) as [Hgt|Hle].
      + destruct (IH kv.2 ltac:(lia)) as (H1 & H2 & H3). split; [lia|]. split.
        * intros kv' [->|Hin]%elem_of_cons; [lia|by apply H2].
        * right. destruct H3 as [->|(kv' & ? & ?)]; [exists kv|exists kv']; set_solver.
      + destruct (IH m0 Hm0) as (H1 & H2 & H3). split; [lia|]. split.
        * intros kv' [->|Hin]%elem_of_cons; [lia|by apply H2].
        * destruct H3 as [->|(kv' & ? & ?)]; [by left|]. right. exists kv'. set_solver. }
  destruct (H 0 ltac:(lia)) as (H1 & H2 & H3). done.
Qed.

Lemma max_layer_perm iter iter' : iter ≡ₚ iter' → max_layer iter = max_layer iter'.
Proof.
  intros Hp.
  destruct (max_layer_spec iter) as (H1 & H2 & H3).
  destruct (max_layer_spec iter') as (H1' & H2' & H3').
  assert (max_layer iter ≤ max_layer iter').
  { destruct H3 as [->|(kv & Hin & <-)]; [done|]. apply H2'. by rewrite <- Hp. }
  assert (max_layer iter' ≤ max_layer iter).
  { destruct H3' as [->|(kv & Hin & <-)]; [done|]. apply H2. by rewrite Hp. }
  lia.
Qed.

(** Layer [i] receives the tasks that [iter] gives layer [i], in the
    order of [iter]. *)
Lemma group_layers_spec iter layers layers' :
  group_layers iter layers = Some layers' →
  length layers' = length layers ∧
  ∀ (i : nat) l, layers !! i = Some l →
  layers' !! i = Some (l ++ (filter (λ kv, kv.2 = Z.of_nat i) iter).*1).
Proof.
  revert layers. induction iter as [|[taskID layer] iter IH]; intros layers Hg;
    simpl in Hg.
  - simplify_eq. split; [done|]. intros i l Hl. by rewrite app_nil_r.
  - case_bool_decide as Hrange; [|done].
    apply IH in Hg as [Hlen Hlook]. rewrite length_alter in Hlen.
    split; [done|]. intros i l Hl.
    destruct (decide (Z.to_nat layer = i)) as [<-|Hne].
    + rewrite (Hlook _ (l ++ [taskID])).
      * rewrite filter_cons_True by (simpl; lia). by rewrite <- app_assoc.
      * by rewrite list_lookup_alter_eq, Hl.
    + rewrite (Hlook _ l).
      * by rewrite filter_cons_False by (simpl; lia).
      * by rewrite list_lookup_alter_ne.
Qed.

Lemma group_layers_is_Some iter layers :
  (∀ kv, kv ∈ iter → 0 ≤ kv.2 < Z.of_nat (length layers)) →
  is_Some (group_layers iter layers).
Proof.
  revert layers. induction iter as [|[taskID layer] iter IH]; intros layers Hr;
    simpl; [by eexists|].
  rewrite bool_decide_eq_true_2 by (apply (Hr (taskID, layer)); set_solver).
  apply IH. intros kv Hkv. rewrite length_alter. apply Hr. set_solver.
Qed.

(** The layers [Execute] builds from an iteration order of a map whose
    layers are not negative. *)
Lemma group_layers_Execute iter :
  (∀ kv, kv ∈ iter → 0 ≤ kv.2) →
  ∃ layers,
    group_layers iter (replicate (Z.to_nat (max_layer iter + 1)) []) = Some layers ∧
    length layers = Z.to_nat (max_layer iter + 1) ∧
    ∀ (i : nat), (i < length layers)%nat →
    layers !! i = Some ((filter (λ kv, kv.2 = Z.of_nat i) iter).*1).
Proof.
  intros Hnn. destruct (max_layer_spec iter) as (H1 & H2 & _).
  destruct (group_layers_is_Some iter (replicate (Z.to_nat (max_layer iter + 1)) []))
    as [layers Hg].
  { intros kv Hkv. rewrite length_replicate. specialize (Hnn kv Hkv).
    specialize (H2 kv Hkv). lia. }
  exists layers. split; [done|].
  apply group_layers_spec in Hg as [Hlen Hlook]. rewrite length_replicate in Hlen.
  split; [done|]. intros i Hi. apply (Hlook i []).
  apply lookup_replicate. split; [done|lia].
Qed.

Lemma group_layers_perm iter iter' layers layers' :
  iter ≡ₚ iter' → (∀ kv, kv ∈ iter → 0 ≤ kv.2) →
  group_layers iter (replicate (Z.to_nat (max_layer iter + 1)) []) = Some layers →
  group_layers iter' (replicate (Z.to_nat (max_layer iter' + 1)) []) = Some layers' →
  Forall2 (≡ₚ) layers layers'.
Proof.
  intros Hp Hnn Hg Hg'.
  destruct (group_layers_Execute iter Hnn) as (l1 & Hl1 & Hlen1 & Hlook1).
  destruct (group_layers_Execute iter') as (l2 & Hl2 & Hlen2 & Hlook2).
  { intros kv Hkv. apply Hnn. by rewrite Hp. }
  simplify_eq. rewrite <- (max_layer_perm _ _ Hp) in Hlen2.
  apply Forall2_same_length_lookup. split; [congruence|].
  intros i x y Hx Hy.
  rewrite Hlook1 in Hx by (by eapply lookup_lt_Some).
  rewrite Hlook2 in Hy by (by eapply lookup_lt_Some).
  simplify_eq. by rewrite Hp.
Qed.
End Grouping.

(** ** Both variants keep the registry well formed *)
Section Reachable.
Context {V : Type}.
Implicit Types (g : Store.Graph (Task V)) (task : Task V)
    (results : gmap string V) (layers : list (list string)).

Lemma Opt_AddTask_add_task (tg : Opt.TaskGraph V) task :
  Opt.AddTask tg task =
  (Opt.mkTaskGraph (add_task (Opt.graph tg) (Opt.taskLayers tg) task).1.1
      (add_task (Opt.graph tg) (Opt.taskLayers tg) task).1.2 (Opt.opts tg),
    (add_task (Opt.graph tg) (Opt.taskLayers tg) task).2).
Proof.
  unfold Opt.AddTask, add_task, Opt.check_cycles.
  destruct (Store.AddVertex _ _ _) as [g1 [err|]]; [done|].
  destruct (Depends task); simpl.
  - by destruct (Store.TopologicalSort _).
  - destruct (Store.AddEdge _ _ _) as [g2 [e|]]; [done|].
    destruct (Opt.taskLayers tg !! _); [|done].
    destruct (add_dependencies _ _ _ _ _) as [g3 [m|e]]; [|done]. simpl.
    by destruct (Store.TopologicalSort _).
Qed.

Lemma Plain_AddTask_add_task (tg : Plain.TaskGraph V) task :
  Plain.AddTask tg task =
  (Plain.mkTaskGraph (add_task (Plain.graph tg) (Plain.taskLayers tg) task).1.1
      (add_task (Plain.graph tg) (Plain.taskLayers tg) task).1.2,
    (add_task (Plain.graph tg) (Plain.taskLayers tg) task).2).
Proof.
  unfold Plain.AddTask, add_task, Plain.check_cycles.
  destruct (Store.AddVertex _ _ _) as [g1 [err|]]; [done|].
  destruct (Depends task); simpl.
  - by destruct (Store.TopologicalSort _).
  - destruct (Store.AddEdge _ _ _) as [g2 [e|]]; [done|].
    destruct (Plain.taskLayers tg !! _); [|done].
    destruct (add_dependencies _ _ _ _ _) as [g3 [m|e]]; [|done]. simpl.
    by destruct (Store.TopologicalSort _).
Qed.

Lemma registry_ok_status_only g g' taskLayers :
  registry_ok g taskLayers → status_only g g' → registry_ok g' taskLayers.
Proof.
  intros Hok Hso. pose proof Hso as [He Hv].
  assert (∀ id, is_Some (Store.vertices g !! id) → is_Some (Store.vertices g' !! id))
    as Hsome.
  { intros id [t Ht]. destruct (status_only_lookup _ _ _ _ Hso Ht) as (t' & ? & _).
    by eexists. }
  split.
  - intros id t' Ht'. specialize (Hv id). rewrite Ht' in Hv.
    inversion Hv as [t ? (Hid & _) Ht|]; simplify_eq.
    rewrite <- Hid. by apply (ok_hash _ _ Hok).
  - intros u v. rewrite <- He. intros Hin.
    destruct (ok_edges _ _ Hok u v Hin). split; by apply Hsome.
  - intros id Hid. by apply Hsome, (ok_registered _ _ Hok).
  - intros id l Hl. destruct (ok_layers _ _ Hok id l Hl) as (t & Ht & Hm).
    destruct (status_only_lookup _ _ _ _ Hso Ht) as (t' & Ht' & (_ & _ & Hd & _)).
    exists t'. split; [done|]. by rewrite <- Hd.
  - apply Hok.
Qed.

Lemma Opt_executeLayer_graph (tg tg' : Opt.TaskGraph V) ctx layer results events ret :
  Opt.executeLayer tg ctx layer results = Some (tg', events, ret) →
  status_only (Opt.graph tg) (Opt.graph tg') ∧
  Opt.taskLayers tg' = Opt.taskLayers tg ∧ Opt.opts tg' = Opt.opts tg.
Proof.
  unfold Opt.executeLayer. destruct (go_blocks _ _); [done|].
  destruct (run_layer _ _ _) as [s|] eqn:Hrun; [|done].
  intros [= <- <- <-]. split; [|done]. by apply run_layer_graph in Hrun.
Qed.

Lemma Opt_execute_layers_graph (tg tg' : Opt.TaskGraph V) ctx layers results
    trace trace' ret :
  Opt.execute_layers tg ctx layers results trace = Some (tg', trace', ret) →
  status_only (Opt.graph tg) (Opt.graph tg') ∧
  Opt.taskLayers tg' = Opt.taskLayers tg ∧ Opt.opts tg' = Opt.opts tg.
Proof.
  revert tg results trace.
  induction layers as [|layer layers IH]; intros tg results trace Hex; simpl in Hex.
  - simplify_eq. split; [apply status_only_refl|done].
  - destruct (Opt.executeLayer _ _ _ _) as [[[tg1 events] [lr [err|]]]|] eqn:Hl;
      [| |done].
    + simplify_eq. by apply Opt_executeLayer_graph in Hl.
    + apply Opt_executeLayer_graph in Hl as (Hso & Htl & Hopts).
      apply IH in Hex as (Hso' & Htl' & Hopts').
      split; [by eapply status_only_trans|]. split; congruence.
Qed.

Lemma Opt_Execute_graph (tg tg' : Opt.TaskGraph V) ctx options iter trace ret :
  Opt.Execute tg ctx options iter = Some (tg', trace, ret) →
  status_only (Opt.graph tg) (Opt.graph tg') ∧
  Opt.taskLayers tg' = Opt.taskLayers tg ∧
  Opt.opts tg' = foldl (λ o (option : Opt.ExecuteOption), option o) (Opt.opts tg) options.
Proof.
  unfold Opt.Execute. destruct (group_layers _ _) as [layers|]; [|done].
  intros Hex. by apply Opt_execute_layers_graph in Hex.
Qed.

Lemma Plain_executeLayer_graph (tg tg' : Plain.TaskGraph V) ctx layer results events ret :
  Plain.executeLayer tg ctx layer results = Some (tg', events, ret) →
  status_only (Plain.graph tg) (Plain.graph tg') ∧
  Plain.taskLayers tg' = Plain.taskLayers tg.
Proof.
  unfold Plain.executeLayer. destruct (run_layer _ _ _) as [s|] eqn:Hrun; [|done].
  intros [= <- <- <-]. split; [|done]. by apply run_layer_graph in Hrun.
Qed.

Lemma Plain_execute_layers_graph (tg tg' : Plain.TaskGraph V) ctx layers results
    trace trace' ret :
  Plain.execute_layers tg ctx layers results trace = Some (tg', trace', ret) →
  status_only (Plain.graph tg) (Plain.graph tg') ∧
  Plain.taskLayers tg' = Plain.taskLayers tg.
Proof.
  revert tg results trace.
  induction layers as [|layer layers IH]; intros tg results trace Hex; simpl in Hex.
  - simplify_eq. split; [apply status_only_refl|done].
  - destruct (Plain.executeLayer _ _ _ _) as [[[tg1 events] [lr [err|]]]|] eqn:Hl;
      [| |done].
    + simplify_eq. by apply Plain_executeLayer_graph in Hl.
    + apply Plain_executeLayer_graph in Hl as (Hso & Htl).
      apply IH in Hex as (Hso' & Htl').
      split; [by eapply status_only_trans|]. congruence.
Qed.

Lemma Plain_Execute_graph (tg tg' : Plain.TaskGraph V) ctx opts iter trace ret :
  Plain.Execute tg ctx opts iter = Some (tg', trace, ret) →
  status_only (Plain.graph tg) (Plain.graph tg') ∧
  Plain.taskLayers tg' = Plain.taskLayers tg.
Proof.
  unfold Plain.Execute. destruct (Store.TopologicalSort _).
  - destruct (group_layers _ _) as [layers|]; [|done].
    intros Hex. by apply Plain_execute_layers_graph in Hex.
  - intros [= <- _ _]. split; [apply status_only_refl|done].
Qed.

Lemma reachable_ok (tg : Opt.TaskGraph V) :
  reachable tg → registry_ok (Opt.graph tg) (Opt.taskLayers tg).
Proof.
  induction 1 as [|tg task _ IH|tg ctx options iter tg' trace ret _ IH _ Hex].
  - apply registry_ok_new.
  - rewrite Opt_AddTask_add_task. simpl. by apply add_task_ok.
  - apply Opt_Execute_graph in Hex as (Hso & -> & _).
    by eapply registry_ok_status_only.
Qed.

Lemma reachable_plain_ok (tg : Plain.TaskGraph V) :
  reachable_plain tg → registry_ok (Plain.graph tg) (Plain.taskLayers tg).
Proof.
  induction 1 as [|tg task _ IH|tg ctx opts iter tg' trace ret _ IH _ Hex].
  - apply registry_ok_new.
  - rewrite Plain_AddTask_add_task. simpl. by apply add_task_ok.
  - apply Plain_Execute_graph in Hex as (Hso & ->).
    by eapply registry_ok_status_only.
Qed.
End Reachable.

(** ** The layer invariant *)
Section LayerInvariant.
Context {V : Type}.

Lemma reachable_register (tasks : list (Task V)) tg :
  reachable tg → reachable (register tasks tg).
Proof.
  revert tg. induction tasks as [|t tasks IH]; intros tg Hr; [done|].
  apply IH. by constructor.
Qed.

Lemma reachable_plain_register (tasks : list (Task V)) tg :
  reachable_plain tg → reachable_plain (register_plain tasks tg).
Proof.
  revert tg. induction tasks as [|t tasks IH]; intros tg Hr; [done|].
  apply IH. by constructor.
Qed.

(** What a successful call records: the task itself under its
    identifier, and for it the layer computed from the layers of the
    dependencies it declares. *)
Lemma add_task_layer (g : Store.Graph (Task V)) (taskLayers : gmap string Z)
    (t : Task V) g' taskLayers' :
  registry_ok g taskLayers →
  add_task g taskLayers t = (g', taskLayers', None) →
  Store.vertices g !! ID t = None ∧ taskLayers !! ID t = None ∧
  Store.vertices g' = <[ID t := t]> (Store.vertices g) ∧
  ∃ l, taskLayers' = <[ID t := l]> taskLayers ∧
  match Depends t with
  | [] => l = 0
  | _ :: _ =>
    ∃ m, l = 1 + m ∧
    (∃ d, d ∈ Depends t ∧ ID d ≠ ID t ∧ taskLayers !! ID d = Some m) ∧
    (∀ d, d ∈ Depends t →
      ID d ≠ ID t ∧ ∃ ld, taskLayers !! ID d = Some ld ∧ ld ≤ m)
  end.
Proof.
  intros Hok Hadd.
  pose proof (add_task_success _ _ _ _ _ Hadd) as (Hnone & Hvs & _ & _).
  assert (taskLayers !! ID t = None) as Hfresh.
  { apply eq_None_not_Some. intros Hs.
    apply (ok_registered _ _ Hok) in Hs as [x Hx]. congruence. }
  split_and!; [done..|].
  unfold add_task in Hadd.
  destruct (Store.AddVertex ID g t) as [g1 [e|]] eqn:Hv; [done|].
  destruct (Depends t) as [|d0 ds] eqn:Hdeps.
  { exists 0. split; [|done].
    by destruct (Store.TopologicalSort g1); injection Hadd as <- <-. }
  destruct (add_dependencies g1 taskLayers (ID t) (d0 :: ds) (-1))
    as [g2 [m|e]] eqn:Hrun; [|done].
  exists (m + 1). split.
  { by destruct (Store.TopologicalSort g2); injection Hadd as <- <-. }
  apply add_dependencies_inl in Hrun as (_ & Hmax & Hall).
  assert (∀ d, d ∈ d0 :: ds →
    ID d ≠ ID t ∧ ∃ ld, taskLayers !! ID d = Some ld ∧ ld ≤ m) as Hall'.
  { intros d Hd. destruct (Hall d Hd) as [(ld & Hld & Hle) _].
    split; [|by exists ld]. intros Heq. rewrite Heq in Hld. congruence. }
  exists m. split; [lia|]. split; [|done].
  destruct Hmax as [->|(d & Hd & Hm)].
  - destruct (Hall' d0) as (_ & ld & Hld & Hle); [by left|].
    pose proof (ok_nonneg _ _ Hok _ _ Hld). lia.
  - exists d. split; [done|]. split; [|done]. by apply Hall'.
Qed.

(** C1. After every successful [AddTask] of a task [t] on a graph a
    caller can hold: the store holds [t] itself under its identifier;
    the layer recorded for [t] is 0 when [t] declares no dependency,
    and otherwise 1 plus the largest layer among the dependencies that
    [t] declares; the call changes no other vertex and no other layer;
    and every task with a layer is a vertex of the store whose layer is
    0 when it declares no dependency and otherwise 1 plus the largest
    layer of its declared dependencies (variant of
    [src/unnamed/part_000]). *)
Theorem layer_invariant_after_AddTask (tg : Opt.TaskGraph V) (t : Task V) :
  reachable tg → (Opt.AddTask tg t).2 = None →
  Store.vertices (Opt.graph (Opt.AddTask tg t).1) !! ID t = Some t ∧
  (∃ l, Opt.taskLayers (Opt.AddTask tg t).1 !! ID t = Some l ∧
    match Depends t with
    | [] => l = 0
    | _ :: _ =>
      ∃ m, l = 1 + m ∧
      (∃ d, d ∈ Depends t ∧
        Opt.taskLayers (Opt.AddTask tg t).1 !! ID d = Some m) ∧
      (∀ d, d ∈ Depends t →
        ∃ ld, Opt.taskLayers (Opt.AddTask tg t).1 !! ID d = Some ld ∧ ld ≤ m)
    end) ∧
  (∀ id, id ≠ ID t →
    Store.vertices (Opt.graph (Opt.AddTask tg t).1) !! id =
    Store.vertices (Opt.graph tg) !! id ∧
    Opt.taskLayers (Opt.AddTask tg t).1 !! id = Opt.taskLayers tg !! id) ∧
  layer_invariant (Opt.graph (Opt.AddTask tg t).1)
    (Opt.taskLayers (Opt.AddTask tg t).1).
Proof.
  intros Hr Hsucc. pose proof (reachable_ok _ Hr) as Hok.
  split_and!; [| | |apply ok_layers, reachable_ok; by constructor].
  all: rewrite Opt_AddTask_add_task in *; cbn [fst snd] in *;
    destruct (add_task _ _ _) as [[g' l'] err] eqn:Hadd; cbn [fst snd] in *; subst err;
    destruct (add_task_layer _ _ _ _ _ Hok Hadd) as (Hnone & Hfresh & Hvs & l & -> & Hl);
    cbn [Opt.graph Opt.taskLayers].
  - rewrite Hvs. apply lookup_insert_eq.
  - exists l. split; [apply lookup_insert_eq|].
    destruct (Depends t) as [|d0 ds]; [done|].
    destruct Hl as (m & -> & (d & Hd & Hne & Hm) & Hall).
    exists m. split; [done|]. split.
    + exists d. split; [done|]. by rewrite lookup_insert_ne.
    + intros d' Hd'. destruct (Hall d' Hd') as (Hne' & ld & Hld & Hle).
      exists ld. split; [|done]. by rewrite lookup_insert_ne.
  - intros id Hne. rewrite Hvs. by rewrite !lookup_insert_ne.
Qed.
(** The same for the variant of [src/graph/task.go]. *)
Lemma layer_invariant_after_AddTask_plain (tg : Plain.TaskGraph V) (t : Task V) :
  reachable_plain tg → (Plain.AddTask tg t).2 = None →
  Store.vertices (Plain.graph (Plain.AddTask tg t).1) !! ID t = Some t ∧
  (∃ l, Plain.taskLayers (Plain.AddTask tg t).1 !! ID t = Some l ∧
    match Depends t with
    | [] => l = 0
    | _ :: _ =>
      ∃ m, l = 1 + m ∧
      (∃ d, d ∈ Depends t ∧
        Plain.taskLayers (Plain.AddTask tg t).1 !! ID d = Some m) ∧
      (∀ d, d ∈ Depends t →
        ∃ ld, Plain.taskLayers (Plain.AddTask tg t).1 !! ID d = Some ld ∧ ld ≤ m)
    end) ∧
  (∀ id, id ≠ ID t →
    Store.vertices (Plain.graph (Plain.AddTask tg t).1) !! id =
    Store.vertices (Plain.graph tg) !! id ∧
    Plain.taskLayers (Plain.AddTask tg t).1 !! id = Plain.taskLayers tg !! id) ∧
  layer_invariant (Plain.graph (Plain.AddTask tg t).1)
    (Plain.taskLayers (Plain.AddTask tg t).1).
Proof.
  intros Hr Hsucc. pose proof (reachable_plain_ok _ Hr) as Hok.
  split_and!; [| | |apply ok_layers, reachable_plain_ok; by constructor].
  all: rewrite Plain_AddTask_add_task in *; cbn [fst snd] in *;
    destruct (add_task _ _ _) as [[g' l'] err] eqn:Hadd; cbn [fst snd] in *; subst err;
    destruct (add_task_layer _ _ _ _ _ Hok Hadd) as (Hnone & Hfresh & Hvs & l & -> & Hl);
    cbn [Plain.graph Plain.taskLayers].
  - rewrite Hvs. apply lookup_insert_eq.
  - exists l. split; [apply lookup_insert_eq|].
    destruct (Depends t) as [|d0 ds]; [done|].
    destruct Hl as (m & -> & (d & Hd & Hne & Hm) & Hall).
    exists m. split; [done|]. split.
    + exists d. split; [done|]. by rewrite lookup_insert_ne.
    + intros d' Hd'. destruct (Hall d' Hd') as (Hne' & ld & Hld & Hle).
      exists ld. split; [|done]. by rewrite lookup_insert_ne.
  - intros id Hne. rewrite Hvs. by rewrite !lookup_insert_ne.
Qed.
End LayerInvariant.

Lemma layer_invariant_after_AddTask_witness :
  Store.vertices (Opt.graph abcd) !! "D" =
  Some (diamond_D (succeed "a") (succeed "b") (succeed "c") (succeed "d")) ∧
  Opt.taskLayers abcd !! "D" = Some 2.
Proof.
  destruct (layer_invariant_after_AddTask
    (register [diamond_A (succeed "a"); diamond_B (succeed "a") (succeed "b");
    diamond_C (succeed "a") (succeed "c")] Opt.NewTaskGraph)
    (diamond_D (succeed "a") (succeed "b") (succeed "c") (succeed "d")))
    as (Hv & (l & Hl & m & Hlm & (d & Hd & Hm) & Hall) & _).
  - apply reachable_register. constructor.
  - vm_compute. reflexivity.
  - split; [exact Hv|].
    change (Opt.taskLayers abcd !! "D" = Some l) in Hl. rewrite Hl.
    assert (m = 1) as ->; [|by rewrite Hlm].
    apply elem_of_cons in Hd as [->|Hd].
    + vm_compute in Hm. congruence.
    + apply list_elem_of_singleton in Hd as ->. vm_compute in Hm. congruence.
Defined.

(** ** Construction errors *)
Section ConstructionErrors.
Context {V : Type}.
Implicit Types (g : Store.Graph (Task V)) (taskLayers : gmap string Z)
    (t dep : Task V) (deps : list (Task V)).

(** The edges the loop over the dependencies has inserted when it
    returns. *)
Lemma add_dependencies_edges g taskLayers taskID deps maxDepLayer g' r :
  add_dependencies g taskLayers taskID deps maxDepLayer = (g', r) →
  match r with
  | inl _ => Store.edges g' = Store.edges g ++ ((λ d, (ID d, taskID)) <$> deps)
  | inr err =>
    ∃ done dep rest, deps = done ++ dep :: rest ∧
    (∀ d, d ∈ done → is_Some (taskLayers !! ID d)) ∧
    match err with
    | DependencyNotInLayerMap x =>
      x = ID dep ∧ taskLayers !! ID dep = None ∧
      is_Some (Store.vertices g !! ID dep) ∧
      Store.edges g' =
      Store.edges g ++ ((λ d, (ID d, taskID)) <$> done) ++ [(ID dep, taskID)]
    | FailedToAddDependency e =>
      Store.edges g' = Store.edges g ++ ((λ d, (ID d, taskID)) <$> done) ∧
      (e = Store.ErrSourceNotFound (ID dep) ∧ Store.vertices g !! ID dep = None ∨
        e = Store.ErrTargetNotFound taskID ∧ Store.vertices g !! taskID = None ∨
        e = Store.ErrEdgeAlreadyExists ∧ (ID dep, taskID) ∈ Store.edges g')
    | _ => False
    end
  end.
Proof.
  revert g maxDepLayer.
  induction deps as [|dep deps IH]; intros g maxDepLayer Hadd; simpl in Hadd.
  - simplify_eq. simpl. by rewrite app_nil_r.
  - destruct (Store.AddEdge g (ID dep) taskID) as [g1 [e|]] eqn:Hedge.
    + apply AddEdge_err in Hedge as [-> He]. simplify_eq.
      exists [], dep, deps. split; [done|]. split; [set_solver|].
      simpl. rewrite app_nil_r. split; [done|]. naive_solver.
    + apply AddEdge_ok in Hedge as (Hs & Ht & _ & ->).
      destruct (taskLayers !! ID dep) as [layer|] eqn:Hlayer.
      * apply IH in Hadd. simpl in Hadd. destruct r as [m|err].
        { rewrite Hadd. simpl. by rewrite <- app_assoc. }
        destruct Hadd as (done' & d & rest & -> & Hdone & Herr).
        exists (dep :: done'), d, rest. split; [done|]. split.
        { intros d' [->|Hin]%elem_of_cons; [by rewrite Hlayer|by apply Hdone]. }
        destruct err as [| |x|]; try done.
        -- destruct Herr as [He Hcase]. split; [|done].
           rewrite He. simpl. by rewrite <- app_assoc.
        -- destruct Herr as (-> & ? & ? & He). split_and!; try done.
           rewrite He. simpl. by rewrite <- !app_assoc.
      * simplify_eq. exists [], dep, deps. split; [done|]. split; [set_solver|].
        simpl. done.
Qed.

(** A new vertex that only receives edges from older vertices goes at
    the end of any linear order of the older store. *)
Lemma is_topological_order_extend g g' order taskID (t : Task V) added :
  Store.is_topological_order g order →
  Store.vertices g !! taskID = None →
  Store.vertices g' = <[taskID := t]> (Store.vertices g) →
  Store.edges g' = Store.edges g ++ added →
  (∀ e, e ∈ added → e.2 = taskID ∧ is_Some (Store.vertices g !! e.1)) →
  Store.is_topological_order g' (order ++ [taskID]).
Proof.
  intros (Hnd & Hmem & Hedges) Hfresh Hv He Hadded.
  assert (taskID ∉ order) as Hnin.
  { rewrite Hmem, Hfresh. by intros [? ?]. }
  split_and!.
  - apply NoDup_app. split; [done|]. split; [|apply NoDup_singleton].
    intros x Hx ->%list_elem_of_singleton. done.
  - intros h. rewrite elem_of_app, list_elem_of_singleton, Hv, Hmem, lookup_insert.
    case_decide; [subst; split; [by eexists|by right]|]. naive_solver.
  - intros u v. rewrite He, elem_of_app. intros [Hin|Hin].
    + destruct (Hedges u v Hin) as (l1 & l2 & l3 & ->).
      exists l1, l2, (l3 ++ [taskID]). by simplify_list_eq.
    + destruct (Hadded _ Hin) as [Htgt Hsrc]. simpl in *. subst v.
      apply Hmem, list_elem_of_split in Hsrc as (l1 & l2 & ->).
      exists l1, l2, []. by simplify_list_eq.
Qed.

(** What [AddTask] never undoes: tasks, edges and layers already in the
    registry stay as they are. *)
Lemma add_task_keeps g taskLayers t g' taskLayers' err :
  registry_ok g taskLayers →
  add_task g taskLayers t = (g', taskLayers', err) →
  (∀ id t', Store.vertices g !! id = Some t' → Store.vertices g' !! id = Some t') ∧
  (∀ e, e ∈ Store.edges g → e ∈ Store.edges g') ∧
  (∀ id l, taskLayers !! id = Some l → taskLayers' !! id = Some l).
Proof.
  intros Hok. unfold add_task.
  destruct (Store.AddVertex ID g t) as [g1 [e|]] eqn:Hvert.
  { apply AddVertex_err in Hvert as (-> & _ & _). by intros [= <- <- <-]. }
  apply AddVertex_ok in Hvert as [Hnew ->].
  assert (taskLayers !! ID t = None) as Hfresh.
  { destruct (taskLayers !! ID t) eqn:Hl; [|done].
    destruct (ok_registered _ _ Hok (ID t)) as [? ?]; [by eexists|congruence]. }
  assert (∀ id (t' : Task V), Store.vertices g !! id = Some t' →
    <[ID t := t]> (Store.vertices g) !! id = Some t') as Hsub.
  { intros id t' Ht'. rewrite lookup_insert_ne; [done|]. congruence. }
  assert (∀ id l l0, taskLayers !! id = Some l →
    <[ID t := l0]> taskLayers !! id = Some l) as Hlsub.
  { intros id l l0 Hl. rewrite lookup_insert_ne; [done|]. congruence. }
  destruct (Depends t) as [|d0 ds] eqn:Hdeps.
  - destruct (Store.TopologicalSort _); intros [= <- <- <-]; simpl; eauto.
  - destruct (add_dependencies _ _ _ _ _) as [g2 [m|e]] eqn:Hadd;
      apply add_dependencies_store in Hadd as (Hv & added & He & _); simpl in *.
    + destruct (Store.TopologicalSort _); intros [= <- <- <-];
        (split_and!; [intros ??; rewrite Hv; eauto | intros ?; rewrite He; set_solver | eauto]).
    + intros [= <- <- <-].
      split_and!; [intros ??; rewrite Hv; eauto | intros ?; rewrite He; set_solver | eauto].
Qed.

(** A call that ends on the cycle error has inserted the vertex, every
    edge and the layer. *)
Lemma add_task_invalid g taskLayers t g' taskLayers' e :
  add_task g taskLayers t = (g', taskLayers', Some (InvalidTaskGraph e)) →
  Store.TopologicalSort g' = inr e ∧
  Store.vertices g !! ID t = None ∧
  Store.vertices g' = <[ID t := t]> (Store.vertices g) ∧
  Store.edges g' = Store.edges g ++ ((λ d, (ID d, ID t)) <$> Depends t) ∧
  ∃ l, taskLayers' = <[ID t := l]> taskLayers.
Proof.
  unfold add_task.
  destruct (Store.AddVertex ID g t) as [g1 [e1|]] eqn:Hvert; [done|].
  apply AddVertex_ok in Hvert as [Hnew ->].
  destruct (Depends t) as [|d0 ds] eqn:Hdeps.
  - destruct (Store.TopologicalSort _) eqn:Hs; intros [= <- <- <-].
    rewrite Hs. simpl. rewrite app_nil_r. eauto 10.
  - destruct (add_dependencies _ _ _ _ _) as [g2 [m|e2]] eqn:Hadd.
    + pose proof Hadd as (Hv & _)%add_dependencies_store.
      apply add_dependencies_edges in Hadd. simpl in *.
      destruct (Store.TopologicalSort _) eqn:Hs; intros [= <- <- <-].
      rewrite Hs. eauto 10.
    + apply add_dependencies_edges in Hadd as (? & ? & ? & _ & _ & Hcase).
      intros [= <- <- ->]. done.
Qed.

(** The only call that closes a cycle in an acyclic store is one whose
    task depends on its own identifier, and that call stops at the layer
    lookup of this dependency. *)
Lemma add_task_closes_cycle g taskLayers t g' taskLayers' err order :
  registry_ok g taskLayers →
  Store.is_topological_order g order →
  add_task g taskLayers t = (g', taskLayers', err) →
  (∀ order', ¬ Store.is_topological_order g' order') →
  err = Some (DependencyNotInLayerMap (ID t)) ∧
  (∃ d, d ∈ Depends t ∧ ID d = ID t) ∧
  Store.vertices g' !! ID t = Some t ∧
  (ID t, ID t) ∈ Store.edges g' ∧
  taskLayers' = taskLayers ∧ taskLayers !! ID t = None.
Proof.
  intros Hok Horder. unfold add_task.
  destruct (Store.AddVertex ID g t) as [g1 [e|]] eqn:Hvert.
  { apply AddVertex_err in Hvert as (-> & _ & _). intros [= <- <- <-] Hcyc.
    by destruct (Hcyc order). }
  apply AddVertex_ok in Hvert as [Hnew ->].
  assert (taskLayers !! ID t = None) as Hfresh.
  { destruct (taskLayers !! ID t) eqn:Hl; [|done].
    destruct (ok_registered _ _ Hok (ID t)) as [? ?]; [by eexists|congruence]. }
  assert (∀ g2 added,
    Store.vertices g2 = <[ID t := t]> (Store.vertices g) →
    Store.edges g2 = Store.edges g ++ added →
    (∀ e, e ∈ added → e.2 = ID t ∧ is_Some (Store.vertices g !! e.1)) →
    (∀ order', ¬ Store.is_topological_order g2 order') → False) as Hext.
  { intros g2 added Hv He Hadded Hcyc. apply (Hcyc (order ++ [ID t])).
    by eapply is_topological_order_extend. }
  assert (∀ (ds : list (Task V)) e,
    (∀ d, d ∈ ds → is_Some (taskLayers !! ID d)) →
    e ∈ (λ d, (ID d, ID t)) <$> ds → e.2 = ID t ∧ is_Some (Store.vertices g !! e.1))
    as Hreg.
  { intros ds e Hds (d & -> & Hd)%list_elem_of_fmap. split; [done|].
    by apply (ok_registered _ _ Hok), Hds. }
  destruct (Depends t) as [|d0 ds] eqn:Hdeps.
  - intros Hadd Hcyc. exfalso.
    apply (Hext g' []); [| |set_solver|done];
      destruct (Store.TopologicalSort _); simplify_eq; simpl; by rewrite ?app_nil_r.
  - destruct (add_dependencies _ _ _ _ _) as [g2 [m|e]] eqn:Hadd.
    + intros Hres Hcyc. exfalso.
      pose proof Hadd as (Hv & _)%add_dependencies_store.
      pose proof Hadd as (_ & _ & Hall)%add_dependencies_inl.
      apply add_dependencies_edges in Hadd. simpl in *.
      apply (Hext g' ((λ d, (ID d, ID t)) <$> d0 :: ds)).
      * destruct (Store.TopologicalSort _); by simplify_eq.
      * destruct (Store.TopologicalSort _); by simplify_eq.
      * intros e. apply Hreg. intros d Hd.
        destruct (Hall d Hd) as [(ld & -> & _) _]. by eexists.
      * done.
    + intros [= <- <- <-] Hcyc.
      pose proof Hadd as (Hv & _)%add_dependencies_store.
      apply add_dependencies_edges in Hadd as (done & d & rest & Hsplit & Hdone & Hcase).
      simpl in *.
      destruct e as [| |x|]; try done.
      * exfalso. destruct Hcase as [He _].
        apply (Hext g2 ((λ d, (ID d, ID t)) <$> done)); [done|done| |done].
        intros e. by apply Hreg.
      * destruct Hcase as (-> & Hnone & Hvx & He).
        destruct (decide (ID d = ID t)) as [Heq|Hne].
        -- rewrite Heq. split_and!; try done.
           ++ exists d. split; [|done]. rewrite Hsplit. set_solver.
           ++ rewrite Hv. apply lookup_insert_eq.
           ++ rewrite He, <- Heq. set_solver.
        -- exfalso.
           apply (Hext g2 (((λ d, (ID d, ID t)) <$> done) ++ [(ID d, ID t)]));
             [done|done| |done].
           intros e [Hin|Heq%list_elem_of_singleton]%elem_of_app; [by eapply Hreg|].
           subst e.
           split; [done|]. simpl. by rewrite lookup_insert_ne in Hvx.
Qed.
End ConstructionErrors.

Section ConstructionClaims.
Context {V : Type}.

(** C5, as amended. Whenever [AddTask] leaves the dependency store cyclic
    (the order query on the graph after the call fails), the call fails,
    nothing is rolled back, and the order query, under any sort that
    meets the store's contract, fails with the cycle error. A call that
    ends on the cycle check ([CyclicGraph]) keeps the vertex, every edge
    and the layer entry, and happens only on a store that was cyclic
    already. A call that closes a cycle itself declares a dependency
    with its own identifier and fails on the layer lookup of that
    dependency: the vertex and the self edge stay, no layer is
    recorded. *)
Theorem cycle_kept_without_rollback (tg : Opt.TaskGraph V) (t : Task V) e :
  reachable tg →
  Opt.GetExecutionOrder (Opt.AddTask tg t).1 = inr e →
  e = Store.ErrCycle ∧
  (∀ r, Store.TopologicalSort_outcome (Opt.graph (Opt.AddTask tg t).1) r →
    r = inr Store.ErrCycle) ∧
  (∃ err, (Opt.AddTask tg t).2 = Some err ∧
    (∀ e', err = InvalidTaskGraph e' →
      e' = Store.ErrCycle ∧
      Opt.GetExecutionOrder tg = inr Store.ErrCycle ∧
      Store.vertices (Opt.graph (Opt.AddTask tg t).1) !! ID t = Some t ∧
      (∀ d, d ∈ Depends t →
        (ID d, ID t) ∈ Store.edges (Opt.graph (Opt.AddTask tg t).1)) ∧
      is_Some (Opt.taskLayers (Opt.AddTask tg t).1 !! ID t)) ∧
    (∀ order, Opt.GetExecutionOrder tg = inl order →
      err = DependencyNotInLayerMap (ID t) ∧
      (∃ d, d ∈ Depends t ∧ ID d = ID t) ∧
      Store.vertices (Opt.graph (Opt.AddTask tg t).1) !! ID t = Some t ∧
      (ID t, ID t) ∈ Store.edges (Opt.graph (Opt.AddTask tg t).1) ∧
      Opt.taskLayers (Opt.AddTask tg t).1 !! ID t = None)) ∧
  (∀ id t', Store.vertices (Opt.graph tg) !! id = Some t' →
    Store.vertices (Opt.graph (Opt.AddTask tg t).1) !! id = Some t') ∧
  (∀ edge, edge ∈ Store.edges (Opt.graph tg) →
    edge ∈ Store.edges (Opt.graph (Opt.AddTask tg t).1)) ∧
  (∀ id l, Opt.taskLayers tg !! id = Some l →
    Opt.taskLayers (Opt.AddTask tg t).1 !! id = Some l).
Proof.
  intros Hr Hsort. pose proof (reachable_ok _ Hr) as Hok.
  pose proof (reachable_ok _ (reachable_AddTask _ t Hr)) as Hok'.
  unfold Opt.GetExecutionOrder in *. rewrite Opt_AddTask_add_task in *.
  destruct (add_task (Opt.graph tg) (Opt.taskLayers tg) t) as [[g' l'] err] eqn:Hadd.
  simpl in *.
  apply StoreFacts.TopologicalSort_inr in Hsort as [-> Hcyc].
  split; [done|]. split.
  { intros r Hout. destruct Hout as [order Ho|]; [by destruct (Hcyc order)|done]. }
  split; [|by eapply add_task_keeps].
  destruct err as [err|].
  2:{ apply add_task_success in Hadd as (_ & _ & _ & order & Hs).
      apply StoreFacts.TopologicalSort_inl in Hs; [|apply Hok'].
      by destruct (Hcyc order). }
  exists err. split; [done|]. split.
  - intros e' ->. pose proof Hadd as (Hs & Hnew & Hv & He & l & ->)%add_task_invalid.
    destruct (StoreFacts.TopologicalSort_inr _ _ Hs) as [-> _].
    split; [done|]. split_and!.
    + destruct (Store.TopologicalSort (Opt.graph tg)) as [order|e0] eqn:Hs0.
      * apply StoreFacts.TopologicalSort_inl in Hs0; [|apply Hok].
        by destruct (add_task_closes_cycle _ _ _ _ _ _ _ Hok Hs0 Hadd Hcyc) as [? _].
      * by destruct (StoreFacts.TopologicalSort_inr _ _ Hs0) as [-> _].
    + rewrite Hv. apply lookup_insert_eq.
    + intros d Hd. rewrite He. apply elem_of_app. right.
      apply list_elem_of_fmap. by exists d.
    + rewrite lookup_insert_eq. by eexists.
  - intros order Hs0. apply StoreFacts.TopologicalSort_inl in Hs0; [|apply Hok].
    destruct (add_task_closes_cycle _ _ _ _ _ _ _ Hok Hs0 Hadd Hcyc)
      as (? & ? & ? & ? & -> & ?).
    by simplify_eq.
Qed.

Lemma split_cases {A} (l1 l1' l2 l2' : list A) x y :
  l1 ++ x :: l2 = l1' ++ y :: l2' →
  l1 = l1' ∧ x = y ∧ l2 = l2' ∨
  (∃ k, l1' = l1 ++ x :: k) ∨ (∃ k, l1 = l1' ++ y :: k).
Proof.
  revert l1'. induction l1 as [|a l1 IH]; intros [|b l1'] Heq; cbn in Heq.
  - injection Heq as -> ->. by left.
  - injection Heq as -> _. right. left. by eexists.
  - injection Heq as -> _. right. right. by eexists.
  - injection Heq as -> Heq. destruct (IH _ Heq) as [(-> & -> & ->)|[[k ->]|[k ->]]].
    + by left.
    + right. left. by eexists.
    + right. right. by eexists.
Qed.

(** C6, as amended. Let a task declare a dependency whose identifier is
    not the identifier of any vertex of the store (no task was ever
    passed to [AddTask] under it). Then [AddTask] fails, runs no task,
    changes no task of the store and records no layer. The error is
    never the cycle error. It is the layer lookup error for that
    dependency only if the dependency carries the identifier of the
    task itself. The layer lookup error only names a vertex of the
    store without a layer. If the identifier of the task is taken, the
    error is the duplicate vertex error. Otherwise, when every
    dependency declared before this one has a layer and these have
    distinct identifiers (so that this is the first dependency the loop
    cannot process), the error is the failure of the store's edge
    insertion, "failed to add dependency: source vertex ...: vertex not
    found", unless the dependency carries the identifier of the task
    itself, in which case it is "dependency task ... not found in layer
    map". *)
Theorem unknown_dependency_rejected (tg : Opt.TaskGraph V) (t dep : Task V) :
  reachable tg →
  dep ∈ Depends t →
  Store.vertices (Opt.graph tg) !! ID dep = None →
  ∃ err, (Opt.AddTask tg t).2 = Some err ∧
  (∀ e, err ≠ InvalidTaskGraph e) ∧
  (err = DependencyNotInLayerMap (ID dep) → ID dep = ID t) ∧
  (∀ x, err = DependencyNotInLayerMap x →
    is_Some (Store.vertices (Opt.graph (Opt.AddTask tg t).1) !! x) ∧
    Opt.taskLayers (Opt.AddTask tg t).1 !! x = None) ∧
  (is_Some (Store.vertices (Opt.graph tg) !! ID t) →
    err = FailedToAddTask Store.ErrVertexAlreadyExists) ∧
  (Store.vertices (Opt.graph tg) !! ID t = None →
    ∀ pre post, Depends t = pre ++ dep :: post →
    (∀ d, d ∈ pre → is_Some (Opt.taskLayers tg !! ID d)) →
    NoDup (ID <$> pre) →
    err =
    if decide (ID dep = ID t) then DependencyNotInLayerMap (ID dep)
      else FailedToAddDependency (Store.ErrSourceNotFound (ID dep))) ∧
  (∀ id t', Store.vertices (Opt.graph tg) !! id = Some t' →
    Store.vertices (Opt.graph (Opt.AddTask tg t).1) !! id = Some t') ∧
  Opt.taskLayers (Opt.AddTask tg t).1 = Opt.taskLayers tg.
Proof.
  intros Hr Hdep Hunknown. pose proof (reachable_ok _ Hr) as Hok.
  assert (Opt.taskLayers tg !! ID dep = None) as Hnolayer.
  { apply eq_None_not_Some. intros Hs.
    apply (ok_registered _ _ Hok) in Hs as [x Hx]. congruence. }
  rewrite Opt_AddTask_add_task.
  destruct (add_task (Opt.graph tg) (Opt.taskLayers tg) t) as [[g' l'] err] eqn:Hadd.
  pose proof (add_task_keeps _ _ _ _ _ _ Hok Hadd) as (Hkeep & _ & _).
  cbn [fst snd Opt.graph Opt.taskLayers]. revert Hadd. unfold add_task.
  destruct (Store.AddVertex ID (Opt.graph tg) t) as [g1 [e|]] eqn:Hvert.
  { apply AddVertex_err in Hvert as (-> & -> & [t0 Ht0]).
    intros [= <- <- <-]. eexists. split; [done|].
    split_and!; try done. intros Hnone. congruence. }
  apply AddVertex_ok in Hvert as [Hnew ->].
  destruct (Depends t) as [|d0 ds] eqn:Hdeps; [by apply elem_of_nil in Hdep|].
  destruct (add_dependencies _ _ _ _ _) as [g2 [m|e]] eqn:Hdepsrun.
  { apply add_dependencies_inl in Hdepsrun as (_ & _ & Hall).
    destruct (Hall dep Hdep) as [(ld & Hld & _) _]. congruence. }
  intros [= <- <- <-].
  pose proof Hdepsrun as (Hv & _)%add_dependencies_store.
  apply add_dependencies_edges in Hdepsrun as (done & d & rest & Hsplit & Hdone & Hcase).
  cbn [Store.vertices Store.edges] in Hv, Hcase.
  assert (∀ x : Task V, is_Some (Opt.taskLayers tg !! ID x) →
    ID x ≠ ID t ∧ ID x ≠ ID dep ∧
    is_Some (<[ID t := t]> (Store.vertices (Opt.graph tg)) !! ID x)) as Hlayered.
  { intros x Hx. pose proof (ok_registered _ _ Hok _ Hx) as [v Hvx].
    assert (ID x ≠ ID t) by congruence. split_and!; [done|congruence|].
    rewrite lookup_insert_ne by done. by eexists. }
  (* where the loop stops, when this is the first dependency it cannot
      process *)
    assert (∀ pre post, d0 :: ds = pre ++ dep :: post →
    (∀ d', d' ∈ pre → is_Some (Opt.taskLayers tg !! ID d')) →
    NoDup (ID <$> pre) →
    (e = DependencyNotInLayerMap (ID d) ∨
    e = FailedToAddDependency (Store.ErrSourceNotFound (ID d)) ∧
    <[ID t := t]> (Store.vertices (Opt.graph tg)) !! ID d = None) →
    d = dep) as Hfirst.
  { intros pre post Hpre Hlay Hnd Hkind. rewrite Hsplit in Hpre.
    destruct (split_cases _ _ _ _ _ _ Hpre) as [(_ & ? & _)|[[k ->]|[k ->]]]; [done|..].
    - exfalso. destruct (Hlayered d) as (_ & _ & [v Hvd]).
      { apply Hlay. apply elem_of_app. right. by left. }
      destruct Hkind as [->|[-> Hnone]].
      + destruct Hcase as (_ & Hnl & _).
        destruct (Hlay d) as [l Hl]; [apply elem_of_app; right; by left|]. congruence.
      + congruence.
    - exfalso. destruct (Hdone dep) as [l Hl]; [apply elem_of_app; right; by left|].
      congruence. }
  exists e. split; [done|].
  destruct e as [|e|x|]; try done.
  - (* the edge insertion failed *)
    destruct Hcase as [He Hcase]. split_and!; try done.
    { intros [? ?]. congruence. }
    intros _ pre post Hpre Hlay Hnd.
    destruct Hcase as [[-> Hnone]|[[_ Hc]|[-> Hc]]].
    + assert (d = dep) as -> by (eapply Hfirst; [done..|by right]).
      case_decide as Hself; [|done].
      rewrite Hself, lookup_insert_eq in Hnone. done.
    + by rewrite lookup_insert_eq in Hc.
    + exfalso. rewrite He in Hc. apply elem_of_app in Hc as [Hc|Hc].
      { destruct (ok_edges _ _ Hok _ _ Hc) as [_ [? ?]]. congruence. }
      apply list_elem_of_fmap in Hc as (d' & [= Hid] & Hd').
      rewrite Hsplit in Hpre.
      destruct (split_cases _ _ _ _ _ _ Hpre) as [(-> & -> & _)|[[k ->]|[k ->]]].
      * destruct (Hlayered d') as (_ & Hne & _); [by apply Hlay|]. congruence.
      * rewrite fmap_app, fmap_cons in Hnd.
        apply NoDup_app in Hnd as (_ & Hdisj & _).
        apply (Hdisj (ID d')); [apply list_elem_of_fmap; by exists d'|].
        rewrite <- Hid. by left.
      * destruct (Hdone dep) as [l Hl]; [apply elem_of_app; right; by left|].
        congruence.
  - (* the layer lookup failed *)
    destruct Hcase as (-> & Hnone & Hvx & _). split_and!; try done.
    + intros [= Heq]. destruct (decide (ID dep = ID t)) as [?|Hne]; [done|].
      rewrite Heq, lookup_insert_ne in Hvx by congruence.
      destruct Hvx. congruence.
    + intros x [= <-]. by rewrite Hv.
    + intros [? ?]. congruence.
    + intros _ pre post Hpre Hlay Hnd.
      assert (d = dep) as -> by (eapply Hfirst; [done..|by left]).
      case_decide as Hself; [done|].
      rewrite lookup_insert_ne in Hvx by congruence. destruct Hvx. congruence.
Qed.
End ConstructionClaims.

(** On a new graph, registering a task that depends on its own
    identifier makes the store cyclic, yet the call fails on the layer
    lookup, not on the cycle check, and records no layer. *)
Lemma cycle_error_counterexample :
  Opt.GetExecutionOrder (@Opt.NewTaskGraph string) = inl [] ∧
  (Opt.AddTask Opt.NewTaskGraph self_dependent).2
    = Some (DependencyNotInLayerMap "S") ∧
  Opt.GetExecutionOrder (Opt.AddTask Opt.NewTaskGraph self_dependent).1
    = inr Store.ErrCycle ∧
  Opt.taskLayers (Opt.AddTask Opt.NewTaskGraph self_dependent).1 !! "S" = None.
Proof. vm_compute. done. Qed.

Lemma cycle_kept_without_rollback_witness :
  Opt.GetExecutionOrder (Opt.AddTask Opt.NewTaskGraph self_dependent).1
    = inr Store.ErrCycle ∧
  ∃ err, (Opt.AddTask Opt.NewTaskGraph self_dependent).2 = Some err.
Proof.
  split; [vm_compute; reflexivity|].
  destruct (cycle_kept_without_rollback Opt.NewTaskGraph self_dependent Store.ErrCycle)
    as (_ & _ & (err & Herr & _) & _).
  - constructor.
  - vm_compute. reflexivity.
  - by exists err.
Defined.

(** On a new graph, a task that depends on a task X never added is
    rejected by the edge insertion, with its message. *)
Lemma unknown_dependency_counterexample :
  (Opt.AddTask Opt.NewTaskGraph orphan).2
    = Some (FailedToAddDependency (Store.ErrSourceNotFound "X")) ∧
  AddTaskError_string (FailedToAddDependency (Store.ErrSourceNotFound "X"))
    = "failed to add dependency: source vertex X: vertex not found" ∧
  (Opt.AddTask Opt.NewTaskGraph orphan).2 ≠ Some (DependencyNotInLayerMap "X").
Proof. vm_compute. done. Qed.

Lemma unknown_dependency_rejected_witness :
  (Opt.AddTask abcd
      (new_task "E" (succeed "e")
        [diamond_A (succeed "a"); new_task "X" (succeed "x") []])).2
    = Some (FailedToAddDependency (Store.ErrSourceNotFound "X")).
Proof.
  destruct (unknown_dependency_rejected abcd
    (new_task "E" (succeed "e")
    [diamond_A (succeed "a"); new_task "X" (succeed "x") []])
    (new_task "X" (succeed "x") []))
    as (err & Herr & _ & _ & _ & _ & Hfirst & _).
  - apply reachable_register. constructor.
  - right. left.
  - reflexivity.
  - rewrite Herr. f_equal.
    apply (Hfirst eq_refl [diamond_A (succeed "a")] []); [reflexivity| |].
    + intros d ->%list_elem_of_singleton. by eexists.
    + repeat constructor. by intros ?%elem_of_nil.
Defined.

(** ** One call of [executeLayer] *)
Section LayerCall.
Context {V : Type}.
Implicit Types (g : Store.Graph (Task V)) (results : gmap string V)
    (layer : list string).

Lemma layer_results_cons g ctx results id0 layer :
  layer_results g ctx results (id0 :: layer) =
  match Store.vertices g !! id0 ≫= (λ t, completed (outcome ctx results t)) with
  | Some result => <[id0 := result]> (layer_results g ctx results layer)
  | None => layer_results g ctx results layer
  end.
Proof. done. Qed.

Lemma layer_results_lookup g ctx results layer id :
  layer_results g ctx results layer !! id =
  if decide (id ∈ layer)
    then Store.vertices g !! id ≫= (λ t, completed (outcome ctx results t))
    else None.
Proof.
  induction layer as [|id0 layer IH].
  - change (layer_results g ctx results []) with (∅ : gmap string V).
    rewrite lookup_empty. by rewrite decide_False by apply not_elem_of_nil.
  - rewrite layer_results_cons. destruct (decide (id = id0)) as [Heq|Hne].
    + subst id0. rewrite (decide_True (P := id ∈ id :: layer)) by set_solver.
      destruct (Store.vertices g !! id ≫= _) as [v|] eqn:Hv.
      * by rewrite lookup_insert_eq.
      * rewrite IH. by case_decide.
    + assert (layer_results g ctx results layer !! id =
        if decide (id ∈ id0 :: layer)
        then Store.vertices g !! id ≫= (λ t, completed (outcome ctx results t))
        else None) as Hrest.
      { rewrite IH. destruct (decide (id ∈ layer)).
        - by rewrite decide_True by set_solver.
        - by rewrite decide_False by set_solver. }
      destruct (Store.vertices g !! id0 ≫= _); [|done].
      by rewrite lookup_insert_ne.
Qed.

Lemma layer_results_status_only g g' ctx results layer :
  status_only g g' →
  layer_results g' ctx results layer = layer_results g ctx results layer.
Proof.
  intros Hso. apply map_eq. intros id. rewrite !layer_results_lookup.
  case_decide; [|done]. by apply status_only_completed.
Qed.

Lemma layer_results_perm g ctx results layer layer' :
  layer ≡ₚ layer' →
  layer_results g ctx results layer = layer_results g ctx results layer'.
Proof.
  intros Hp. apply map_eq. intros id. rewrite !layer_results_lookup.
  destruct (decide (id ∈ layer)) as [Hin|Hnin].
  - by rewrite decide_True by (by rewrite <- Hp).
  - by rewrite decide_False by (by rewrite <- Hp).
Qed.

Lemma results_before_status_only g g' ctx layers results i :
  status_only g g' →
  results_before g' ctx layers results i = results_before g ctx layers results i.
Proof.
  intros Hso. revert results i.
  induction layers as [|layer layers IH]; intros results [|i]; simpl; try done.
  by rewrite (layer_results_status_only _ _ _ _ _ Hso), IH.
Qed.

(** Everything one layer does, from a state that holds no error: the
    store changes in statuses only; the events are those of its tasks;
    tasks outside the layer are untouched and tasks of the layer carry
    the status of their outcome; the call returns the results of the
    layer, or the error of the first task that fails. *)
Lemma wait_err (s : LayerState V) : (wait s).2 = ls_err s.
Proof. unfold wait. by destruct (ls_err s). Qed.

Lemma run_layer_call g ctx layer results trace s :
  run_layer layer results (mkLayerState g ∅ None ctx trace) = Some s →
  status_only g (ls_graph s) ∧
  (∃ events, ls_trace s = trace ++ events ∧
    ∀ e, e ∈ events →
    ∃ id task ctx', id ∈ layer ∧ Store.vertices g !! id = Some task ∧
    e ∈ task_events id ctx' results task ∧
    (ctx' = ctx ∨ is_Some (wait s).2)) ∧
  (∀ id, id ∉ layer → Store.vertices (ls_graph s) !! id = Store.vertices g !! id) ∧
  (∀ id task, id ∈ layer → Store.vertices g !! id = Some task →
    ∃ ctx', Store.vertices (ls_graph s) !! id =
    Some (set_Status (final_status (outcome ctx' results task)) task)) ∧
  match wait s with
  | (Some res, None) =>
    res = layer_results g ctx results layer ∧
    ∀ id task, id ∈ layer → Store.vertices g !! id = Some task →
    failed (outcome ctx results task) = None
  | (None, Some err) =>
    ∃ pre id post task e,
      layer = pre ++ id :: post ∧ Store.vertices g !! id = Some task ∧
      outcome ctx results task = Failed e ∧ err = task_failed id e ∧
      (∀ id' task', id' ∈ pre → Store.vertices g !! id' = Some task' →
        failed (outcome ctx results task') = None) ∧
      (∀ ev, ev ∈ task_events id ctx results task → ev ∈ ls_trace s)
  | _ => False
  end.
Proof.
  set (s0 := mkLayerState g ∅ None ctx trace). intros Hrun.
  split; [apply (run_layer_graph _ _ s0 _ Hrun)|].
  split; [rewrite wait_err; apply (run_layer_trace _ _ s0 _ Hrun)|].
  split; [intros id Hid; apply (run_layer_untouched _ _ s0 _ _ Hid Hrun)|].
  split; [intros id task Hid Hv; apply (run_layer_status _ _ s0 _ _ _ Hid Hv Hrun)|].
  unfold wait. destruct (ls_err s) as [err|] eqn:Herr.
  - destruct (run_layer_first_error _ _ s0 _ _ eq_refl Hrun Herr)
      as (pre & id & post & task & e & Hsplit & Hv & Ho & -> & Hpre).
    exists pre, id, post, task, e. split_and!; try done.
    apply (run_layer_first_error_events _ _ s0 _ _ _ _ _ eq_refl Hrun Hsplit Hv Hpre).
  - destruct (run_layer_results _ _ s0 _ eq_refl Hrun Herr) as [_ Hres]. simpl in Hres.
    split.
    + apply map_eq. intros id. rewrite Hres, layer_results_lookup, lookup_empty.
      by destruct (if decide _ then _ else _).
    + intros id task Hid Hv.
      destruct (failed (outcome ctx results task)) as [e|] eqn:Hf; [|done].
      assert (is_Some (ls_err s)) as [? ?]; [|congruence].
      apply (run_layer_fails_iff _ _ s0 _ eq_refl Hrun). exists id, task.
      simpl. rewrite Hf. eauto.
Qed.
End LayerCall.

(** ** A whole run, variant with functional options *)
Section OptRun.
Context {V : Type}.
Implicit Types (tg : Opt.TaskGraph V) (results : gmap string V)
    (layer : list string) (layers : list (list string)).

Lemma status_only_sym (g g' : Store.Graph (Task V)) :
  status_only g g' → status_only g' g.
Proof.
  intros [He Hv]. split; [done|]. intros id. specialize (Hv id).
  destruct Hv as [t t' (? & ? & ? & ?)|]; constructor. by repeat split.
Qed.

Lemma Opt_executeLayer_call tg ctx layer results tg' events ret :
  Opt.executeLayer tg ctx layer results = Some (tg', events, ret) →
  status_only (Opt.graph tg) (Opt.graph tg') ∧
  Opt.taskLayers tg' = Opt.taskLayers tg ∧ Opt.opts tg' = Opt.opts tg ∧
  (∃ events', events = EvSetLimit (Opt.WorkerCount (Opt.opts tg)) :: events' ∧
    ∀ e, e ∈ events' →
    ∃ id task ctx', id ∈ layer ∧ Store.vertices (Opt.graph tg) !! id = Some task ∧
    e ∈ task_events id ctx' results task ∧
    (ctx' = ctx ∨ is_Some ret.2)) ∧
  (∀ id, id ∉ layer →
    Store.vertices (Opt.graph tg') !! id = Store.vertices (Opt.graph tg) !! id) ∧
  (∀ id task, id ∈ layer → Store.vertices (Opt.graph tg) !! id = Some task →
    ∃ ctx', Store.vertices (Opt.graph tg') !! id =
    Some (set_Status (final_status (outcome ctx' results task)) task)) ∧
  match ret with
  | (Some res, None) =>
    res = layer_results (Opt.graph tg) ctx results layer ∧
    ∀ id task, id ∈ layer → Store.vertices (Opt.graph tg) !! id = Some task →
    failed (outcome ctx results task) = None
  | (None, Some err) =>
    ∃ pre id post task e,
      layer = pre ++ id :: post ∧ Store.vertices (Opt.graph tg) !! id = Some task ∧
      outcome ctx results task = Failed e ∧ err = task_failed id e ∧
      (∀ id' task', id' ∈ pre → Store.vertices (Opt.graph tg) !! id' = Some task' →
        failed (outcome ctx results task') = None) ∧
      (∀ ev, ev ∈ task_events id ctx results task → ev ∈ events)
  | _ => False
  end.
Proof.
  unfold Opt.executeLayer. destruct (go_blocks _ _); [done|].
  destruct (run_layer _ _ _) as [s|] eqn:Hrun; [|done].
  intros [= <- <- <-]. simpl.
  apply run_layer_call in Hrun as (Hso & (ev & -> & Hev) & Hun & Hst & Hret).
  split_and!; try done. by exists ev.
Qed.

(** The layers of a run: [n] of them are executed, all of them when
    none fails, and those up to the first that fails otherwise. Each
    executed layer reads the results accumulated by the layers before
    it. *)
Lemma Opt_execute_layers_run tg ctx layers results trace tg' trace' ret :
  Opt.execute_layers tg ctx layers results trace = Some (tg', trace', ret) →
  ∃ (n : nat) events,
    (n ≤ length layers)%nat ∧
    trace' = trace ++ events ∧
    (∀ e, e ∈ events →
      e = EvSetLimit (Opt.WorkerCount (Opt.opts tg)) ∨
      ∃ i layer id task ctx',
        (i < n)%nat ∧ layers !! i = Some layer ∧ id ∈ layer ∧
        Store.vertices (Opt.graph tg) !! id = Some task ∧
        e ∈ task_events id ctx'
          (results_before (Opt.graph tg) ctx layers results i) task ∧
        (ctx' = ctx ∨ n = S i ∧ is_Some ret.2)) ∧
    (∀ id, (∀ i layer, (i < n)%nat → layers !! i = Some layer → id ∉ layer) →
      Store.vertices (Opt.graph tg') !! id = Store.vertices (Opt.graph tg) !! id) ∧
    (∀ i layer id task,
        (i < n)%nat → layers !! i = Some layer → id ∈ layer →
        (∀ j layer', j ≠ i → layers !! j = Some layer' → id ∉ layer') →
        Store.vertices (Opt.graph tg) !! id = Some task →
        ∃ ctx', Store.vertices (Opt.graph tg') !! id =
        Some (set_Status
            (final_status
              (outcome ctx'
                (results_before (Opt.graph tg) ctx layers results i) task))
            task)) ∧
    (∀ i layer id task,
        (S i < n)%nat → layers !! i = Some layer → id ∈ layer →
        Store.vertices (Opt.graph tg) !! id = Some task →
        failed (outcome ctx (results_before (Opt.graph tg) ctx layers results i) task)
          = None) ∧
    match ret with
    | (Some res, None) =>
      n = length layers ∧
      res = results_before (Opt.graph tg) ctx layers results n ∧
      ∀ i layer id task,
        layers !! i = Some layer → id ∈ layer →
        Store.vertices (Opt.graph tg) !! id = Some task →
        failed (outcome ctx (results_before (Opt.graph tg) ctx layers results i) task)
          = None
    | (None, Some err) =>
      ∃ i layer pre id post task e,
        n = S i ∧ layers !! i = Some layer ∧ layer = pre ++ id :: post ∧
        Store.vertices (Opt.graph tg) !! id = Some task ∧
        outcome ctx (results_before (Opt.graph tg) ctx layers results i) task
          = Failed e ∧
        err = task_failed id e ∧
        (∀ id' task', id' ∈ pre → Store.vertices (Opt.graph tg) !! id' = Some task' →
          failed (outcome ctx (results_before (Opt.graph tg) ctx layers results i) task')
            = None) ∧
        (∀ ev, ev ∈ task_events id ctx
            (results_before (Opt.graph tg) ctx layers results i) task →
          ev ∈ events)
    | _ => False
    end.
Proof.
  revert tg results trace.
  induction layers as [|layer layers IH]; intros tg results trace Hex; simpl in Hex.
  { simplify_eq. exists 0%nat, []. rewrite app_nil_r.
    split; [simpl; lia|]. split; [done|].
    split; [intros e He; by apply elem_of_nil in He|].
    split; [done|]. split; [intros; lia|]. split; [intros; lia|].
    split; [done|]. split; [done|].
    intros i layer id task Hlook. by rewrite lookup_nil in Hlook. }
  destruct (Opt.executeLayer tg ctx layer results)
    as [[[tg1 ev1] [lr [err|]]]|] eqn:Hl; [| |done].
  - (* the layer fails *)
    simplify_eq.
    apply Opt_executeLayer_call in Hl
      as (Hso & Htl & Hopts & (ev & -> & Hev) & Hun & Hst & Hret).
    destruct lr as [res|]; [done|].
    exists 1%nat, (EvSetLimit (Opt.WorkerCount (Opt.opts tg)) :: ev).
    split_and!.
    + simpl. lia.
    + done.
    + intros e' [->|He]%elem_of_cons; [by left|]. right.
      destruct (Hev _ He) as (id & task & ctx' & ? & ? & ? & Hctx).
      exists 0%nat, layer, id, task, ctx'. split_and!; try done; [lia|].
      destruct Hctx; [by left|by right].
    + intros id Hid. apply Hun. apply (Hid 0%nat); [lia|done].
    + intros i layer' id task Hi Hlook Hin _ Hv.
      assert (i = 0%nat) as -> by lia. simplify_eq/=. by apply Hst.
    + intros; lia.
    + destruct Hret as (pre & id & post & task & e & ? & ? & ? & ? & ? & ?).
      exists 0%nat, layer, pre, id, post, task, e. done.
  - (* the layer succeeds *)
    apply Opt_executeLayer_call in Hl
      as (Hso & Htl & Hopts & (ev & -> & Hev) & Hun & Hst & Hret).
    destruct lr as [res|]; [|done]. destruct Hret as [-> Hnofail].
    simpl in Hex.
    apply IH in Hex as (n & events & Hn & -> & Hevents & Hun' & Hst' & Hbefore & Hret').
    set (g := Opt.graph tg) in *. set (g1 := Opt.graph tg1) in *.
    set (results1 := layer_results g ctx results layer ∪ results) in *.
    assert (∀ i, results_before g1 ctx layers results1 i
      = results_before g ctx (layer :: layers) results (S i)) as Hrb.
    { intros i. simpl. by apply results_before_status_only. }
    assert (∀ id task1, Store.vertices g1 !! id = Some task1 →
      ∃ task, Store.vertices g !! id = Some task ∧ same_task task task1) as Hback.
    { intros id task1 Hv1.
      destruct (status_only_lookup _ _ _ _ (status_only_sym _ _ Hso) Hv1)
        as (task & ? & (? & ? & ? & ?)).
      exists task. split; [done|]. by repeat split. }
    exists (S n), (EvSetLimit (Opt.WorkerCount (Opt.opts tg)) :: ev ++ events).
    split_and!.
    + simpl. lia.
    + by rewrite <- app_assoc.
    + intros e' [->|[He|He]%elem_of_app]%elem_of_cons; [by left| |].
      * right. destruct (Hev _ He) as (id & task & ctx' & ? & ? & ? & Hctx).
        exists 0%nat, layer, id, task, ctx'. split_and!; try done; [lia|].
        destruct Hctx as [?|[? [=]]]. by left.
      * destruct (Hevents _ He)
          as [->|(i & layer' & id & task1 & ctx' & ? & ? & ? & Hv1 & Hte & Hctx)].
        { left. by rewrite Hopts. }
        right. destruct (Hback _ _ Hv1) as (task & Hv & Hsame).
        exists (S i), layer', id, task, ctx'. split_and!; try done; [lia| |].
        -- by rewrite <- Hrb, (same_task_events _ _ _ _ _ Hsame).
        -- destruct Hctx as [?|[-> ?]]; [by left|by right].
    + intros id Hid. rewrite Hun'.
      * apply Hun. apply (Hid 0%nat); [lia|done].
      * intros i layer' Hi Hlook. apply (Hid (S i)); [lia|done].
    + intros i layer' id task Hi Hlook Hin Huniq Hv.
      destruct i as [|i].
      * simplify_eq/=. destruct (Hst _ _ Hin Hv) as (ctx' & Hfinal).
        exists ctx'. rewrite Hun'; [done|].
        intros j layer'' Hj Hlook'. by apply (Huniq (S j)).
      * simpl in Hlook.
        assert (id ∉ layer) as Hnin by (by apply (Huniq 0%nat)).
        destruct (Hst' i layer' id task) as (ctx' & Hfinal); try done.
        -- lia.
        -- intros j layer'' Hj Hlook'. apply (Huniq (S j)); [lia|done].
        -- by rewrite Hun.
        -- exists ctx'. by rewrite <- Hrb.
    + intros i layer' id task Hi Hlook Hin Hv. destruct i as [|i].
      * simplify_eq/=. by eapply Hnofail.
      * simpl in Hlook. destruct (status_only_lookup _ _ _ _ Hso Hv) as (task1 & Hv1 & Hsame).
        rewrite <- Hrb, (same_task_outcome _ _ _ _ Hsame).
        eapply Hbefore; [|done..]. lia.
    + destruct ret as [[res|] [err|]]; try done.
      * destruct Hret' as (-> & -> & Hall). split_and!; try done.
        intros i layer' id task Hlook Hin Hv. destruct i as [|i].
        -- simplify_eq/=. by eapply Hnofail.
        -- simpl in Hlook.
           destruct (status_only_lookup _ _ _ _ Hso Hv) as (task1 & Hv1 & Hsame).
           rewrite <- Hrb, (same_task_outcome _ _ _ _ Hsame). by eapply Hall.
      * destruct Hret'
          as (i & layer' & pre & id & post & task1 & e & -> & ? & ? & Hv1 & Ho & ? & Hpre & Hfe).
        destruct (Hback _ _ Hv1) as (task & Hv & Hsame).
        exists (S i), layer', pre, id, post, task, e. split_and!; try done.
        -- by rewrite <- Hrb, (same_task_outcome _ _ _ _ Hsame).
        -- intros id' task' Hin' Hv'.
           destruct (status_only_lookup _ _ _ _ Hso Hv') as (task1' & Hv1' & Hsame').
           rewrite <- Hrb, (same_task_outcome _ _ _ _ Hsame'). by eapply Hpre.
        -- intros ev' Hev'. apply elem_of_cons. right. apply elem_of_app. right.
           apply Hfe. by rewrite Hrb, <- (same_task_events _ _ _ _ _ Hsame).
Qed.
End OptRun.

(** ** The layers of a registry *)
Section RegistryLayers.
Context {V : Type}.
Implicit Types (tg : Opt.TaskGraph V) (results : gmap string V)
    (layer : list string) (layers : list (list string)) (iter : list (string * Z)).

Lemma NoDup_filter_fst (P : string * Z → Prop) `{!∀ x, Decision (P x)} iter :
  NoDup iter.*1 → NoDup (filter P iter).*1.
Proof.
  intros Hnd. eapply sublist_NoDup; [done|].
  apply fmap_sublist, sublist_filter.
Qed.

(** The layers built from any iteration order of the layer map: layer
    [i] holds, once each, the tasks whose layer is [i]. *)
Lemma group_layers_registry (taskLayers : gmap string Z) iter :
  iter ≡ₚ map_to_list taskLayers →
  (∀ id l, taskLayers !! id = Some l → 0 ≤ l) →
  ∃ layers,
    group_layers iter (replicate (Z.to_nat (max_layer iter + 1)) []) = Some layers ∧
    (∀ (i : nat) layer id, layers !! i = Some layer →
      (id ∈ layer ↔ taskLayers !! id = Some (Z.of_nat i))) ∧
    (∀ id l, taskLayers !! id = Some l →
      ∃ layer, layers !! Z.to_nat l = Some layer ∧ id ∈ layer) ∧
    (∀ (i : nat) layer, layers !! i = Some layer → NoDup layer) ∧
    length layers = Z.to_nat (max_layer iter + 1).
Proof.
  intros Hp Hnn.
  assert (∀ kv, kv ∈ iter ↔ taskLayers !! kv.1 = Some kv.2) as Hiter.
  { intros [k l]. rewrite Hp. apply elem_of_map_to_list. }
  destruct (group_layers_Execute iter) as (layers & Hg & Hlen & Hlook).
  { intros [k l] Hkv. apply (Hnn k). by apply Hiter in Hkv. }
  assert (∀ (i : nat) id, id ∈ (filter (λ kv : string * Z, kv.2 = Z.of_nat i) iter).*1 ↔
    taskLayers !! id = Some (Z.of_nat i)) as Hmem.
  { intros i id. rewrite list_elem_of_fmap. split.
    - intros ([k l] & -> & [Hl Hin]%list_elem_of_filter). simpl in *. subst l.
      by apply Hiter in Hin.
    - intros Hl. exists (id, Z.of_nat i). split; [done|].
      apply list_elem_of_filter. split; [done|]. by apply Hiter. }
  exists layers. split; [done|]. split_and!.
  - intros i layer id Hi. rewrite Hlook in Hi by (by eapply lookup_lt_Some).
    simplify_eq. apply Hmem.
  - intros id l Hl. pose proof (Hnn _ _ Hl) as Hl0.
    destruct (max_layer_spec iter) as (_ & Hmax & _).
    pose proof (Hmax (id, l) ltac:(by apply Hiter)) as Hle. simpl in Hle.
    eexists. split; [apply Hlook; lia|]. apply Hmem.
    by rewrite Z2Nat.id.
  - intros i layer Hi. rewrite Hlook in Hi by (by eapply lookup_lt_Some).
    simplify_eq. apply NoDup_filter_fst. rewrite Hp. apply NoDup_fst_map_to_list.
  - done.
Qed.

Lemma go_blocks_false limit layer : limit ≠ 0 → go_blocks limit layer = false.
Proof. intros Hne. destruct layer; [done|]. by apply Z.eqb_neq. Qed.

Lemma Opt_execute_layers_is_Some tg ctx layers results trace :
  Opt.WorkerCount (Opt.opts tg) ≠ 0 →
  (∀ layer id, layer ∈ layers → id ∈ layer →
    is_Some (Store.vertices (Opt.graph tg) !! id)) →
  is_Some (Opt.execute_layers tg ctx layers results trace).
Proof.
  revert tg results trace.
  induction layers as [|layer layers IH]; intros tg results trace Hlimit Hall; simpl;
    [by eexists|].
  destruct (Opt.executeLayer tg ctx layer results) as [[[tg1 ev] [lr [err|]]]|] eqn:Hl.
  - by eexists.
  - apply Opt_executeLayer_graph in Hl as (Hso & _ & Hopts).
    apply IH; [by rewrite Hopts|]. intros layer' id Hin Hid.
    destruct (Hall layer' id) as [t Ht]; [set_solver|done|].
    destruct (status_only_lookup _ _ _ _ Hso Ht) as (t' & -> & _). by eexists.
  - exfalso. unfold Opt.executeLayer in Hl.
    rewrite (go_blocks_false _ _ Hlimit) in Hl.
    destruct (run_layer _ _ _) eqn:Hrun; [done|].
    assert (is_Some (run_layer layer results
      (mkLayerState (Opt.graph tg) ∅ None ctx
      [EvSetLimit (Opt.WorkerCount (Opt.opts tg))]))) as [? ?]; [|congruence].
    apply run_layer_is_Some. intros id Hid. simpl. apply (Hall layer); set_solver.
Qed.

(** [Execute] returns on a graph a caller can hold, when the worker
    count in force is not zero. *)
Lemma Opt_Execute_is_Some tg ctx options iter :
  reachable tg → iter ≡ₚ map_to_list (Opt.taskLayers tg) →
  Opt.WorkerCount
    (foldl (λ o (option : Opt.ExecuteOption), option o) (Opt.opts tg) options) ≠ 0 →
  is_Some (Opt.Execute tg ctx options iter).
Proof.
  intros Hr Hp Hlimit. pose proof (reachable_ok _ Hr) as Hok.
  destruct (group_layers_registry _ _ Hp (ok_nonneg _ _ Hok))
    as (layers & Hg & Hmem & _ & _).
  unfold Opt.Execute. simpl. rewrite Hg.
  apply Opt_execute_layers_is_Some; [done|]. simpl.
  intros layer id (i & Hi)%list_elem_of_lookup Hid.
  apply (ok_registered _ _ Hok). apply (Hmem _ _ id) in Hi.
  apply Hi in Hid. by eexists.
Qed.
End RegistryLayers.

(** ** The events of a task *)
Section TaskEvents.
Context {V : Type}.
Implicit Types (task : Task V) (results inputs : gmap string V) (e : Event V).

Lemma task_events_task id ctx results task e :
  e ∈ task_events id ctx results task → event_task e = Some id.
Proof.
  unfold task_events. intros [He|He]%elem_of_app.
  - destruct (Condition task); [|by apply elem_of_nil in He].
    by apply list_elem_of_singleton in He as ->.
  - destruct (outcome ctx results task); set_solver.
Qed.

Lemma task_events_condition id ctx results task id' inputs holds :
  EvCondition id' inputs holds ∈ task_events id ctx results task →
  id' = id ∧ inputs = collect_inputs (Depends task) results ∧
  ∃ condition, Condition task = Some condition ∧ condition inputs = holds.
Proof.
  unfold task_events. intros [He|He]%elem_of_app.
  - destruct (Condition task) as [c|]; [|by apply elem_of_nil in He].
    apply list_elem_of_singleton in He. simplify_eq. eauto.
  - destruct (outcome ctx results task); set_solver.
Qed.

Lemma task_events_execute id ctx results task id' ctx' inputs :
  EvExecute id' ctx' inputs ∈ task_events id ctx results task →
  id' = id ∧ ctx' = ctx ∧ inputs = collect_inputs (Depends task) results ∧
  outcome ctx results task =
  match Execute task ctx inputs with
  | inl result => Completed result
  | inr err => Failed err
  end.
Proof.
  unfold task_events. intros [He|He]%elem_of_app.
  - destruct (Condition task) as [c|]; set_solver.
  - revert He. unfold outcome.
    destruct (Condition task) as [c|];
      [destruct (c (collect_inputs (Depends task) results))|];
      destruct (Execute task ctx (collect_inputs (Depends task) results)) eqn:Hex;
      intros He; repeat (apply elem_of_cons in He as [He|He]; simplify_eq);
      try (by apply elem_of_nil in He); by rewrite Hex.
Qed.

Lemma task_events_failed id ctx results task err :
  outcome ctx results task = Failed err →
  EvExecute id ctx (collect_inputs (Depends task) results)
    ∈ task_events id ctx results task ∧
  Execute task ctx (collect_inputs (Depends task) results) = inr err.
Proof.
  intros Ho. unfold task_events. rewrite Ho. split; [set_solver|].
  revert Ho. unfold outcome.
  destruct (Condition task) as [c|];
    [destruct (c (collect_inputs (Depends task) results))|];
    destruct (Execute task ctx (collect_inputs (Depends task) results));
    naive_solver.
Qed.

Lemma guard_false_condition results task inputs condition :
  Condition task = Some condition →
  inputs = collect_inputs (Depends task) results →
  condition inputs = false → guard_false results task.
Proof. intros Hc -> Hf. by exists condition. Qed.

Lemma results_before_lookup_None (g : Store.Graph (Task V)) ctx layers results
    (k : nat) id :
  results !! id = None →
  (∀ (i : nat) layer task, (i < k)%nat → layers !! i = Some layer → id ∈ layer →
    Store.vertices g !! id = Some task →
    completed (outcome ctx (results_before g ctx layers results i) task) = None) →
  results_before g ctx layers results k !! id = None.
Proof.
  revert results k. induction layers as [|layer layers IH]; intros results k Hnone Hall.
  - by destruct k.
  - destruct k as [|k]; [done|]. simpl. apply IH.
    + apply lookup_union_None. split; [|done].
      rewrite layer_results_lookup. case_decide as Hin; [|done].
      destruct (Store.vertices g !! id) as [task|] eqn:Hv; [|done]. simpl.
      apply (Hall 0%nat layer task); [lia|done..].
    + intros i layer' task Hi Hlook Hin Hv.
      apply (Hall (S i) layer' task); [lia|done..].
Qed.

Lemma elem_of_log (b : bool) (x e : Event V) :
  e ∈ (if b then [x] else []) → e = x.
Proof. destruct b; set_solver. Qed.
End TaskEvents.

(** ** A run of [Execute] *)
Section ExecuteRun.
Context {V : Type}.
Implicit Types (tg : Opt.TaskGraph V) (results : gmap string V)
    (layer : list string) (layers : list (list string)) (iter : list (string * Z)).

(** A run of [Execute] on a graph a caller can hold, under any iteration
    order of the layer map: the layers are those of the layer map, [n] of
    them are executed, and the events, the statuses and the value
    returned are those of the tasks of these layers. *)
Lemma Opt_Execute_run tg ctx options iter tg' trace ret :
  reachable tg → iter ≡ₚ map_to_list (Opt.taskLayers tg) →
  Opt.Execute tg ctx options iter = Some (tg', trace, ret) →
  ∃ layers (n : nat),
    group_layers iter (replicate (Z.to_nat (max_layer iter + 1)) []) = Some layers ∧
    (∀ (i : nat) layer id, layers !! i = Some layer →
      (id ∈ layer ↔ Opt.taskLayers tg !! id = Some (Z.of_nat i))) ∧
    (n ≤ length layers)%nat ∧
    (∀ e id, e ∈ trace → event_task e = Some id →
      ∃ (i : nat) layer task ctx',
        (i < n)%nat ∧ layers !! i = Some layer ∧ id ∈ layer ∧
        Store.vertices (Opt.graph tg) !! id = Some task ∧
        e ∈ task_events id ctx' (results_before (Opt.graph tg) ctx layers ∅ i) task ∧
        (ctx' = ctx ∨ n = S i ∧ is_Some ret.2)) ∧
    (∀ id, (∀ (i : nat) layer, (i < n)%nat → layers !! i = Some layer → id ∉ layer) →
      Store.vertices (Opt.graph tg') !! id = Store.vertices (Opt.graph tg) !! id) ∧
    (∀ (i : nat) layer id task,
        (i < n)%nat → layers !! i = Some layer → id ∈ layer →
        Store.vertices (Opt.graph tg) !! id = Some task →
        ∃ ctx', Store.vertices (Opt.graph tg') !! id =
        Some (set_Status
            (final_status
              (outcome ctx' (results_before (Opt.graph tg) ctx layers ∅ i) task))
            task)) ∧
    (∀ (i : nat) layer id task,
        (S i < n)%nat → layers !! i = Some layer → id ∈ layer →
        Store.vertices (Opt.graph tg) !! id = Some task →
        failed (outcome ctx (results_before (Opt.graph tg) ctx layers ∅ i) task) = None) ∧
    match ret with
    | (Some res, None) =>
      n = length layers ∧
      res = results_before (Opt.graph tg) ctx layers ∅ n ∧
      ∀ (i : nat) layer id task,
        layers !! i = Some layer → id ∈ layer →
        Store.vertices (Opt.graph tg) !! id = Some task →
        failed (outcome ctx (results_before (Opt.graph tg) ctx layers ∅ i) task) = None
    | (None, Some err) =>
      ∃ (i : nat) layer pre id post task e,
        n = S i ∧ layers !! i = Some layer ∧ layer = pre ++ id :: post ∧
        Store.vertices (Opt.graph tg) !! id = Some task ∧
        outcome ctx (results_before (Opt.graph tg) ctx layers ∅ i) task = Failed e ∧
        err = task_failed id e ∧
        (∀ id' task', id' ∈ pre → Store.vertices (Opt.graph tg) !! id' = Some task' →
          failed (outcome ctx (results_before (Opt.graph tg) ctx layers ∅ i) task')
            = None) ∧
        (∀ ev, ev ∈ task_events id ctx
            (results_before (Opt.graph tg) ctx layers ∅ i) task →
          ev ∈ trace)
    | _ => False
    end.
Proof.
  intros Hr Hp Hex. pose proof (reachable_ok _ Hr) as Hok.
  destruct (group_layers_registry _ _ Hp (ok_nonneg _ _ Hok))
    as (layers & Hg & Hmem & _ & _).
  unfold Opt.Execute in Hex. simpl in Hex. rewrite Hg in Hex.
  apply Opt_execute_layers_run in Hex
    as (n & events & Hn & -> & Hev & Hun & Hst & Hbefore & Hret).
  simpl in *. exists layers, n.
  assert (∀ (i j : nat) layer layer' id,
    layers !! i = Some layer → layers !! j = Some layer' →
    id ∈ layer → id ∈ layer' → i = j) as Huniq.
  { intros i j layer layer' id Hi Hj Hin Hin'.
    apply (Hmem _ _ id) in Hi, Hj. apply Hi in Hin. apply Hj in Hin'.
    rewrite Hin in Hin'. simplify_eq. lia. }
  split_and!; try done.
  - intros e id [[He|He]%elem_of_app|He]%elem_of_app Hid.
    + apply elem_of_log in He. by subst e.
    + apply elem_of_log in He. by subst e.
    + destruct (Hev e He) as [->|(i & layer & id' & task & ctx' & ? & ? & ? & ? & Hte & ?)];
        [done|].
      pose proof (task_events_task _ _ _ _ _ Hte). simplify_eq.
      by exists i, layer, task, ctx'.
  - intros i layer id task Hi Hlook Hin Hv. apply (Hst i layer); try done.
    intros j layer' Hne Hlook' Hin'. apply Hne. by eapply Huniq.
  - destruct ret as [[res|] [err|]]; try done.
    destruct Hret as (i & layer & pre & id & post & task & e & ? & ? & ? & ? & ? & ? & ? & Hfe).
    exists i, layer, pre, id, post, task, e. split_and!; try done.
    intros ev Hin. apply elem_of_app. right. by apply Hfe.
Qed.
End ExecuteRun.

Section ExecuteClaims.
Context {V : Type}.
Implicit Types (tg : Opt.TaskGraph V) (results : gmap string V).

(** C3. In any run of [Execute], when the guard of a task evaluates to
    false on its input snapshot, the work function of the task is never
    invoked, the task is left with status Skipped, the results map
    returned holds no entry for it, and if the run returns an error it is
    the failure of another task. *)
Theorem guard_false_skips_task tg ctx options iter tg' trace ret id inputs :
  reachable tg → iter ≡ₚ map_to_list (Opt.taskLayers tg) →
  Opt.Execute tg ctx options iter = Some (tg', trace, ret) →
  EvCondition id inputs false ∈ trace →
  (∃ task, Store.vertices (Opt.graph tg) !! id = Some task ∧
    ∃ condition, Condition task = Some condition ∧ condition inputs = false) ∧
  (∀ c inp, EvExecute id c inp ∉ trace) ∧
  (EvStatus id TaskStatusRunning ∉ trace) ∧
  Opt.GetTaskStatus tg' id = (Some TaskStatusSkipped, None) ∧
  (∀ res, ret.1 = Some res → res !! id = None) ∧
  (∀ err, ret.2 = Some err → ∃ id' e, id' ≠ id ∧ err = task_failed id' e).
Proof.
  intros Hr Hp Hex Hcond.
  destruct (Opt_Execute_run _ _ _ _ _ _ _ Hr Hp Hex)
    as (layers & n & Hg & Hmem & Hn & Hev & Hun & Hst & Hbefore & Hret).
  destruct (Hev _ id Hcond eq_refl)
    as (i & layer & task & ctx' & Hi & Hlook & Hin & Hv & Hte & _).
  apply task_events_condition in Hte as (_ & Hinputs & c & Hc & Hfalse).
  pose proof (guard_false_condition _ _ _ _ Hc Hinputs Hfalse) as Hguard.
  assert (∀ (j : nat) layer', layers !! j = Some layer' → id ∈ layer' → j = i) as Huniq.
  { intros j layer' Hj Hin'. apply (Hmem _ _ id) in Hj, Hlook.
    apply Hj in Hin'. apply Hlook in Hin. rewrite Hin in Hin'. simplify_eq. lia. }
  assert (∀ e, e ∈ trace → event_task e = Some id →
    e ∈ task_events id ctx'
    (results_before (Opt.graph tg) ctx layers ∅ i) task) as Honly.
  { intros e He Hid.
    destruct (Hev _ id He Hid) as (j & layer' & task' & ctx'' & _ & Hj & Hin' & Hv' & Hte & _).
    pose proof (Huniq _ _ Hj Hin') as ->. simplify_eq.
    revert Hte. unfold task_events.
    by rewrite !(outcome_guard_false _ _ _ Hguard). }
  split_and!.
  - exists task. split; [done|]. by exists c.
  - intros c0 inp He. apply Honly in He; [|done].
    apply task_events_execute in He as (_ & _ & _ & Ho).
    rewrite (outcome_guard_false _ _ _ Hguard) in Ho.
    by destruct (Execute task ctx' inp).
  - intros He. apply Honly in He; [|done]. revert He. unfold task_events.
    rewrite (outcome_guard_false _ _ _ Hguard), Hc. set_solver.
  - destruct (Hst i layer id task Hi Hlook Hin Hv) as (ctx'' & Hfinal).
    unfold Opt.GetTaskStatus, Store.Vertex. rewrite Hfinal.
    by rewrite (outcome_guard_false _ _ _ Hguard).
  - intros res Hres. destruct ret as [[res'|] [err|]]; simplify_eq/=; try done.
    destruct Hret as (-> & -> & _).
    apply results_before_lookup_None; [done|].
    intros j layer' task' _ Hj Hin' Hv'.
    pose proof (Huniq _ _ Hj Hin') as ->. simplify_eq.
    by rewrite (outcome_guard_false _ _ _ Hguard).
  - intros err Herr. destruct ret as [[res'|] [err'|]]; simplify_eq/=; try done.
    destruct Hret as (j & layer' & pre & id' & post & task' & e & -> & Hj & -> & Hv' & Ho & -> & _).
    exists id', e. split; [|done]. intros ->.
    assert (j = i) as -> by (eapply Huniq; [done|set_solver]). simplify_eq.
    by rewrite (outcome_guard_false _ _ _ Hguard) in Ho.
Qed.

(** C2, as amended. In any run of [Execute] in which the work function
    of some task returns an error, [Execute] returns no results map and
    an error that wraps the identifier of a task of the same layer whose
    work function returned that error in the context of the run (the
    first failure in launch order), no task of a later layer has any
    event (no status Running, no call of its work function) and its
    status is what it was. If one task only returned an error, the error
    wraps its identifier. *)
Theorem fail_fast tg ctx options iter tg' trace ret id c inputs task err :
  reachable tg → iter ≡ₚ map_to_list (Opt.taskLayers tg) →
  Opt.Execute tg ctx options iter = Some (tg', trace, ret) →
  EvExecute id c inputs ∈ trace →
  Store.vertices (Opt.graph tg) !! id = Some task →
  Execute task c inputs = inr err →
  ∃ id1 task1 e1 l,
    ret = (None, Some (task_failed id1 e1)) ∧
    Store.vertices (Opt.graph tg) !! id1 = Some task1 ∧
    (∃ inputs1, EvExecute id1 ctx inputs1 ∈ trace ∧
      Execute task1 ctx inputs1 = inr e1) ∧
    Opt.taskLayers tg !! id1 = Some l ∧ Opt.taskLayers tg !! id = Some l ∧
    (∀ id2 l2, Opt.taskLayers tg !! id2 = Some l2 → l < l2 →
      (∀ e, e ∈ trace → event_task e ≠ Some id2) ∧
      Store.vertices (Opt.graph tg') !! id2 = Store.vertices (Opt.graph tg) !! id2) ∧
    ((∀ id3 c3 inputs3 task3 e3,
          EvExecute id3 c3 inputs3 ∈ trace →
          Store.vertices (Opt.graph tg) !! id3 = Some task3 →
          Execute task3 c3 inputs3 = inr e3 → id3 = id) →
      id1 = id).
Proof.
  intros Hr Hp Hex Hcall Hv Herr.
  destruct (Opt_Execute_run _ _ _ _ _ _ _ Hr Hp Hex)
    as (layers & n & Hg & Hmem & Hn & Hev & Hun & Hst & Hbefore & Hret).
  destruct (Hev _ id Hcall eq_refl)
    as (i & layer & task0 & ctx' & Hi & Hlook & Hin & Hv0 & Hte & Hctx).
  simplify_eq.
  apply task_events_execute in Hte as (_ & -> & -> & Ho). rewrite Herr in Ho.
  assert (n = S i ∧ ∃ err', ret = (None, Some err')) as [-> [err' ->]].
  { destruct Hctx as [->|[-> [err' Herr']]].
    - assert (n = S i) as ->.
      { destruct (decide (S i < n)%nat) as [Hlt|]; [|lia].
        pose proof (Hbefore i layer id task Hlt Hlook Hin Hv) as Hnf.
        by rewrite Ho in Hnf. }
      split; [done|]. destruct ret as [[res|] [err'|]]; try done; [|by eexists].
      destruct Hret as (_ & _ & Hall).
      pose proof (Hall i layer id task Hlook Hin Hv) as Hnf. by rewrite Ho in Hnf.
    - split; [done|]. destruct ret as [[res|] [err''|]]; simplify_eq/=; try done.
      by eexists. }
  destruct Hret
    as (i1 & layer1 & pre & id1 & post & task1 & e1 & Hn1 & Hlook1 & -> & Hv1 & Ho1 & -> & _ & Hfe).
  assert (i1 = i) as -> by lia.
  assert (layer = pre ++ id1 :: post) as -> by congruence.
  exists id1, task1, e1, (Z.of_nat i).
  destruct (task_events_failed id1 _ _ _ _ Ho1) as [Hin1 Hex1].
  split_and!; try done.
  - eexists. split; [by apply Hfe|done].
  - apply (Hmem _ _ id1 Hlook). set_solver.
  - by apply (Hmem _ _ id Hlook).
  - intros id2 l2 Hl2 Hlt.
    assert (∀ (j : nat) layer', (j < S i)%nat → layers !! j = Some layer' → id2 ∉ layer')
      as Hlater.
    { intros j layer' Hj Hlook' Hin'. apply (Hmem _ _ id2) in Hlook'.
      apply Hlook' in Hin'. rewrite Hl2 in Hin'. simplify_eq. lia. }
    split; [|by apply Hun].
    intros e He Hid2.
    destruct (Hev _ id2 He Hid2) as (j & layer' & _ & _ & Hj & Hlook' & Hin' & _).
    by eapply Hlater.
  - intros Honly. eapply Honly; [by apply Hfe|done..].
Qed.
End ExecuteClaims.

Lemma guard_false_skips_task_witness :
  ∃ tg' trace ret,
    run_once skip_graph = Some (tg', trace, ret) ∧
    (∀ c inp, EvExecute "B" c inp ∉ trace) ∧
    Opt.GetTaskStatus tg' "B" = (Some TaskStatusSkipped, None) ∧
    ∀ res, ret.1 = Some res → res !! "B" = None.
Proof.
  destruct (run_once skip_graph) as [[[tg' trace] ret]|] eqn:Hrun;
    [|by vm_compute in Hrun].
  exists tg', trace, ret. split; [done|].
  destruct (guard_false_skips_task skip_graph (mkContext false) []
    (map_to_list (Opt.taskLayers skip_graph)) tg' trace ret "B"
    (<["A" := "a"]> ∅))
    as (_ & Hnocall & _ & Hstatus & Hres & _).
  - apply reachable_register. constructor.
  - reflexivity.
  - exact Hrun.
  - vm_compute in Hrun. injection Hrun as <- <- <-.
    do 5 apply list_elem_of_further. vm_compute. apply list_elem_of_here.
  - done.
Defined.

(** Two independent tasks that both fail: the run returns the error of
    A alone, although the work function of B was called and returned an
    error as well. *)
Lemma fail_fast_counterexample :
  ∃ tg' trace,
    run_once failing_pair = Some (tg', trace, (None, Some "task A failed: boom A")) ∧
    EvExecute "B" (mkContext true) ∅ ∈ trace ∧
    fail "boom B" (mkContext true) (∅ : gmap string string) = inr "boom B" ∧
    ∀ e, task_failed "B" e ≠ "task A failed: boom A".
Proof.
  destruct (run_once failing_pair) as [[[tg' trace] ret]|] eqn:Hrun;
    [|by vm_compute in Hrun].
  exists tg', trace. vm_compute in Hrun. injection Hrun as <- <- <-.
  split; [done|]. split.
  - do 5 apply list_elem_of_further. apply list_elem_of_here.
  - split; [done|]. intros e. vm_compute. discriminate.
Qed.

Lemma fail_fast_witness :
  ∃ tg' trace,
    run_once fail_graph = Some (tg', trace, (None, Some (task_failed "B" "boom"))).
Proof.
  destruct (run_once fail_graph) as [[[tg' trace] ret]|] eqn:Hrun;
    [|by vm_compute in Hrun].
  exists tg', trace.
  destruct (fail_fast fail_graph (mkContext false) []
    (map_to_list (Opt.taskLayers fail_graph)) tg' trace ret "B"
    (mkContext false) (<["A" := "a"]> ∅)
    (diamond_B (succeed "a") (fail "boom")) "boom")
    as (id1 & task1 & e1 & l & Hret & _).
  - apply reachable_register. constructor.
  - reflexivity.
  - exact Hrun.
  - vm_compute in Hrun. injection Hrun as <- <- <-.
    do 6 apply list_elem_of_further. vm_compute. apply list_elem_of_here.
  - vm_compute. reflexivity.
  - reflexivity.
  - subst ret.
    assert (snd <$> run_once fail_graph = Some (None, Some (task_failed "B" "boom")))
      as Hc by (vm_compute; reflexivity).
    rewrite Hrun in Hc. simpl in Hc.
    pose proof (f_equal (λ o : option (Returned string),
      match o with Some (_, Some s) => s | _ => "" end) Hc) as Hs.
    cbv beta iota in Hs. by rewrite Hs.
Defined.

(** ** The input snapshot *)
Section InputSnapshot.
Context {V : Type}.
Implicit Types (tg : Opt.TaskGraph V) (results inputs : gmap string V)
    (deps : list (Task V)).

(** The snapshot holds the entries of [results] under the identifiers of
    the dependencies, and nothing else. *)
Lemma collect_inputs_lookup deps results k :
  collect_inputs deps results !! k =
  if decide (k ∈ ID <$> deps) then results !! k else None.
Proof.
  unfold collect_inputs.
  assert (∀ acc : gmap string V,
    foldl (λ inputs dep,
    match results !! ID dep with
    | Some result => <[ID dep := result]> inputs
    | None => inputs
    end) acc deps !! k =
    match (if decide (k ∈ ID <$> deps) then results !! k else None) with
    | Some v => Some v
    | None => acc !! k
    end) as H.
  { induction deps as [|dep deps IH]; intros acc.
    - cbn [foldl]. by rewrite decide_False by (rewrite fmap_nil; apply not_elem_of_nil).
    - rewrite fmap_cons. cbn [foldl]. rewrite IH.
      destruct (decide (k ∈ ID <$> deps)) as [Hin|Hnin].
      + rewrite (decide_True (P := k ∈ ID dep :: (ID <$> deps))) by set_solver.
        destruct (results !! k) eqn:Hk; [done|].
        destruct (results !! ID dep) eqn:Hd; [|done].
        rewrite lookup_insert_ne; [done|]. congruence.
      + destruct (decide (k = ID dep)) as [->|Hne].
        * rewrite (decide_True (P := ID dep ∈ ID dep :: (ID <$> deps))) by set_solver.
          destruct (results !! ID dep); [by rewrite lookup_insert_eq|done].
        * rewrite (decide_False (P := k ∈ ID dep :: (ID <$> deps))) by set_solver.
          destruct (results !! ID dep); [|done]. by rewrite lookup_insert_ne. }
  rewrite H, lookup_empty. by destruct (if decide _ then _ else _).
Qed.

(** A task that no layer from [i] up to [n] holds keeps its entry of
    the cumulative results. *)
Lemma results_before_stable (g : Store.Graph (Task V)) ctx layers results
    (i n : nat) id :
  (i ≤ n)%nat →
  (∀ (j : nat) layer, (i ≤ j < n)%nat → layers !! j = Some layer → id ∉ layer) →
  results_before g ctx layers results n !! id =
  results_before g ctx layers results i !! id.
Proof.
  revert results i n.
  induction layers as [|layer layers IH]; intros results i n Hle Hnot.
  - by destruct i, n.
  - destruct n as [|n]; [by assert (i = 0%nat) as -> by lia|].
    destruct i as [|i]; simpl.
    + rewrite (IH _ 0%nat n);
        [|lia|intros j layer' Hj Hlook; apply (Hnot (S j)); [lia|done]].
      assert (∀ X, results_before g ctx layers X 0 = X) as ->
        by (intros; by destruct layers).
      rewrite lookup_union_r; [done|].
      rewrite layer_results_lookup, decide_False; [done|].
      apply (Hnot 0%nat); [lia|done].
    + apply IH; [lia|]. intros j layer' Hj Hlook. apply (Hnot (S j)); [lia|done].
Qed.
End InputSnapshot.

Section InputSnapshotClaim.
Context {V : Type}.
Implicit Types (tg : Opt.TaskGraph V) (results inputs : gmap string V).

(** C8. In any run of [Execute], the inputs map that the work function
    or the guard of a task receives holds exactly the entries of the
    cumulative results map (the results of the layers before the task's
    layer) under the identifiers of the declared dependencies of the
    task: a dependency without entry is left out. When the run succeeds
    these are the entries of the results map returned. An error of the
    run is always the error returned by a work function, never one for a
    missing input. *)
Theorem input_snapshot tg ctx options iter tg' trace ret id inputs :
  reachable tg → iter ≡ₚ map_to_list (Opt.taskLayers tg) →
  Opt.Execute tg ctx options iter = Some (tg', trace, ret) →
  (∃ c, EvExecute id c inputs ∈ trace) ∨
  (∃ holds, EvCondition id inputs holds ∈ trace) →
  ∃ task,
    Store.vertices (Opt.graph tg) !! id = Some task ∧
    (∃ layers (i : nat),
        (∀ (j : nat) layer id', layers !! j = Some layer →
          (id' ∈ layer ↔ Opt.taskLayers tg !! id' = Some (Z.of_nat j))) ∧
        Opt.taskLayers tg !! id = Some (Z.of_nat i) ∧
        inputs = collect_inputs (Depends task)
          (results_before (Opt.graph tg) ctx layers ∅ i) ∧
        ∀ k, inputs !! k =
        if decide (k ∈ ID <$> Depends task)
          then results_before (Opt.graph tg) ctx layers ∅ i !! k
          else None) ∧
    (∀ res, ret = (Some res, None) →
      ∀ k, inputs !! k =
      if decide (k ∈ ID <$> Depends task) then res !! k else None) ∧
    (∀ err, ret.2 = Some err →
      ∃ id1 task1 inputs1 e1,
        err = task_failed id1 e1 ∧
        Store.vertices (Opt.graph tg) !! id1 = Some task1 ∧
        EvExecute id1 ctx inputs1 ∈ trace ∧
        Execute task1 ctx inputs1 = inr e1).
Proof.
  intros Hr Hp Hex Hevent. pose proof (reachable_ok _ Hr) as Hok.
  destruct (Opt_Execute_run _ _ _ _ _ _ _ Hr Hp Hex)
    as (layers & n & Hg & Hmem & Hn & Hev & Hun & Hst & Hbefore & Hret).
  assert (∃ (i : nat) layer task,
    (i < n)%nat ∧ layers !! i = Some layer ∧ id ∈ layer ∧
    Store.vertices (Opt.graph tg) !! id = Some task ∧
    inputs = collect_inputs (Depends task)
    (results_before (Opt.graph tg) ctx layers ∅ i))
    as (i & layer & task & Hi & Hlook & Hin & Hv & Hinputs).
  { destruct Hevent as [[c He]|[b He]];
      destruct (Hev _ id He eq_refl) as (i & layer & task & ctx' & ? & ? & ? & ? & Hte & _);
      exists i, layer, task; split_and!; try done.
    - by apply task_events_execute in Hte as (_ & _ & ? & _).
    - by apply task_events_condition in Hte as (_ & ? & _). }
  pose proof (proj1 (Hmem _ _ id Hlook) Hin) as Hlayer.
  exists task. split; [done|]. split_and!.
  - exists layers, i. split_and!; try done.
    intros k. by rewrite Hinputs, collect_inputs_lookup.
  - intros res ->. destruct Hret as (-> & -> & _). intros k.
    rewrite Hinputs, collect_inputs_lookup. case_decide as Hk; [|done].
    symmetry. apply results_before_stable; [lia|].
    intros j layer' Hj Hlook' Hin'.
    apply list_elem_of_fmap in Hk as (d & -> & Hd).
    pose proof (proj1 (Hmem _ _ _ Hlook') Hin') as Hlk.
    destruct (ok_layers _ _ Hok _ _ Hlayer) as (task0 & Hv0 & Hinv).
    assert (task0 = task) as -> by congruence.
    destruct (Depends task) as [|d0 ds] eqn:Hdeps; [by apply elem_of_nil in Hd|].
    destruct Hinv as (m & Hm & _ & Hall).
    destruct (Hall d Hd) as (ld & Hld & Hle). rewrite Hlk in Hld.
    injection Hld as <-. lia.
  - intros err Herr. destruct ret as [[res|] [err'|]]; simplify_eq/=; try done.
    destruct Hret as (i1 & layer1 & pre & id1 & post & task1 & e1 & _ & _ & _ & Hv1 & Ho1 & -> & _ & Hfe).
    destruct (task_events_failed id1 _ _ _ _ Ho1) as [Hin1 Hex1].
    exists id1, task1,
      (collect_inputs (Depends task1) (results_before (Opt.graph tg) ctx layers ∅ i1)), e1.
    split_and!; try done. by apply Hfe.
Qed.
End InputSnapshotClaim.

Lemma input_snapshot_witness :
  ∃ tg' trace ret,
    run_once (diamond (succeed "a") (succeed "b") (succeed "c") (succeed "d"))
      = Some (tg', trace, ret) ∧
    ∀ res, ret = (Some res, None) →
    ∀ k, (<["B" := "b"]> (<["C" := "c"]> ∅) : gmap string string) !! k =
    if decide (k ∈ ["B"; "C"]) then res !! k else None.
Proof.
  set (tg := diamond (succeed "a") (succeed "b") (succeed "c") (succeed "d")).
  destruct (run_once tg) as [[[tg' trace] ret]|] eqn:Hrun; [|by vm_compute in Hrun].
  exists tg', trace, ret. split; [done|].
  destruct (input_snapshot tg (mkContext false) [] (map_to_list (Opt.taskLayers tg))
    tg' trace ret "D" (<["B" := "b"]> (<["C" := "c"]> ∅)))
    as (task & Hv & _ & Hres & _).
  - apply reachable_register. constructor.
  - reflexivity.
  - exact Hrun.
  - left. exists (mkContext false). vm_compute in Hrun. injection Hrun as <- <- <-.
    do 13 apply list_elem_of_further. vm_compute. apply list_elem_of_here.
  - assert (task = diamond_D (succeed "a") (succeed "b") (succeed "c") (succeed "d"))
      as -> by (vm_compute in Hv; by injection Hv as <-).
    exact Hres.
Defined.

(** ** Runs in which every task completes *)
Section AllComplete.
Context {V : Type}.
Implicit Types (tg : Opt.TaskGraph V) (results : gmap string V)
    (layers : list (list string)).

Lemma results_before_0 (g : Store.Graph (Task V)) ctx layers results :
  results_before g ctx layers results 0 = results.
Proof. by destruct layers. Qed.

Lemma results_before_S (g : Store.Graph (Task V)) ctx layers results (i : nat) layer :
  layers !! i = Some layer →
  results_before g ctx layers results (S i) =
  layer_results g ctx (results_before g ctx layers results i) layer
    ∪ results_before g ctx layers results i.
Proof.
  revert results i. induction layers as [|l0 layers IH]; intros results i Hi.
  - by rewrite lookup_nil in Hi.
  - destruct i as [|i].
    + simplify_eq/=. by rewrite results_before_0.
    + simpl in Hi. change (results_before g ctx (l0 :: layers) results (S (S i)))
        with (results_before g ctx layers (layer_results g ctx results l0 ∪ results) (S i)).
      by rewrite (IH _ _ Hi).
Qed.

(** The result of a task that completes stays in the cumulative
    results. *)
Lemma results_before_completed (g : Store.Graph (Task V)) ctx layers results
    (i n : nat) layer id task v :
  layers !! i = Some layer → id ∈ layer → (i < n)%nat →
  (∀ (j : nat) layer', (i < j < n)%nat → layers !! j = Some layer' → id ∉ layer') →
  Store.vertices g !! id = Some task →
  completed (outcome ctx (results_before g ctx layers results i) task) = Some v →
  results_before g ctx layers results n !! id = Some v.
Proof.
  intros Hi Hin Hlt Hlater Hv Hc.
  rewrite (results_before_stable _ _ _ _ (S i) n) by
    (try lia; intros j layer' Hj; apply Hlater; lia).
  rewrite (results_before_S _ _ _ _ _ _ Hi). apply lookup_union_Some_l.
  rewrite layer_results_lookup, decide_True, Hv by done. done.
Qed.

(** When no task can fail or be skipped, a run returns a result for
    every task that has a layer, and for no other. *)
Lemma Opt_Execute_all_complete tg ctx options iter :
  reachable tg → iter ≡ₚ map_to_list (Opt.taskLayers tg) →
  Opt.WorkerCount
    (foldl (λ o (option : Opt.ExecuteOption), option o) (Opt.opts tg) options) ≠ 0 →
  (∀ id task results, Store.vertices (Opt.graph tg) !! id = Some task →
    ∃ v, outcome ctx results task = Completed v) →
  ∃ tg' trace res,
    Opt.Execute tg ctx options iter = Some (tg', trace, (Some res, None)) ∧
    dom res = dom (Opt.taskLayers tg).
Proof.
  intros Hr Hp Hlimit Hall. pose proof (reachable_ok _ Hr) as Hok.
  destruct (Opt_Execute_is_Some tg ctx options iter Hr Hp Hlimit)
    as [[[tg' trace] ret] Hex].
  destruct (Opt_Execute_run _ _ _ _ _ _ _ Hr Hp Hex)
    as (layers & n & Hg & Hmem & Hn & Hev & Hun & Hst & Hbefore & Hret).
  destruct (group_layers_registry _ _ Hp (ok_nonneg _ _ Hok))
    as (layers' & Hg' & _ & Htotal & _).
  assert (layers' = layers) as -> by congruence.
  destruct ret as [[res|] [err|]]; try done.
  2:{ destruct Hret as (i & layer & pre & id & post & task & e & _ & _ & _ & Hv & Ho & _).
      destruct (Hall _ _ (results_before (Opt.graph tg) ctx layers ∅ i) Hv) as [v Hc].
      congruence. }
  destruct Hret as (-> & -> & _).
  exists tg', trace, (results_before (Opt.graph tg) ctx layers ∅ (length layers)).
  split; [done|]. apply set_eq. intros id. rewrite !elem_of_dom. split.
  - intros Hsome. destruct (Opt.taskLayers tg !! id) as [l|] eqn:Hl; [by eexists|].
    destruct Hsome as [v Hres]. rewrite results_before_lookup_None in Hres; [done|done|].
    intros i layer task _ Hi Hin _. apply (Hmem _ _ id Hi) in Hin. congruence.
  - intros [l Hl]. destruct (Htotal _ _ Hl) as (layer & Hi & Hin).
    destruct (ok_registered _ _ Hok id) as [task Hv]; [by eexists|].
    destruct (Hall _ _ (results_before (Opt.graph tg) ctx layers ∅ (Z.to_nat l)) Hv)
      as [v Hc].
    exists v. eapply results_before_completed; try done.
    + by eapply lookup_lt_Some.
    + intros j layer' Hj Hlook Hin'. apply (Hmem _ _ id Hlook) in Hin'.
      pose proof (ok_nonneg _ _ Hok _ _ Hl). rewrite Hl in Hin'.
      injection Hin' as ->. lia.
    + by rewrite Hc.
Qed.
End AllComplete.

(** * Further properties of the code *)

Section RunSafety.
Context {V : Type}.
Implicit Types (tg : Opt.TaskGraph V) (results : gmap string V).

(** X2. [Execute] changes nothing but the statuses of the tasks and the
    stored options: the edges, the set of vertices, the identifier, work
    function, dependencies and guard of every task and the layer map are
    what they were, and the options stored afterwards are the old ones
    with the options of the call applied in order. *)
Theorem Execute_changes_statuses_only tg ctx options iter tg' trace ret :
  Opt.Execute tg ctx options iter = Some (tg', trace, ret) →
  Store.edges (Opt.graph tg') = Store.edges (Opt.graph tg) ∧
  (∀ id, option_Forall2 same_task (Store.vertices (Opt.graph tg) !! id)
      (Store.vertices (Opt.graph tg') !! id)) ∧
  Opt.taskLayers tg' = Opt.taskLayers tg ∧
  Opt.opts tg' =
  foldl (λ o (option : Opt.ExecuteOption), option o) (Opt.opts tg) options.
Proof.
  intros Hex. apply Opt_Execute_graph in Hex as ([He Hv] & Hl & Ho).
  by split_and!.
Qed.

(** X3. A run touches only the tasks that have a layer: a task that the
    store holds without a layer (its registration failed after the
    vertex was inserted) has no event in the run, and its status is what
    it was. *)
Theorem Execute_skips_tasks_without_layer tg ctx options iter tg' trace ret id :
  reachable tg → iter ≡ₚ map_to_list (Opt.taskLayers tg) →
  Opt.Execute tg ctx options iter = Some (tg', trace, ret) →
  Opt.taskLayers tg !! id = None →
  (∀ e, e ∈ trace → event_task e ≠ Some id) ∧
  Opt.GetTaskStatus tg' id = Opt.GetTaskStatus tg id ∧
  (∀ res, ret.1 = Some res → res !! id = None).
Proof.
  intros Hr Hp Hex Hnone.
  destruct (Opt_Execute_run _ _ _ _ _ _ _ Hr Hp Hex)
    as (layers & n & Hg & Hmem & Hn & Hev & Hun & Hst & Hbefore & Hret).
  assert (∀ (i : nat) layer, layers !! i = Some layer → id ∉ layer) as Hnot.
  { intros i layer Hi Hin. apply (Hmem _ _ id Hi) in Hin. congruence. }
  split_and!.
  - intros e He Hid.
    destruct (Hev _ _ He Hid) as (i & layer & _ & _ & _ & Hi & Hin & _).
    by eapply Hnot.
  - unfold Opt.GetTaskStatus, Store.Vertex. rewrite Hun; [done|].
    intros i layer _. apply Hnot.
  - intros res Hres. destruct ret as [[res'|] [err|]]; simplify_eq/=; try done.
    destruct Hret as (-> & -> & _).
    apply results_before_lookup_None; [done|].
    intros i layer task _ Hi Hin. by destruct (Hnot _ _ Hi).
Qed.
End RunSafety.

Lemma Execute_changes_statuses_only_witness :
  ∃ tg' trace ret,
    run_once abcd = Some (tg', trace, ret) ∧
    Opt.taskLayers tg' = Opt.taskLayers abcd.
Proof.
  destruct (run_once abcd) as [[[tg' trace] ret]|] eqn:Hrun; [|by vm_compute in Hrun].
  exists tg', trace, ret. split; [done|].
  by destruct (Execute_changes_statuses_only abcd (mkContext false) []
    (map_to_list (Opt.taskLayers abcd)) tg' trace ret Hrun)
    as (_ & _ & ? & _).
Defined.

Lemma Execute_skips_tasks_without_layer_witness :
  ∃ tg' trace ret,
    run_once half_registered = Some (tg', trace, ret) ∧
    Opt.GetTaskStatus tg' "A" = Opt.GetTaskStatus half_registered "A".
Proof.
  destruct (run_once half_registered) as [[[tg' trace] ret]|] eqn:Hrun;
    [|by vm_compute in Hrun].
  exists tg', trace, ret. split; [done|].
  refine (proj1 (proj2 (Execute_skips_tasks_without_layer half_registered
    (mkContext false) [] (map_to_list (Opt.taskLayers half_registered))
    tg' trace ret "A" _ _ Hrun _))).
  - apply reachable_register. constructor.
  - reflexivity.
  - reflexivity.
Defined.


(** ** Registration *)
Section RegistrationMore.
Context {V : Type}.
Implicit Types (g : Store.Graph (Task V)) (taskLayers : gmap string Z).
Implicit Types (t task : Task V) (tg : Opt.TaskGraph V).

Lemma add_task_vertex g taskLayers t :
  is_Some (Store.vertices (add_task g taskLayers t).1.1 !! ID t).
Proof.
  unfold add_task.
  destruct (Store.AddVertex ID g t) as [g1 [e|]] eqn:Hv.
  - apply AddVertex_err in Hv as (-> & _ & ?). done.
  - apply AddVertex_ok in Hv as [Hnone ->].
    assert (∀ g2 (l2 : gmap string Z),
      Store.vertices g2 !! ID t = Some t →
      is_Some (Store.vertices
      (match Store.TopologicalSort g2 with
      | inr err => (g2, l2, Some (InvalidTaskGraph err))
      | inl _ => (g2, l2, None)
      end).1.1 !! ID t)) as Hcheck.
    { intros g2 l2 H2. by destruct (Store.TopologicalSort g2). }
    destruct (Depends t) as [|d ds] eqn:Hdeps.
    + apply Hcheck. cbn. by rewrite lookup_insert_eq.
    + destruct (add_dependencies _ taskLayers (ID t) (d :: ds) (-1))
        as [g2 [m|e]] eqn:Hadd;
        apply add_dependencies_store in Hadd as [Hvs _]; cbn in Hvs.
      * apply Hcheck. by rewrite Hvs, lookup_insert_eq.
      * cbn. by rewrite Hvs, lookup_insert_eq.
Qed.

(** What a call does to the layer map: nothing, or one entry for the new
    task, 0 or one more than the layer of one of its dependencies. *)
Lemma add_task_layers g taskLayers t g' taskLayers' err :
  add_task g taskLayers t = (g', taskLayers', err) →
  taskLayers' = taskLayers ∨
  Store.vertices g !! ID t = None ∧
  ∃ l, taskLayers' = <[ID t := l]> taskLayers ∧
  (l = 0 ∨ ∃ d, d ∈ Depends t ∧ taskLayers !! ID d = Some (l - 1)).
Proof.
  unfold add_task.
  destruct (Store.AddVertex ID g t) as [g1 [e|]] eqn:Hv.
  { intros [= <- <- <-]. by left. }
  apply AddVertex_ok in Hv as [Hnone ->].
  destruct (Depends t) as [|d ds] eqn:Hdeps.
  - intros Hc. right. split; [done|]. exists 0.
    split; [|by left].
    by destruct (Store.TopologicalSort _); injection Hc as <- <- <-.
  - destruct (add_dependencies _ taskLayers (ID t) (d :: ds) (-1))
      as [g2 [m|e]] eqn:Hadd.
    + intros Hc. right. split; [done|]. exists (m + 1). split.
      { by destruct (Store.TopologicalSort _); injection Hc as <- <- <-. }
      apply add_dependencies_inl in Hadd as (_ & [->|(dep & Hin & Hl)] & Hall).
      * left. lia.
      * right. exists dep. split; [done|].
        by replace (m + 1 - 1) with m by lia.
    + intros [= <- <- <-]. by left.
Qed.

(** The loop over the dependencies succeeds only if the dependencies
    have distinct identifiers and none of the edges is there already. *)
Lemma add_dependencies_distinct g taskLayers taskID deps maxDepLayer g' m :
  add_dependencies g taskLayers taskID deps maxDepLayer = (g', inl m) →
  NoDup (ID <$> deps) ∧ ∀ d, d ∈ deps → (ID d, taskID) ∉ Store.edges g.
Proof.
  revert g maxDepLayer. induction deps as [|dep rest IH]; intros g maxDepLayer Hadd.
  { split; [constructor|]. intros d Hd. by apply elem_of_nil in Hd. }
  cbn [add_dependencies] in Hadd.
  destruct (Store.AddEdge g (ID dep) taskID) as [g1 [e|]] eqn:Hedge; [done|].
  apply AddEdge_ok in Hedge as (_ & _ & Hnew & ->).
  destruct (taskLayers !! ID dep) as [layer|]; [|done].
  apply IH in Hadd as [Hnd Hfresh]. cbn in Hfresh.
  split.
  - rewrite fmap_cons. constructor; [|done].
    intros (d & Hid & Hd)%list_elem_of_fmap.
    apply (Hfresh d Hd). apply elem_of_app. right.
    rewrite <- Hid. apply list_elem_of_singleton. done.
  - intros d [->|Hd]%elem_of_cons; [done|].
    intros Hin. apply (Hfresh d Hd). apply elem_of_app. by left.
Qed.

Lemma add_dependencies_succeeds g taskLayers taskID deps maxDepLayer :
  is_Some (Store.vertices g !! taskID) →
  (∀ d, d ∈ deps →
    is_Some (Store.vertices g !! ID d) ∧ is_Some (taskLayers !! ID d) ∧
    (ID d, taskID) ∉ Store.edges g) →
  NoDup (ID <$> deps) →
  ∃ g' m, add_dependencies g taskLayers taskID deps maxDepLayer = (g', inl m).
Proof.
  revert g maxDepLayer.
  induction deps as [|dep rest IH]; intros g maxDepLayer Ht Hdeps Hnd.
  { by eexists _, _. }
  rewrite fmap_cons in Hnd. apply NoDup_cons in Hnd as [Hhead Hnd].
  destruct (Hdeps dep) as ([vd Hvd] & [ld Hld] & Hfresh); [by left|].
  destruct Ht as [vt Hvt].
  cbn [add_dependencies]. unfold Store.AddEdge. rewrite Hvd, Hvt.
  rewrite bool_decide_eq_false_2 by done. rewrite Hld.
  apply IH; cbn; [by eexists| |done].
  intros d Hd. destruct (Hdeps d) as (? & ? & Hf); [by right|].
  split_and!; [done..|].
  intros [Hin|Hin%list_elem_of_singleton]%elem_of_app; [done|].
  apply Hhead. apply list_elem_of_fmap. exists d. split; [congruence|done].
Qed.

(** A linear order of a graph restricts to a linear order of any closed
    graph it extends. *)
Lemma is_topological_order_restrict g g' order :
  Store.edges_closed g →
  (∀ h, is_Some (Store.vertices g !! h) → is_Some (Store.vertices g' !! h)) →
  (∀ e, e ∈ Store.edges g → e ∈ Store.edges g') →
  Store.is_topological_order g' order →
  Store.is_topological_order g
    (filter (λ h, is_Some (Store.vertices g !! h)) order).
Proof.
  intros Hclosed Hvs Hes (Hnd & Hmem & Hedges). split_and!.
  - by apply NoDup_filter.
  - intros h. rewrite list_elem_of_filter, Hmem. naive_solver.
  - intros u v Huv. destruct (Hclosed u v Huv) as [Hu Hv].
    apply StoreFacts.before_filter; [|done..]. apply Hedges, Hes, Huv.
Qed.

Lemma add_task_acyclic_before g taskLayers t g' taskLayers' err order' :
  registry_ok g taskLayers →
  add_task g taskLayers t = (g', taskLayers', err) →
  Store.is_topological_order g' order' →
  ∃ order, Store.is_topological_order g order.
Proof.
  intros Hok Hadd Horder.
  destruct (add_task_keeps _ _ _ _ _ _ Hok Hadd) as (Hvs & Hes & _).
  eexists. eapply is_topological_order_restrict; [apply Hok| |done..].
  intros h [x Hx]. exists x. by apply Hvs.
Qed.

(** X5. [AddTask] only ever adds: on a graph a caller can hold, whether
    the call fails or not, every task the store held is still there
    with the same fields, every edge is still there, every layer is
    what it was, and the stored options are untouched. *)
Theorem AddTask_only_adds tg t :
  reachable tg →
  (∀ id task, Store.vertices (Opt.graph tg) !! id = Some task →
    Store.vertices (Opt.graph (Opt.AddTask tg t).1) !! id = Some task) ∧
  (∀ e, e ∈ Store.edges (Opt.graph tg) →
    e ∈ Store.edges (Opt.graph (Opt.AddTask tg t).1)) ∧
  (∀ id l, Opt.taskLayers tg !! id = Some l →
    Opt.taskLayers (Opt.AddTask tg t).1 !! id = Some l) ∧
  Opt.opts (Opt.AddTask tg t).1 = Opt.opts tg.
Proof.
  intros Hr%reachable_ok. rewrite Opt_AddTask_add_task. cbn.
  destruct (add_task (Opt.graph tg) (Opt.taskLayers tg) t) as [[g' l'] err] eqn:Hadd.
  destruct (add_task_keeps _ _ _ _ _ _ Hr Hadd) as (? & ? & ?). done.
Qed.

(** X6. When [AddTask] succeeds. On a graph a caller can hold, the call
    returns no error exactly when the identifier is new, every declared
    dependency has a layer (it was registered without error), the
    declared dependencies have distinct identifiers, and the graph had
    no cycle before the call. *)
Theorem AddTask_succeeds_iff tg t :
  reachable tg →
  (Opt.AddTask tg t).2 = None ↔
  Store.vertices (Opt.graph tg) !! ID t = None ∧
  (∀ d, d ∈ Depends t → is_Some (Opt.taskLayers tg !! ID d)) ∧
  NoDup (ID <$> Depends t) ∧
  (∃ order, Opt.GetExecutionOrder tg = inl order).
Proof.
  intros Hr%reachable_ok. rewrite Opt_AddTask_add_task. cbn [snd].
  unfold Opt.GetExecutionOrder.
  destruct (add_task (Opt.graph tg) (Opt.taskLayers tg) t) as [[g' l'] err] eqn:Hadd.
  cbn [snd]. split.
  - intros ->.
    pose proof (add_task_success _ _ _ _ _ Hadd) as (Hnone & Hvs & _ & order' & Hsort).
    assert (registry_ok g' l') as Hok'.
    { pose proof (add_task_ok _ _ t Hr) as H. by rewrite Hadd in H. }
    apply StoreFacts.TopologicalSort_inl in Hsort; [|apply Hok'].
    split_and!; [done| | |].
    + unfold add_task in Hadd.
      destruct (Store.AddVertex ID (Opt.graph tg) t) as [g1 [e|]]; [done|].
      destruct (Depends t) as [|d ds]; [by intros ? ?%elem_of_nil|].
      destruct (add_dependencies g1 _ _ _ _) as [g2 [m|e]] eqn:Hdeps; [|done].
      apply add_dependencies_inl in Hdeps as (_ & _ & Hall).
      intros d' Hd'. destruct (Hall d' Hd') as [(ld & -> & _) _]. done.
    + unfold add_task in Hadd.
      destruct (Store.AddVertex ID (Opt.graph tg) t) as [g1 [e|]]; [done|].
      destruct (Depends t) as [|d ds]; [constructor|].
      destruct (add_dependencies g1 _ _ _ _) as [g2 [m|e]] eqn:Hdeps; [|done].
      by apply add_dependencies_distinct in Hdeps as [? _].
    + destruct (add_task_acyclic_before _ _ _ _ _ _ _ Hr Hadd Hsort) as [order Ho].
      by apply StoreFacts.TopologicalSort_acyclic in Ho.
  - intros (Hnone & Hdeps & Hnd & order & Hsort).
    apply StoreFacts.TopologicalSort_inl in Hsort; [|apply Hr].
    assert (∀ g2 (l2 : gmap string Z) added,
      Store.vertices g2 = <[ID t := t]> (Store.vertices (Opt.graph tg)) →
      Store.edges g2 = Store.edges (Opt.graph tg) ++ added →
      (∀ e, e ∈ added →
      e.2 = ID t ∧ is_Some (Store.vertices (Opt.graph tg) !! e.1)) →
      (match Store.TopologicalSort g2 with
      | inr err => (g2, l2, Some (InvalidTaskGraph err))
      | inl _ => (g2, l2, None)
      end) = (g', l', err) → err = None) as Hcheck.
    { intros g2 l2 added Hv2 He2 Hadded Hc.
      pose proof (is_topological_order_extend _ g2 _ _ _ _ Hsort Hnone Hv2 He2 Hadded) as Ho.
      apply StoreFacts.TopologicalSort_acyclic in Ho as [o2 Ho2].
      rewrite Ho2 in Hc. congruence. }
    unfold add_task in Hadd. unfold Store.AddVertex in Hadd. rewrite Hnone in Hadd.
    destruct (Depends t) as [|d ds] eqn:HD.
    + refine (Hcheck _ _ [] _ _ _ Hadd); [done|by rewrite app_nil_r|].
      by intros ? ?%elem_of_nil.
    + set (g1 := Store.mkGraph _ _) in Hadd.
      assert (∀ d', d' ∈ d :: ds → ID d' ≠ ID t) as Hne.
      { intros d' Hd' Heq. destruct (Hdeps d' Hd') as [l Hl].
        destruct (ok_registered _ _ Hr (ID d')) as [x Hx]; [by eexists|].
        congruence. }
      destruct (add_dependencies_succeeds g1 (Opt.taskLayers tg) (ID t) (d :: ds) (-1))
        as (g2 & m & Hg2); [| |done|].
      { subst g1. cbn. by rewrite lookup_insert_eq. }
      { intros d' Hd'. subst g1. cbn. split_and!.
        - rewrite lookup_insert_ne by (symmetry; by apply Hne).
          apply (ok_registered _ _ Hr), Hdeps, Hd'.
        - by apply Hdeps.
        - intros Hin. destruct (ok_edges _ _ Hr _ _ Hin) as [_ [x Hx]]. congruence. }
      rewrite Hg2 in Hadd.
      pose proof (add_dependencies_store _ _ _ _ _ _ _ Hg2) as (Hv2 & added & He2 & Hadded).
      refine (Hcheck _ _ added _ _ _ Hadd); [done|done|].
      intros e He. destruct (Hadded e He) as (dep & Hdep & -> & _ & _).
      split; [done|]. cbn. apply (ok_registered _ _ Hr), Hdeps, Hdep.
Qed.
End RegistrationMore.

Lemma AddTask_only_adds_witness :
  Opt.taskLayers
    (Opt.AddTask abcd (new_task "E" (succeed "e") [diamond_D (succeed "a")
          (succeed "b") (succeed "c") (succeed "d")])).1 !! "A" = Some 0.
Proof.
  apply (AddTask_only_adds abcd).
  - apply reachable_register. constructor.
  - reflexivity.
Defined.

Lemma AddTask_succeeds_iff_witness :
  (Opt.AddTask abcd (new_task "E" (succeed "e") [])).2 = None.
Proof.
  apply (AddTask_succeeds_iff abcd).
  - apply reachable_register. constructor.
  - split_and!.
    + reflexivity.
    + by intros d ?%elem_of_nil.
    + constructor.
    + eexists. vm_compute. reflexivity.
Defined.


(** ** The layer map *)
Section Layering.
Context {V : Type}.
Implicit Types (g : Store.Graph (Task V)) (taskLayers : gmap string Z).
Implicit Types (tg : Opt.TaskGraph V).

(** Below an inhabited layer every layer is inhabited. *)
Lemma layers_dense g taskLayers id l l' :
  registry_ok g taskLayers →
  taskLayers !! id = Some l → 0 ≤ l' ≤ l →
  ∃ id', taskLayers !! id' = Some l'.
Proof.
  intros Hok. remember (Z.to_nat l) as n eqn:Hn.
  revert id l Hn. induction (lt_wf n) as [n _ IH]. intros id l Hn Hl Hle.
  destruct (decide (l' = l)) as [->|Hne]; [by exists id|].
  destruct (ok_layers _ _ Hok id l Hl) as (task & _ & Hinv).
  destruct (Depends task) as [|d ds]; [lia|].
  destruct Hinv as (m & -> & (d' & _ & Hd') & _).
  apply (IH (Z.to_nat m)) with (id := ID d') (l := m); [lia|done|done|lia].
Qed.

(** A layer is smaller than the number of tasks that have one. *)
Lemma reachable_layer_bound tg id l :
  reachable tg → Opt.taskLayers tg !! id = Some l →
  l < Z.of_nat (size (Opt.taskLayers tg)).
Proof.
  intros Hr. revert id l.
  induction Hr as [|tg task Hr IH|tg ctx options iter tg' trace ret Hr IH Hp Hex];
    intros id l Hl.
  - cbn in Hl. by rewrite lookup_empty in Hl.
  - rewrite Opt_AddTask_add_task in Hl |- *. cbn in Hl |- *.
    destruct (add_task (Opt.graph tg) (Opt.taskLayers tg) task)
      as [[g' l'] err] eqn:Hadd. cbn in Hl |- *.
    apply add_task_layers in Hadd as [->|(Hnone & lay & -> & Hlay)]; [by apply (IH id)|].
    assert (Opt.taskLayers tg !! ID task = None) as Hfresh.
    { apply eq_None_not_Some. intros Hs.
      apply (ok_registered _ _ (reachable_ok _ Hr)) in Hs as [x Hx]. congruence. }
    rewrite map_size_insert_None by done.
    destruct (decide (id = ID task)) as [->|Hne].
    + rewrite lookup_insert_eq in Hl. injection Hl as <-.
      destruct Hlay as [->|(d & _ & Hd)]; [lia|].
      apply (IH (ID d)) in Hd. lia.
    + rewrite lookup_insert_ne in Hl by done. apply (IH id) in Hl. lia.
  - apply Opt_Execute_graph in Hex as (_ & Heq & _).
    rewrite Heq in Hl |- *. by apply (IH id).
Qed.

(** X7. The layers in use are the numbers from 0 to the largest one,
    and there are at most as many as tasks: on a graph a caller can
    hold, the layer of a task is at least 0 and less than the number of
    tasks that have a layer (so it fits in a Go [int]), and every layer
    below it has a task. *)
Theorem layers_are_dense_and_bounded tg id l :
  reachable tg → Opt.taskLayers tg !! id = Some l →
  0 ≤ l < Z.of_nat (size (Opt.taskLayers tg)) ∧
  ∀ l', 0 ≤ l' ≤ l → ∃ id', Opt.taskLayers tg !! id' = Some l'.
Proof.
  intros Hr Hl. pose proof (reachable_ok _ Hr) as Hok. split_and!.
  - by apply (ok_nonneg _ _ Hok id).
  - by apply (reachable_layer_bound tg id).
  - intros l' Hl'. by apply (layers_dense _ _ id l l' Hok).
Qed.

(** X8. The layers that [Execute] builds. On a graph a caller can hold,
    under any iteration order of the layer map, the grouping does not
    index out of range; slice [i] lists, each once, exactly the tasks
    whose layer is [i]; for an empty layer map there is the one empty
    slice, and otherwise no slice is empty ([executeLayer] is never
    called on an empty layer) and there are at most as many slices as
    tasks. *)
Theorem Execute_layers tg iter :
  reachable tg → iter ≡ₚ map_to_list (Opt.taskLayers tg) →
  ∃ layers,
    group_layers iter (replicate (Z.to_nat (max_layer iter + 1)) []) = Some layers ∧
    (∀ (i : nat) layer, layers !! i = Some layer →
      NoDup layer ∧
      ∀ id, id ∈ layer ↔ Opt.taskLayers tg !! id = Some (Z.of_nat i)) ∧
    (Opt.taskLayers tg = ∅ → layers = [[]]) ∧
    (Opt.taskLayers tg ≠ ∅ →
      Forall (λ layer, layer ≠ []) layers ∧
      (length layers ≤ size (Opt.taskLayers tg))%nat).
Proof.
  intros Hr Hp. pose proof (reachable_ok _ Hr) as Hok.
  destruct (group_layers_registry (Opt.taskLayers tg) iter Hp (ok_nonneg _ _ Hok))
    as (layers & Hg & Hmem & Hall & Hnd & Hlen).
  exists layers. split_and!; [done| | |].
  - intros i layer Hi. split; [by eapply Hnd|]. intros id. by apply Hmem.
  - intros Hempty. rewrite Hempty, map_to_list_empty in Hp.
    apply Permutation_nil_r in Hp. subst iter.
    change (Some [[]] = Some layers) in Hg. congruence.
  - intros Hne.
    destruct (map_choose _ Hne) as (id0 & l0 & Hl0).
    pose proof (reachable_layer_bound _ _ _ Hr Hl0) as Hb0.
    pose proof (ok_nonneg _ _ Hok _ _ Hl0) as Hn0.
    assert (∃ idm, Opt.taskLayers tg !! idm = Some (max_layer iter)) as [idm Hm].
    { destruct (max_layer_spec iter) as (_ & _ & [H0|([k l] & Hin & Heq)]).
      - rewrite H0. apply (layers_dense _ _ id0 l0 0 Hok Hl0). lia.
      - exists k. cbn in Heq. rewrite <- Heq.
        apply elem_of_map_to_list. by rewrite <- Hp. }
    split.
    + apply Forall_lookup. intros i layer Hi ->.
      pose proof (lookup_lt_Some _ _ _ Hi) as Hlt. rewrite Hlen in Hlt.
      destruct (layers_dense _ _ idm _ (Z.of_nat i) Hok Hm) as [id' Hid'];
        [pose proof (ok_nonneg _ _ Hok _ _ Hm); lia|].
      apply (Hmem _ _ _ Hi) in Hid'. by apply elem_of_nil in Hid'.
    + rewrite Hlen. apply (reachable_layer_bound _ _ _ Hr) in Hm.
      pose proof (proj1 (max_layer_spec iter)). lia.
Qed.
End Layering.

Lemma layers_are_dense_and_bounded_witness :
  0 ≤ 2 < Z.of_nat (size (Opt.taskLayers abcd)) ∧
  ∀ l', 0 ≤ l' ≤ 2 → ∃ id', Opt.taskLayers abcd !! id' = Some l'.
Proof.
  apply (layers_are_dense_and_bounded abcd "D").
  - apply reachable_register. constructor.
  - reflexivity.
Defined.

Lemma Execute_layers_witness :
  ∃ layers,
    group_layers (map_to_list (Opt.taskLayers abcd))
      (replicate (Z.to_nat (max_layer (map_to_list (Opt.taskLayers abcd)) + 1)) [])
      = Some layers ∧
    (length layers ≤ size (Opt.taskLayers abcd))%nat.
Proof.
  destruct (Execute_layers abcd (map_to_list (Opt.taskLayers abcd)))
    as (layers & Hg & _ & _ & Hne).
  - apply reachable_register. constructor.
  - reflexivity.
  - exists layers. split; [done|]. apply Hne. by vm_compute.
Defined.


(** ** The execution order, and graphs with a cycle *)
Section Order.
Context {V : Type}.
Implicit Types (g : Store.Graph (Task V)) (taskLayers : gmap string Z).
Implicit Types (t task : Task V) (tg : Opt.TaskGraph V).

(** When a call gives the task a layer, the store holds the task and an
    edge from each of its dependencies. *)
Lemma add_task_layered g taskLayers t g' taskLayers' err :
  add_task g taskLayers t = (g', taskLayers', err) →
  taskLayers' = taskLayers ∨
  Store.vertices g !! ID t = None ∧
  (∃ l, taskLayers' = <[ID t := l]> taskLayers) ∧
  Store.vertices g' = <[ID t := t]> (Store.vertices g) ∧
  Store.edges g' = Store.edges g ++ ((λ d, (ID d, ID t)) <$> Depends t).
Proof.
  unfold add_task.
  destruct (Store.AddVertex ID g t) as [g1 [e|]] eqn:Hv.
  { intros [= <- <- <-]. by left. }
  apply AddVertex_ok in Hv as [Hnone ->].
  destruct (Depends t) as [|d ds] eqn:Hdeps.
  - intros Hc. right.
    destruct (Store.TopologicalSort _); injection Hc as <- <- <-;
      (split_and!; [done|by eexists|done|by rewrite app_nil_r]).
  - destruct (add_dependencies _ taskLayers (ID t) (d :: ds) (-1))
      as [g2 [m|e]] eqn:Hadd; [|intros [= <- <- <-]; by left].
    pose proof (add_dependencies_store _ _ _ _ _ _ _ Hadd) as [Hvs _].
    apply add_dependencies_edges in Hadd. cbn in Hvs, Hadd.
    intros Hc. right.
    destruct (Store.TopologicalSort _); injection Hc as <- <- <-;
      (split_and!; [done|by eexists|done|done]).
Qed.

Lemma reachable_dep_edges tg id l task d :
  reachable tg →
  Opt.taskLayers tg !! id = Some l →
  Store.vertices (Opt.graph tg) !! id = Some task →
  d ∈ Depends task →
  (ID d, id) ∈ Store.edges (Opt.graph tg).
Proof.
  intros Hr. revert id l task d.
  induction Hr as [|tg t Hr IH|tg ctx options iter tg' trace ret Hr IH Hp Hex];
    intros id l task d Hl Hv Hd.
  - cbn in Hl. by rewrite lookup_empty in Hl.
  - pose proof (reachable_ok _ Hr) as Hok.
    rewrite Opt_AddTask_add_task in Hl, Hv |- *. cbn in Hl, Hv |- *.
    destruct (add_task (Opt.graph tg) (Opt.taskLayers tg) t)
      as [[g' l'] err] eqn:Hadd. cbn in Hl, Hv |- *.
    pose proof (add_task_keeps _ _ _ _ _ _ Hok Hadd) as (Hkv & Hke & _).
    assert (∀ l0, Opt.taskLayers tg !! id = Some l0 →
      (ID d, id) ∈ Store.edges g') as Hold.
    { intros l0 Hl0.
      destruct (ok_registered _ _ Hok id) as [task0 Ht0]; [by eexists|].
      pose proof (Hkv _ _ Ht0) as Ht0'.
      assert (task0 = task) as -> by congruence.
      apply Hke. by apply (IH id l0 task d). }
    apply add_task_layered in Hadd as [->|(Hnone & [lay ->] & Hvs & Hes)];
      [by apply (Hold l)|].
    destruct (decide (id = ID t)) as [->|Hne].
    + rewrite Hvs, lookup_insert_eq in Hv. injection Hv as <-.
      rewrite Hes. apply elem_of_app. right.
      apply list_elem_of_fmap. by exists d.
    + rewrite lookup_insert_ne in Hl by done. by apply (Hold l).
  - apply Opt_Execute_graph in Hex as ([He Hvs] & Heq & _).
    rewrite Heq in Hl. rewrite <- He.
    specialize (Hvs id). rewrite Hv in Hvs.
    inversion Hvs as [task0 ? Hsame Ht0|]; subst.
    destruct Hsame as (_ & _ & Hdeps & _).
    apply (IH id l task0 d); [done|done|]. by rewrite Hdeps.
Qed.

Lemma is_topological_order_status_only g g' order :
  status_only g g' →
  Store.is_topological_order g order ↔ Store.is_topological_order g' order.
Proof.
  intros [He Hvs].
  assert (∀ h, is_Some (Store.vertices g !! h) ↔ is_Some (Store.vertices g' !! h))
    as Hiff.
  { intros h. specialize (Hvs h).
    inversion Hvs; split; intros [? ?]; (done || by eexists). }
  unfold Store.is_topological_order. rewrite He.
  split; intros (? & Hmem & ?); (split_and!; [done| |done]);
    intros h; rewrite Hmem; by rewrite Hiff.
Qed.

(** A store that has no linear order has none after any later call. *)
Lemma later_cyclic tg tg' :
  reachable tg → later tg tg' →
  (∀ order, ¬ Store.is_topological_order (Opt.graph tg) order) →
  reachable tg' ∧ ∀ order, ¬ Store.is_topological_order (Opt.graph tg') order.
Proof.
  intros Hr Hl Hcyc.
  induction Hl as [|tg' t Hl [Hr' IH]|tg' ctx options iter tg'' trace ret Hl [Hr' IH] Hp Hex].
  - done.
  - split; [by constructor|]. intros order Ho.
    rewrite Opt_AddTask_add_task in Ho. cbn in Ho.
    destruct (add_task (Opt.graph tg') (Opt.taskLayers tg') t)
      as [[g' l'] err] eqn:Hadd. cbn in Ho.
    destruct (add_task_acyclic_before _ _ _ _ _ _ _ (reachable_ok _ Hr') Hadd Ho)
      as [order0 Ho0].
    by apply (IH order0).
  - split; [by econstructor|]. intros order Ho.
    apply Opt_Execute_graph in Hex as (Hso & _).
    apply (IH order). by apply (is_topological_order_status_only _ _ _ Hso).
Qed.

(** X9. The order that [GetExecutionOrder] returns agrees with the
    declared dependencies. On a graph a caller can hold, an order that
    the function returns (the order computed here, or any order that the
    contract of the store allows) lists every task of the store exactly
    once, and puts every dependency that a task with a layer declares
    before the task; that dependency has a smaller layer, so [Execute]
    runs it in an earlier [executeLayer] call. *)
Theorem GetExecutionOrder_respects_dependencies tg order :
  reachable tg →
  Opt.GetExecutionOrder tg = inl order ∨
  Store.TopologicalSort_outcome (Opt.graph tg) (inl order) →
  NoDup order ∧
  (∀ id, id ∈ order ↔ is_Some (Store.vertices (Opt.graph tg) !! id)) ∧
  ∀ id l task d,
    Opt.taskLayers tg !! id = Some l →
    Store.vertices (Opt.graph tg) !! id = Some task →
    d ∈ Depends task →
    Store.before order (ID d) id ∧
    ∃ ld, Opt.taskLayers tg !! ID d = Some ld ∧ ld < l.
Proof.
  intros Hr Horder. pose proof (reachable_ok _ Hr) as Hok.
  assert (Store.is_topological_order (Opt.graph tg) order) as (Hnd & Hmem & Hbefore).
  { destruct Horder as [Hsort|Hout].
    - apply StoreFacts.TopologicalSort_inl; [apply Hok|done].
    - by inversion Hout. }
  split_and!; [done..|].
  intros id l task d Hl Hv Hd. split.
  - apply Hbefore. by apply (reachable_dep_edges tg id l task d).
  - destruct (ok_layers _ _ Hok id l Hl) as (task' & Hv' & Hinv).
    assert (task' = task) as -> by congruence.
    destruct (Depends task) as [|d0 ds]; [by apply elem_of_nil in Hd|].
    destruct Hinv as (m & -> & _ & Hall).
    destruct (Hall d Hd) as (ld & Hld & Hle). exists ld. split; [done|lia].
Qed.

(** X10. A cycle is permanent. Once [GetExecutionOrder] fails on a graph
    a caller can hold, it fails after every later sequence of [AddTask]
    and [Execute] calls (nothing removes a vertex or an edge), and from
    then on every [AddTask] returns an error. *)
Theorem cycle_is_permanent tg tg' e :
  reachable tg → Opt.GetExecutionOrder tg = inr e → later tg tg' →
  Opt.GetExecutionOrder tg' = inr Store.ErrCycle ∧
  ∀ task, ∃ err, (Opt.AddTask tg' task).2 = Some err.
Proof.
  intros Hr Hsort Hl.
  apply StoreFacts.TopologicalSort_inr in Hsort as [_ Hcyc].
  destruct (later_cyclic tg tg' Hr Hl Hcyc) as [Hr' Hcyc'].
  assert (∀ tg1, reachable tg1 →
    (∀ order, ¬ Store.is_topological_order (Opt.graph tg1) order) →
    Opt.GetExecutionOrder tg1 = inr Store.ErrCycle) as Hfail.
  { intros tg1 Hr1 Hc1. unfold Opt.GetExecutionOrder.
    destruct (Store.TopologicalSort (Opt.graph tg1)) as [order|e1] eqn:Hs1.
    - apply StoreFacts.TopologicalSort_inl in Hs1; [|apply (reachable_ok _ Hr1)].
      by destruct (Hc1 order).
    - by apply StoreFacts.TopologicalSort_inr in Hs1 as [-> _]. }
  split; [by apply Hfail|].
  intros task.
  destruct (Opt.AddTask tg' task).2 as [err|] eqn:Herr; [by eexists|].
  exfalso.
  destruct (later_cyclic tg (Opt.AddTask tg' task).1 Hr (later_AddTask _ _ _ Hl) Hcyc)
    as [Hr1 Hc1].
  pose proof (Hfail _ Hr1 Hc1) as Hs1.
  rewrite Opt_AddTask_add_task in Herr, Hs1. cbn in Herr, Hs1.
  destruct (add_task (Opt.graph tg') (Opt.taskLayers tg') task)
    as [[g1 l1] err1] eqn:Hadd. cbn in Herr, Hs1. subst err1.
  apply add_task_success in Hadd as (_ & _ & _ & order & Ho).
  unfold Opt.GetExecutionOrder in Hs1. cbn in Hs1. congruence.
Qed.
End Order.

Lemma GetExecutionOrder_respects_dependencies_witness :
  ∃ order,
    Opt.GetExecutionOrder abcd = inl order ∧ Store.before order "B" "D".
Proof.
  destruct (Opt.GetExecutionOrder abcd) as [order|e] eqn:Ho; [|by vm_compute in Ho].
  exists order. split; [done|].
  refine (proj1 (proj2 (proj2 (GetExecutionOrder_respects_dependencies abcd order
    _ (or_introl Ho))) "D" 2
    (diamond_D (succeed "a") (succeed "b") (succeed "c") (succeed "d"))
    (diamond_B (succeed "a") (succeed "b")) _ _ _)).
  - apply reachable_register. constructor.
  - reflexivity.
  - reflexivity.
  - apply list_elem_of_here.
Defined.

Lemma cycle_is_permanent_witness :
  Opt.GetExecutionOrder (Opt.AddTask looped (new_task "A" (succeed "a") [])).1 =
  inr Store.ErrCycle.
Proof.
  refine (proj1 (cycle_is_permanent looped _ Store.ErrCycle _ _
    (later_AddTask _ _ _ (later_now _)))).
  - apply reachable_register. constructor.
  - reflexivity.
Defined.


(** ** The statuses a run leaves *)
Section Statuses.
Context {V : Type}.
Implicit Types (g : Store.Graph (Task V)) (s : LayerState V).
Implicit Types (task : Task V) (tg : Opt.TaskGraph V).

Lemma run_layer_app pre post (results : gmap string V) s :
  run_layer (pre ++ post) results s =
  run_layer pre results s ≫= run_layer post results.
Proof.
  revert s. induction pre as [|id pre IH]; intros s; [done|].
  cbn [app run_layer]. destruct (Store.Vertex (ls_graph s) id); [|done].
  apply IH.
Qed.

(** In a layer without failure every task is left with the status of its
    outcome under the context of the call. *)
Lemma run_layer_status_live layer results s s' id task :
  ls_err s = None → ls_err s' = None →
  id ∈ layer → Store.vertices (ls_graph s) !! id = Some task →
  run_layer layer results s = Some s' →
  Store.vertices (ls_graph s') !! id =
  Some (set_Status (final_status (outcome (ls_ctx s) results task)) task).
Proof.
  intros Herr Herr'. revert s task Herr.
  induction layer as [|id0 layer IH]; intros s task Herr Hin Hid Hrun;
    cbn [run_layer] in Hrun; [by apply elem_of_nil in Hin|].
  unfold Store.Vertex in Hrun.
  destruct (Store.vertices (ls_graph s) !! id0) as [task0|] eqn:Hid0; [|done].
  set (s1 := goroutine id0 task0 results s) in *.
  assert (ls_err s1 = None) as Herr1.
  { destruct (ls_err s1) as [e|] eqn:He; [|done].
    rewrite (run_layer_err_keep _ _ _ _ _ He Hrun) in Herr'. done. }
  assert (ls_ctx s1 = ls_ctx s) as Hctx1.
  { destruct (goroutine_ctx id0 task0 results s) as [?|[e He]]; [done|].
    fold s1 in He. congruence. }
  destruct (decide (id ∈ layer)) as [Hin'|Hnin].
  - assert (∃ st, Store.vertices (ls_graph s1) !! id = Some (set_Status st task))
      as [st Hst].
    { subst s1. rewrite goroutine_outcome. cbn. rewrite lookup_alter. case_decide.
      - subst id0. rewrite Hid. by eexists.
      - rewrite Hid. exists (Status task). by destruct task. }
    rewrite (IH _ _ Herr1 Hin' Hst Hrun), Hctx1.
    by rewrite (same_task_outcome (ls_ctx s) results (set_Status st task) task).
  - assert (id = id0) as ->.
    { apply elem_of_cons in Hin as [?|?]; [done|by destruct Hnin]. }
    assert (task0 = task) as -> by congruence.
    rewrite (run_layer_untouched _ _ _ _ _ Hnin Hrun). subst s1.
    rewrite goroutine_outcome. cbn.
    by rewrite lookup_alter, decide_True, Hid0 by done.
Qed.

(** In a layer that fails, the task whose error is kept is left
    failed. *)
Lemma run_layer_status_failed layer results s s' err :
  ls_err s = None → NoDup layer →
  run_layer layer results s = Some s' → ls_err s' = Some err →
  ∃ id task e,
    id ∈ layer ∧ Store.vertices (ls_graph s) !! id = Some task ∧
    outcome (ls_ctx s) results task = Failed e ∧ err = task_failed id e ∧
    Store.vertices (ls_graph s') !! id = Some (set_Status TaskStatusFailed task).
Proof.
  intros Herr Hnd Hrun Herr'.
  destruct (run_layer_first_error _ _ _ _ _ Herr Hrun Herr')
    as (pre & id & post & task & e & -> & Hv & Ho & -> & Hpre).
  exists id, task, e. split_and!; [|done..|].
  { apply elem_of_app. right. by left. }
  apply NoDup_app in Hnd as (_ & Hdisj & [Hnpost _]%NoDup_cons).
  assert (id ∉ pre) as Hnpre.
  { intros Hin. apply (Hdisj _ Hin). by left. }
  rewrite run_layer_app in Hrun.
  destruct (run_layer pre results s) as [s1|] eqn:Hrun1; [|done].
  cbn [mbind option_bind run_layer] in Hrun.
  assert (ls_err s1 = None) as Herr1.
  { apply eq_None_not_Some. intros Hs.
    apply (run_layer_fails_iff _ _ _ _ Herr Hrun1) in Hs
      as (id' & task' & Hin' & Hv' & [x Hx]).
    rewrite (Hpre _ _ Hin' Hv') in Hx. done. }
  destruct (run_layer_results _ _ _ _ Herr Hrun1 Herr1) as [Hctx1 _].
  pose proof (run_layer_untouched _ _ _ _ _ Hnpre Hrun1) as Hv1.
  unfold Store.Vertex in Hrun. rewrite Hv1, Hv in Hrun.
  rewrite (run_layer_untouched _ _ _ _ _ Hnpost Hrun).
  rewrite goroutine_outcome. cbn.
  rewrite lookup_alter, decide_True, Hv1, Hv, Hctx1, Ho by done. done.
Qed.

Lemma Opt_executeLayer_statuses tg ctx layer results tg1 events ret :
  Opt.executeLayer tg ctx layer results = Some (tg1, events, ret) →
  NoDup layer →
  (ret.2 = None → ∀ id task, id ∈ layer →
    Store.vertices (Opt.graph tg) !! id = Some task →
    Store.vertices (Opt.graph tg1) !! id =
    Some (set_Status (final_status (outcome ctx results task)) task)) ∧
  (∀ err, ret.2 = Some err →
    ∃ id task e,
      id ∈ layer ∧ Store.vertices (Opt.graph tg) !! id = Some task ∧
      outcome ctx results task = Failed e ∧ err = task_failed id e ∧
      Store.vertices (Opt.graph tg1) !! id =
      Some (set_Status TaskStatusFailed task)).
Proof.
  unfold Opt.executeLayer. intros Hex Hnd.
  destruct (go_blocks _ _); [done|].
  set (s0 := mkLayerState (Opt.graph tg) ∅ None ctx
    [EvSetLimit (Opt.WorkerCount (Opt.opts tg))]) in *.
  destruct (run_layer layer results s0) as [s|] eqn:Hrun; [|done].
  injection Hex as <- <- <-. rewrite wait_err. cbn [Opt.graph]. split.
  - intros Herr id task Hin Hv.
    by apply (run_layer_status_live layer results s0 s id task).
  - intros err Herr.
    by apply (run_layer_status_failed layer results s0 s err).
Qed.

(** The statuses after the loop of [Execute], for layers that list each
    task once: [n] layers have run; a task of a layer before the failing
    one, or of any layer when none fails, is left with the status of its
    outcome; the task whose error is returned is left failed; a task of
    no layer that ran is untouched. *)
Lemma Opt_execute_layers_statuses tg ctx layers results trace tg' trace' ret :
  Opt.execute_layers tg ctx layers results trace = Some (tg', trace', ret) →
  (∀ (i : nat) layer, layers !! i = Some layer → NoDup layer) →
  (∀ (i j : nat) layer layer' id,
      layers !! i = Some layer → layers !! j = Some layer' →
      id ∈ layer → id ∈ layer' → i = j) →
  ∃ n : nat,
    (n ≤ length layers)%nat ∧
    (ret.2 = None → n = length layers) ∧
    (∀ (i : nat) layer id task,
        (S i < n)%nat ∨ (i < n)%nat ∧ ret.2 = None →
        layers !! i = Some layer → id ∈ layer →
        Store.vertices (Opt.graph tg) !! id = Some task →
        Store.vertices (Opt.graph tg') !! id =
        Some (set_Status
            (final_status
              (outcome ctx (results_before (Opt.graph tg) ctx layers results i) task))
            task) ∧
        failed (outcome ctx (results_before (Opt.graph tg) ctx layers results i) task)
          = None) ∧
    (∀ err, ret.2 = Some err →
      ∃ (i : nat) layer id task e,
        n = S i ∧ layers !! i = Some layer ∧ id ∈ layer ∧
        Store.vertices (Opt.graph tg) !! id = Some task ∧
        outcome ctx (results_before (Opt.graph tg) ctx layers results i) task
          = Failed e ∧
        err = task_failed id e ∧
        Store.vertices (Opt.graph tg') !! id =
        Some (set_Status TaskStatusFailed task)) ∧
    (∀ id,
        (∀ (i : nat) layer, (i < n)%nat → layers !! i = Some layer → id ∉ layer) →
        Store.vertices (Opt.graph tg') !! id = Store.vertices (Opt.graph tg) !! id).
Proof.
  revert tg results trace.
  induction layers as [|layer layers IH]; intros tg results trace Hex Hnd Huniq.
  { cbn in Hex. injection Hex as <- <- <-. exists 0%nat.
    split_and!; [done|done| | |done].
    - intros i layer id task _ Hlook. by rewrite lookup_nil in Hlook.
    - intros err [=]. }
  cbn [Opt.execute_layers] in Hex.
  destruct (Opt.executeLayer tg ctx layer results)
    as [[[tg1 ev1] [lr [err|]]]|] eqn:Hl; [| |done].
  - (* the layer fails *)
    injection Hex as <- <- <-.
    pose proof (Opt_executeLayer_statuses _ _ _ _ _ _ _ Hl (Hnd 0%nat layer eq_refl))
      as [_ Hfail].
    apply Opt_executeLayer_call in Hl as (_ & _ & _ & _ & Hun & _).
    exists 1%nat. split_and!.
    + cbn. lia.
    + intros [=].
    + intros i layer' id task [Hi|[_ [=]]]. lia.
    + intros err' [= <-].
      destruct (Hfail err eq_refl) as (id & task & e & ? & ? & ? & ? & ?).
      by exists 0%nat, layer, id, task, e.
    + intros id Hid. apply Hun. by apply (Hid 0%nat); [lia|].
  - (* the layer succeeds *)
    pose proof (Opt_executeLayer_statuses _ _ _ _ _ _ _ Hl (Hnd 0%nat layer eq_refl))
      as [Hlive _]. specialize (Hlive eq_refl).
    apply Opt_executeLayer_call in Hl as (Hso & _ & _ & _ & Hun & _ & Hret).
    destruct lr as [res|]; [|done]. destruct Hret as [-> Hnofail].
    cbn [merge_results] in Hex.
    apply IH in Hex as (n & Hn & Hlen & Hst & Hfail & Hun').
    2:{ intros i layer' Hi. by apply (Hnd (S i)). }
    2:{ intros i j l1 l2 id Hi Hj Hin1 Hin2.
        assert (S i = S j) by (by apply (Huniq (S i) (S j) l1 l2 id)). lia. }
    set (g := Opt.graph tg) in *. set (g1 := Opt.graph tg1) in *.
    set (results1 := layer_results g ctx results layer ∪ results) in *.
    assert (∀ i, results_before g1 ctx layers results1 i
      = results_before g ctx (layer :: layers) results (S i)) as Hrb.
    { intros i. cbn [results_before]. by apply results_before_status_only. }
    assert (∀ (i : nat) layer' id, layers !! i = Some layer' → id ∈ layer' →
      id ∉ layer) as Hlater.
    { intros i layer' id Hi Hin Hin0.
      assert (S i = 0%nat) by (by apply (Huniq (S i) 0%nat layer' layer id)). lia. }
    exists (S n). split_and!.
    + cbn. lia.
    + intros Hnone. cbn. by rewrite Hlen.
    + intros i layer' id task Hi Hlook Hin Hv. destruct i as [|i].
      * cbn in Hlook. injection Hlook as <-. split; [|by apply (Hnofail id)].
        rewrite Hun'; [by apply Hlive|].
        intros j layer'' _ Hj Hin'. by apply (Hlater j layer'' id).
      * cbn in Hlook. rewrite <- Hrb. apply (Hst i layer'); [|done|done|].
        -- destruct Hi as [?|[? ?]]; [left; lia|right; split; [lia|done]].
        -- fold g1. rewrite Hun; [done|]. by apply (Hlater i layer').
    + intros err Herr.
      destruct (Hfail err Herr) as (i & layer' & id & task & e & -> & Hi & Hin & Hv & Ho & -> & Hf).
      exists (S i), layer', id, task, e.
      assert (Store.vertices g1 !! id = Store.vertices g !! id) as Heq.
      { apply Hun. by apply (Hlater i layer'). }
      fold g1 in Hv. rewrite Heq in Hv. rewrite Hrb in Ho. done.
    + intros id Hid. rewrite Hun'.
      * apply Hun. by apply (Hid 0%nat); [lia|].
      * intros i layer' Hi Hlook. apply (Hid (S i)); [lia|done].
Qed.

(** X11. The statuses a run leaves. On a graph a caller can hold, under
    any iteration order: after a run that returns results, every task
    with a layer is either completed, and then the results hold an entry
    for it, or skipped, and then they hold none (no task is left pending,
    running or failed); after a run that returns an error, the error is
    that of a task with a layer that is left failed, every task of a
    lower layer is completed or skipped, and every task of a higher
    layer has the status it had before the call. *)
Theorem statuses_after_Execute tg ctx options iter tg' trace ret :
  reachable tg → iter ≡ₚ map_to_list (Opt.taskLayers tg) →
  Opt.Execute tg ctx options iter = Some (tg', trace, ret) →
  match ret with
  | (Some res, None) =>
    ∀ id, is_Some (Opt.taskLayers tg !! id) →
    Opt.GetTaskStatus tg' id = (Some TaskStatusCompleted, None) ∧ is_Some (res !! id) ∨
    Opt.GetTaskStatus tg' id = (Some TaskStatusSkipped, None) ∧ res !! id = None
  | (None, Some err) =>
    ∃ id e l,
      err = task_failed id e ∧ Opt.taskLayers tg !! id = Some l ∧
      Opt.GetTaskStatus tg' id = (Some TaskStatusFailed, None) ∧
      ∀ id' l', Opt.taskLayers tg !! id' = Some l' →
      (l' < l →
        Opt.GetTaskStatus tg' id' = (Some TaskStatusCompleted, None) ∨
        Opt.GetTaskStatus tg' id' = (Some TaskStatusSkipped, None)) ∧
      (l < l' → Opt.GetTaskStatus tg' id' = Opt.GetTaskStatus tg id')
  | _ => False
  end.
Proof.
  intros Hr Hp Hex. pose proof (reachable_ok _ Hr) as Hok.
  destruct (Opt_Execute_run _ _ _ _ _ _ _ Hr Hp Hex)
    as (layers & n0 & Hg & Hmem & _ & _ & _ & _ & Hbefore0 & Hret0).
  destruct (group_layers_registry _ _ Hp (ok_nonneg _ _ Hok))
    as (layers' & Hg' & _ & Htotal & Hnd & _).
  assert (layers' = layers) as -> by congruence.
  assert (∀ (i j : nat) layer layer' id,
    layers !! i = Some layer → layers !! j = Some layer' →
    id ∈ layer → id ∈ layer' → i = j) as Huniq.
  { intros i j layer layer' id Hi Hj Hin Hin'.
    apply (Hmem _ _ id) in Hi, Hj. apply Hi in Hin. apply Hj in Hin'.
    rewrite Hin in Hin'. injection Hin' as Heq. lia. }
  unfold Opt.Execute in Hex. cbn zeta in Hex. rewrite Hg in Hex.
  apply Opt_execute_layers_statuses in Hex as (n & Hn & Hlen & Hst & Hfail & Hun);
    [|done..].
  cbn [Opt.graph] in Hst, Hfail, Hun.
  set (R := results_before (Opt.graph tg) ctx layers ∅) in *.
  assert (∀ id l task, Opt.taskLayers tg !! id = Some l →
    Store.vertices (Opt.graph tg) !! id = Some task →
    Store.vertices (Opt.graph tg') !! id =
    Some (set_Status (final_status (outcome ctx (R (Z.to_nat l)) task)) task) →
    failed (outcome ctx (R (Z.to_nat l)) task) = None →
    Opt.GetTaskStatus tg' id = (Some TaskStatusCompleted, None) ∧
    is_Some (completed (outcome ctx (R (Z.to_nat l)) task)) ∨
    Opt.GetTaskStatus tg' id = (Some TaskStatusSkipped, None) ∧
    completed (outcome ctx (R (Z.to_nat l)) task) = None) as Hcases.
  { intros id l task Hl Hv Hv' Hnf. unfold Opt.GetTaskStatus, Store.Vertex.
    rewrite Hv'. destruct (outcome ctx (R (Z.to_nat l)) task); cbn in *.
    - by right.
    - left. split; [done|by eexists].
    - done. }
  destruct ret as [[res|] [err|]]; try done.
  - destruct Hret0 as (-> & -> & Hnofail). specialize (Hlen eq_refl). subst n.
    intros id [l Hl].
    destruct (Htotal _ _ Hl) as (layer & Hi & Hin).
    destruct (ok_registered _ _ Hok id) as [task Hv]; [by eexists|].
    pose proof (lookup_lt_Some _ _ _ Hi) as Hlt.
    pose proof (Hst _ _ _ _ (or_intror (conj Hlt eq_refl)) Hi Hin Hv) as [Hv' Hnf].
    destruct (Hcases id l task Hl Hv Hv' Hnf)
      as [[Hs [v Hc]]|[Hs Hc]]; [left|right]; (split; [done|]).
    + exists v. eapply results_before_completed; try done.
      intros j layer' Hj Hlook Hin'.
      assert (Z.to_nat l = j) by (by apply (Huniq _ _ layer layer' id)). lia.
    + apply results_before_lookup_None; [done|].
      intros i layer' task' _ Hi' Hin' Hv''.
      assert (i = Z.to_nat l) as -> by (by apply (Huniq _ _ layer' layer id)).
      assert (task' = task) as -> by congruence. done.
  - destruct (Hfail err eq_refl) as (i & layer & id & task & e & -> & Hi & Hin & Hv & Ho & -> & Hf).
    pose proof (proj1 (Hmem _ _ id Hi) Hin) as Hl.
    exists id, e, (Z.of_nat i). split_and!; [done|done| |].
    { unfold Opt.GetTaskStatus, Store.Vertex. by rewrite Hf. }
    intros id' l' Hl'.
    pose proof (ok_nonneg _ _ Hok _ _ Hl') as Hnn.
    destruct (Htotal _ _ Hl') as (layer' & Hi' & Hin').
    destruct (ok_registered _ _ Hok id') as [task' Hv']; [by eexists|].
    split.
    + intros Hlt.
      assert (S (Z.to_nat l') < S i)%nat as Hlt' by lia.
      pose proof (Hst _ _ _ _ (or_introl Hlt') Hi' Hin' Hv') as [Hv'' Hnf].
      destruct (Hcases id' l' task' Hl' Hv' Hv'' Hnf) as [[? _]|[? _]];
        [by left|by right].
    + intros Hlt. unfold Opt.GetTaskStatus, Store.Vertex. rewrite Hun; [done|].
      intros j layer'' Hj Hlook Hin''.
      apply (Hmem _ _ id' Hlook) in Hin''. rewrite Hl' in Hin''.
      injection Hin'' as ->. lia.
Qed.
End Statuses.

Lemma statuses_after_Execute_witness :
  ∃ tg' trace err,
    run_once fail_graph = Some (tg', trace, (None, Some err)) ∧
    ∃ id e l,
      err = task_failed id e ∧ Opt.taskLayers fail_graph !! id = Some l ∧
      Opt.GetTaskStatus tg' id = (Some TaskStatusFailed, None).
Proof.
  assert (∃ tg' trace err,
    run_once fail_graph = Some (tg', trace, (None, Some err)))
    as (tg' & trace & err & Hrun).
  { vm_compute. eexists _, _, _. reflexivity. }
  exists tg', trace, err. split; [done|].
  destruct (statuses_after_Execute fail_graph (mkContext false) []
    (map_to_list (Opt.taskLayers fail_graph)) tg' trace (None, Some err))
    as (id & e & l & ? & ? & ? & _).
  - apply reachable_register. constructor.
  - reflexivity.
  - exact Hrun.
  - exists id, e, l. split_and!; assumption.
Defined.


(** ** The options *)
Section Options.
Context {V : Type}.
Implicit Types (tg : Opt.TaskGraph V).

(** The events of a run: the two diagnostics when the stored options,
    after the options of the call, enable them; then, per layer, the
    limit given to the errgroup, which is the stored worker count, and
    the events of the tasks. *)
Lemma Opt_Execute_trace tg ctx options iter tg' trace ret :
  Opt.Execute tg ctx options iter = Some (tg', trace, ret) →
  ∃ layers events,
    group_layers iter (replicate (Z.to_nat (max_layer iter + 1)) []) = Some layers ∧
    trace =
    (if Opt.EnableDebugLog (Opt.opts tg')
        then [EvLogTaskLayers (Opt.taskLayers tg); EvLogLayers layers] else [])
      ++ events ∧
    ∀ e, e ∈ events →
    e = EvSetLimit (Opt.WorkerCount (Opt.opts tg')) ∨ is_Some (event_task e).
Proof.
  intros Hex.
  pose proof (Opt_Execute_graph _ _ _ _ _ _ _ Hex) as (_ & _ & Hopts).
  unfold Opt.Execute in Hex. cbn zeta in Hex.
  destruct (group_layers iter _) as [layers|] eqn:Hg; [|done].
  cbn [Opt.opts Opt.taskLayers] in Hex. rewrite <- Hopts in Hex.
  apply Opt_execute_layers_run in Hex as (n & events & _ & -> & Hev & _).
  cbn [Opt.opts] in Hev.
  exists layers, events. split_and!; [done| |].
  - by destruct (Opt.EnableDebugLog (Opt.opts tg')).
  - intros e He.
    destruct (Hev e He) as [->|(i & layer & id & task & ctx' & _ & _ & _ & _ & Hte & _)];
      [by left|right].
    rewrite (task_events_task _ _ _ _ _ Hte). by eexists.
Qed.

(** X12. The limit of the errgroup. When the stored worker count is
    positive (as in a new graph) and the options of the call are built
    with [WithWorkerCount] and [WithDebugLog], the worker count stored
    after the call is positive, and every limit that an [executeLayer]
    call of the run gives to its errgroup is that count: no call of
    [SetLimit] gets zero or a negative number, whatever argument
    [WithWorkerCount] was given. *)
Theorem SetLimit_is_positive tg ctx options iter tg' trace ret :
  0 < Opt.WorkerCount (Opt.opts tg) →
  Forall (λ option, (∃ count, option = Opt.WithWorkerCount count) ∨
    (∃ enable, option = Opt.WithDebugLog enable)) options →
  Opt.Execute tg ctx options iter = Some (tg', trace, ret) →
  0 < Opt.WorkerCount (Opt.opts tg') ∧
  ∀ n, EvSetLimit n ∈ trace → n = Opt.WorkerCount (Opt.opts tg').
Proof.
  intros Hpos Hall Hex.
  pose proof (Opt_Execute_graph _ _ _ _ _ _ _ Hex) as (_ & _ & Hopts).
  split.
  - rewrite Hopts. clear Hex Hopts. revert Hpos.
    generalize (Opt.opts tg). induction Hall as [|o options Ho _ IH]; intros o0 Hpos;
      [done|].
    cbn [foldl]. apply IH. destruct Ho as [[count ->]|[enable ->]]; [|done].
    unfold Opt.WithWorkerCount. destruct (count >? 0) eqn:Hc; [|done].
    cbn. lia.
  - intros n Hin.
    apply Opt_Execute_trace in Hex as (layers & events & _ & -> & Hev).
    apply elem_of_app in Hin as [Hin|Hin].
    + destruct (Opt.EnableDebugLog _); [|by apply elem_of_nil in Hin].
      apply elem_of_cons in Hin as [?|Hin]; [done|].
      by apply list_elem_of_singleton in Hin.
    + destruct (Hev _ Hin) as [[= ->]|[x Hx]]; [done|]. done.
Qed.

(** X13. Options are stored in the graph, not in the call. After a call
    of [Execute] with some options, a call without options runs under
    the options the first call left: it gives the same limit to the
    errgroup of every layer, and it prints the two diagnostics exactly
    when the first call did. *)
Theorem options_persist tg ctx options iter tg1 trace1 ret1
    ctx' iter' tg2 trace2 ret2 :
  Opt.Execute tg ctx options iter = Some (tg1, trace1, ret1) →
  Opt.Execute tg1 ctx' [] iter' = Some (tg2, trace2, ret2) →
  Opt.opts tg2 = Opt.opts tg1 ∧
  (∀ n, EvSetLimit n ∈ trace1 ∨ EvSetLimit n ∈ trace2 →
    n = Opt.WorkerCount (Opt.opts tg1)) ∧
  ((∃ m, EvLogTaskLayers m ∈ trace2) ↔ (∃ m, EvLogTaskLayers m ∈ trace1)) ∧
  ((∃ m, EvLogTaskLayers m ∈ trace1) ↔ Opt.EnableDebugLog (Opt.opts tg1) = true).
Proof.
  intros Hex1 Hex2.
  pose proof (Opt_Execute_graph _ _ _ _ _ _ _ Hex2) as (_ & _ & Hopts).
  cbn [foldl] in Hopts.
  assert (∀ (tga tgb : Opt.TaskGraph V) c os it tr r,
    Opt.Execute tga c os it = Some (tgb, tr, r) →
    (∀ n, EvSetLimit n ∈ tr → n = Opt.WorkerCount (Opt.opts tgb)) ∧
    ((∃ m, EvLogTaskLayers m ∈ tr) ↔ Opt.EnableDebugLog (Opt.opts tgb) = true))
    as Hshape.
  { intros tga tgb c os it tr r Hex.
    apply Opt_Execute_trace in Hex as (layers & events & _ & -> & Hev).
    assert (∀ e, e ∈ events → ∀ m, e ≠ EvLogTaskLayers m) as Hnolog.
    { intros e He m ->. by destruct (Hev _ He) as [?|[? ?]]. }
    split.
    - intros n [Hin|Hin]%elem_of_app.
      + destruct (Opt.EnableDebugLog _); [|by apply elem_of_nil in Hin].
        apply elem_of_cons in Hin as [?|Hin]; [done|].
        by apply list_elem_of_singleton in Hin.
      + by destruct (Hev _ Hin) as [[= ->]|[x Hx]].
    - destruct (Opt.EnableDebugLog (Opt.opts tgb)).
      + split; [done|]. intros _. eexists. apply elem_of_app. left. by left.
      + split; [|done]. intros [m [Hin|Hin]%elem_of_app].
        * by apply elem_of_nil in Hin.
        * by destruct (Hnolog _ Hin m). }
  destruct (Hshape _ _ _ _ _ _ _ Hex1) as [Hlim1 Hlog1].
  destruct (Hshape _ _ _ _ _ _ _ Hex2) as [Hlim2 Hlog2].
  rewrite Hopts in Hlim2, Hlog2.
  split_and!; [done| |by rewrite Hlog1, Hlog2|done].
  intros n [?|?]; [by apply Hlim1|by apply Hlim2].
Qed.
End Options.

Lemma SetLimit_is_positive_witness :
  ∃ tg' trace ret,
    Opt.Execute abcd (mkContext false) [Opt.WithWorkerCount (-3)]
      (map_to_list (Opt.taskLayers abcd)) = Some (tg', trace, ret) ∧
    0 < Opt.WorkerCount (Opt.opts tg').
Proof.
  assert (∃ tg' trace ret,
    Opt.Execute abcd (mkContext false) [Opt.WithWorkerCount (-3)]
    (map_to_list (Opt.taskLayers abcd)) = Some (tg', trace, ret))
    as (tg' & trace & ret & Hrun).
  { vm_compute. eexists _, _, _. reflexivity. }
  exists tg', trace, ret. split; [exact Hrun|].
  refine (proj1 (SetLimit_is_positive abcd _ _ _ tg' trace ret _ _ Hrun)).
  - reflexivity.
  - constructor; [left; by eexists|constructor].
Defined.

Lemma options_persist_witness :
  ∃ tg1 trace1 ret1 tg2 trace2 ret2,
    Opt.Execute abcd (mkContext false) [Opt.WithWorkerCount 2]
      (map_to_list (Opt.taskLayers abcd)) = Some (tg1, trace1, ret1) ∧
    run_once tg1 = Some (tg2, trace2, ret2) ∧
    Opt.opts tg2 = Opt.opts tg1.
Proof.
  assert (∃ tg1 trace1 ret1,
    Opt.Execute abcd (mkContext false) [Opt.WithWorkerCount 2]
    (map_to_list (Opt.taskLayers abcd)) = Some (tg1, trace1, ret1))
    as (tg1 & trace1 & ret1 & Hrun1).
  { vm_compute. eexists _, _, _. reflexivity. }
  destruct (run_once tg1) as [[[tg2 trace2] ret2]|] eqn:Hrun2.
  - exists tg1, trace1, ret1, tg2, trace2, ret2.
    split; [exact Hrun1|]. split; [exact Hrun2|].
    exact (proj1 (options_persist _ _ _ _ _ _ _ _ _ _ _ _ Hrun1 Hrun2)).
  - exfalso.
    assert (reachable tg1) as Hr.
    { eapply reachable_Execute; [|reflexivity|exact Hrun1].
      apply reachable_register. constructor. }
    destruct (Opt_Execute_is_Some tg1 (mkContext false) []
      (map_to_list (Opt.taskLayers tg1)) Hr) as [x Hx]; [reflexivity| |].
    { pose proof (Opt_Execute_graph _ _ _ _ _ _ _ Hrun1) as (_ & _ & Ho).
      cbn [foldl]. rewrite Ho. vm_compute. discriminate. }
    unfold run_once in Hrun2. congruence.
Defined.


(** ** The iteration order of the layer map *)
Section IterationOrder.
Context {V : Type}.
Implicit Types (g : Store.Graph (Task V)) (tg : Opt.TaskGraph V).

Lemma results_before_perm g ctx layers layers' (results : gmap string V) i :
  Forall2 (≡ₚ) layers layers' →
  results_before g ctx layers results i = results_before g ctx layers' results i.
Proof.
  intros Hperm. revert results i.
  induction Hperm as [|layer layer' layers layers' Hp _ IH]; intros results i;
    [done|].
  destruct i as [|i]; [done|]. cbn [results_before].
  by rewrite (layer_results_perm _ _ _ _ _ Hp), IH.
Qed.

(** X14. What a run computes does not depend on the order in which Go
    iterates over the layer map. For two runs of the same graph under
    two iteration orders: both return results or both return an error;
    when they return results, the results are equal and the graphs they
    leave are equal; when they return an error, the two errors are those
    of tasks of the same layer (which of several failing tasks of that
    layer is reported may differ). *)
Theorem Execute_order_independent tg ctx options iter iter'
    tg1 trace1 ret1 tg2 trace2 ret2 :
  reachable tg →
  iter ≡ₚ map_to_list (Opt.taskLayers tg) →
  iter' ≡ₚ map_to_list (Opt.taskLayers tg) →
  Opt.Execute tg ctx options iter = Some (tg1, trace1, ret1) →
  Opt.Execute tg ctx options iter' = Some (tg2, trace2, ret2) →
  match ret1, ret2 with
  | (Some res1, None), (Some res2, None) => res1 = res2 ∧ tg1 = tg2
  | (None, Some err1), (None, Some err2) =>
    ∃ id1 e1 id2 e2 l,
      err1 = task_failed id1 e1 ∧ err2 = task_failed id2 e2 ∧
      Opt.taskLayers tg !! id1 = Some l ∧ Opt.taskLayers tg !! id2 = Some l
  | _, _ => False
  end.
Proof.
  intros Hr Hp Hp' Hex1 Hex2. pose proof (reachable_ok _ Hr) as Hok.
  destruct (Opt_Execute_run _ _ _ _ _ _ _ Hr Hp Hex1)
    as (layers & n1 & Hg & Hmem & _ & _ & _ & _ & Hbefore1 & Hret1).
  destruct (Opt_Execute_run _ _ _ _ _ _ _ Hr Hp' Hex2)
    as (layers' & n2 & Hg' & Hmem' & _ & _ & _ & _ & Hbefore2 & Hret2).
  assert (Forall2 (≡ₚ) layers layers') as Hperm.
  { apply (group_layers_perm iter iter'); [by rewrite Hp, Hp'| |done|done].
    intros [k l] Hin. rewrite Hp in Hin. apply elem_of_map_to_list in Hin.
    by apply (ok_nonneg _ _ Hok k). }
  pose proof (Forall2_length _ _ _ Hperm) as Hlen.
  set (R := results_before (Opt.graph tg) ctx layers ∅) in *.
  assert (∀ i, results_before (Opt.graph tg) ctx layers' ∅ i = R i) as HR.
  { intros i. symmetry. by apply results_before_perm. }
  assert (∀ (i : nat) layer id, layers !! i = Some layer → id ∈ layer →
    ∃ layer', layers' !! i = Some layer' ∧ id ∈ layer') as H12.
  { intros i layer id Hi Hin.
    destruct (Forall2_lookup_l _ _ _ _ _ Hperm Hi) as (layer' & Hi' & Hpi).
    exists layer'. split; [done|]. by rewrite <- Hpi. }
  assert (∀ (i : nat) layer' id, layers' !! i = Some layer' → id ∈ layer' →
    ∃ layer, layers !! i = Some layer ∧ id ∈ layer) as H21.
  { intros i layer' id Hi' Hin.
    destruct (Forall2_lookup_r _ _ _ _ _ Hperm Hi') as (layer & Hi & Hpi).
    exists layer. split; [done|]. by rewrite Hpi. }
  destruct ret1 as [[res1|] [err1|]]; try done;
    destruct ret2 as [[res2|] [err2|]]; try done.
  - (* both return results *)
    destruct Hret1 as (-> & -> & _). destruct Hret2 as (-> & -> & _).
    split; [by rewrite HR, Hlen|].
    destruct (group_layers_registry _ _ Hp (ok_nonneg _ _ Hok))
      as (l1 & Hg1 & _ & Htotal & Hnd & _).
    assert (l1 = layers) as -> by congruence.
    destruct (group_layers_registry _ _ Hp' (ok_nonneg _ _ Hok))
      as (l2 & Hg2 & _ & Htotal' & Hnd' & _).
    assert (l2 = layers') as -> by congruence.
    pose proof (Opt_Execute_graph _ _ _ _ _ _ _ Hex1) as ([He1 _] & Hl1 & Ho1).
    pose proof (Opt_Execute_graph _ _ _ _ _ _ _ Hex2) as ([He2 _] & Hl2 & Ho2).
    assert (∀ ls : list (list string), (∀ (i : nat) layer id, ls !! i = Some layer →
      (id ∈ layer ↔ Opt.taskLayers tg !! id = Some (Z.of_nat i))) →
      ∀ (i j : nat) layer layer' id,
      ls !! i = Some layer → ls !! j = Some layer' →
      id ∈ layer → id ∈ layer' → i = j) as Huniq.
    { intros ls Hm i j layer layer' id Hi Hj Hin Hin'.
      apply (Hm _ _ id) in Hi, Hj. apply Hi in Hin. apply Hj in Hin'.
      rewrite Hin in Hin'. injection Hin' as Heq. lia. }
    unfold Opt.Execute in Hex1, Hex2. cbn zeta in Hex1, Hex2.
    rewrite Hg in Hex1. rewrite Hg' in Hex2.
    apply Opt_execute_layers_statuses in Hex1 as (m1 & _ & Hm1 & Hst1 & _ & Hun1);
      [|done|by apply Huniq].
    apply Opt_execute_layers_statuses in Hex2 as (m2 & _ & Hm2 & Hst2 & _ & Hun2);
      [|done|by apply Huniq].
    specialize (Hm1 eq_refl). specialize (Hm2 eq_refl). subst m1 m2.
    cbn [Opt.graph] in Hst1, Hst2, Hun1, Hun2.
    assert (Store.vertices (Opt.graph tg1) = Store.vertices (Opt.graph tg2)) as Hvs.
    { apply map_eq. intros id.
      destruct (Opt.taskLayers tg !! id) as [l|] eqn:Hl.
      - destruct (Htotal _ _ Hl) as (layer & Hi & Hin).
        destruct (H12 _ _ _ Hi Hin) as (layer' & Hi' & Hin').
        destruct (ok_registered _ _ Hok id) as [task Hv]; [by eexists|].
        destruct (Hst1 _ _ _ _
          (or_intror (conj (lookup_lt_Some _ _ _ Hi) eq_refl)) Hi Hin Hv) as [-> _].
        destruct (Hst2 _ _ _ _
          (or_intror (conj (lookup_lt_Some _ _ _ Hi') eq_refl)) Hi' Hin' Hv) as [-> _].
        by rewrite HR.
      - rewrite Hun1, Hun2; [done| |].
        + intros i layer' _ Hi' Hin. apply (Hmem' _ _ id Hi') in Hin. congruence.
        + intros i layer _ Hi Hin. apply (Hmem _ _ id Hi) in Hin. congruence. }
    destruct tg1 as [[vs1 es1] l1 o1], tg2 as [[vs2 es2] l2 o2]. cbn in *.
    congruence.
  - (* the first returns results, the second an error *)
    destruct Hret1 as (_ & _ & Hnofail).
    destruct Hret2 as (i & layer' & pre & id & post & task & e & _ & Hi' & -> & Hv & Ho & _).
    destruct (H21 i _ id Hi') as (layer & Hi & Hin).
    { apply elem_of_app. right. by left. }
    rewrite HR in Ho. pose proof (Hnofail _ _ _ _ Hi Hin Hv) as Hnf.
    by rewrite Ho in Hnf.
  - (* the first returns an error, the second results *)
    destruct Hret2 as (_ & _ & Hnofail).
    destruct Hret1 as (i & layer & pre & id & post & task & e & _ & Hi & -> & Hv & Ho & _).
    destruct (H12 i _ id Hi) as (layer' & Hi' & Hin').
    { apply elem_of_app. right. by left. }
    pose proof (Hnofail _ _ _ _ Hi' Hin' Hv) as Hnf.
    rewrite HR in Hnf. by rewrite Ho in Hnf.
  - (* both return an error *)
    destruct Hret1
      as (i1 & layer1 & pre1 & id1 & post1 & task1 & e1 & -> & Hi1 & -> & Hv1 & Ho1 & -> & _).
    destruct Hret2
      as (i2 & layer2 & pre2 & id2 & post2 & task2 & e2 & -> & Hi2 & -> & Hv2 & Ho2 & -> & _).
    rewrite HR in Ho2.
    assert (id1 ∈ pre1 ++ id1 :: post1) as Hin1.
    { apply elem_of_app. right. by left. }
    assert (id2 ∈ pre2 ++ id2 :: post2) as Hin2.
    { apply elem_of_app. right. by left. }
    assert (i1 = i2) as <-.
    { destruct (Nat.lt_trichotomy i1 i2) as [Hlt|[?|Hlt]]; [exfalso|done|exfalso].
      - destruct (H12 _ _ _ Hi1 Hin1) as (layer' & Hi' & Hin').
        assert (S i1 < S i2)%nat as Hlt' by lia.
        pose proof (Hbefore2 _ _ _ _ Hlt' Hi' Hin' Hv1) as Hnf.
        rewrite HR in Hnf. by rewrite Ho1 in Hnf.
      - destruct (H21 _ _ _ Hi2 Hin2) as (layer & Hi & Hin).
        assert (S i2 < S i1)%nat as Hlt' by lia.
        pose proof (Hbefore1 _ _ _ _ Hlt' Hi Hin Hv2) as Hnf.
        by rewrite Ho2 in Hnf. }
    exists id1, e1, id2, e2, (Z.of_nat i1). split_and!; [done|done| |].
    + by apply (Hmem _ _ id1 Hi1).
    + by apply (Hmem' _ _ id2 Hi2).
Qed.
End IterationOrder.

Lemma Execute_order_independent_witness :
  ∃ tg1 trace1 res1 tg2 trace2 res2,
    run_once abcd = Some (tg1, trace1, (Some res1, None)) ∧
    Opt.Execute abcd (mkContext false) []
      (reverse (map_to_list (Opt.taskLayers abcd)))
      = Some (tg2, trace2, (Some res2, None)) ∧
    res1 = res2.
Proof.
  assert (∃ tg1 trace1 res1,
    run_once abcd = Some (tg1, trace1, (Some res1, None)))
    as (tg1 & trace1 & res1 & Hrun1).
  { vm_compute. eexists _, _, _. reflexivity. }
  assert (∃ tg2 trace2 res2,
    Opt.Execute abcd (mkContext false) []
    (reverse (map_to_list (Opt.taskLayers abcd)))
    = Some (tg2, trace2, (Some res2, None)))
    as (tg2 & trace2 & res2 & Hrun2).
  { vm_compute. eexists _, _, _. reflexivity. }
  exists tg1, trace1, res1, tg2, trace2, res2.
  split; [exact Hrun1|]. split; [exact Hrun2|].
  refine (proj1 (Execute_order_independent abcd (mkContext false) []
    (map_to_list (Opt.taskLayers abcd))
    (reverse (map_to_list (Opt.taskLayers abcd)))
    tg1 trace1 (Some res1, None) tg2 trace2 (Some res2, None) _ _ _ Hrun1 Hrun2)).
  - apply reachable_register. constructor.
  - reflexivity.
  - apply reverse_Permutation.
Defined.


(** ** The variant of [src/graph/task.go] *)
Section PlainVariant.
Context {V : Type}.
Implicit Types (ptg : Plain.TaskGraph V) (tg : Opt.TaskGraph V).

(** The events already recorded play no part in a layer. *)
Lemma run_layer_prefix layer (results : gmap string V) g r e c t0 t :
  run_layer layer results (mkLayerState g r e c (t0 ++ t)) =
  (λ s, mkLayerState (ls_graph s) (ls_results s) (ls_err s) (ls_ctx s)
      (t0 ++ ls_trace s)) <$>
    run_layer layer results (mkLayerState g r e c t).
Proof.
  revert g r e c t. induction layer as [|id layer IH]; intros g r e c t; [done|].
  cbn [run_layer ls_graph]. destruct (Store.Vertex g id) as [task|]; [|done].
  rewrite !goroutine_outcome. cbn [ls_graph ls_results ls_err ls_ctx ls_trace].
  rewrite <- app_assoc. apply IH.
Qed.

Lemma task_trace_app (t1 t2 : list (Event V)) :
  task_trace (t1 ++ t2) = task_trace t1 ++ task_trace t2.
Proof. apply filter_app. Qed.

Lemma executeLayer_agree ptg tg ctx layer results :
  Opt.WorkerCount (Opt.opts tg) ≠ 0 →
  Plain.graph ptg = Opt.graph tg →
  Plain.taskLayers ptg = Opt.taskLayers tg →
  match Plain.executeLayer ptg ctx layer results,
    Opt.executeLayer tg ctx layer results with
  | None, None => True
  | Some (ptg', pev, pret), Some (tg', ev, ret) =>
    Plain.graph ptg' = Opt.graph tg' ∧ Plain.taskLayers ptg' = Opt.taskLayers tg' ∧
    pret = ret ∧ task_trace pev = task_trace ev ∧ Opt.opts tg' = Opt.opts tg
  | _, _ => False
  end.
Proof.
  intros Hlimit Hg Hl. unfold Plain.executeLayer, Opt.executeLayer.
  rewrite (go_blocks_false _ _ Hlimit).
  rewrite <- Hg, <- Hl.
  change [EvSetLimit (Opt.WorkerCount (Opt.opts tg))]
    with ([EvSetLimit (Opt.WorkerCount (Opt.opts tg))] ++ @nil (Event V)).
  rewrite run_layer_prefix.
  destruct (run_layer layer results _) as [s|]; [|done].
  cbn. split_and!; [done|done| |done|done].
  unfold wait. cbn. done.
Qed.

Lemma execute_layers_agree ptg tg ctx layers results ptrace trace :
  Opt.WorkerCount (Opt.opts tg) ≠ 0 →
  Plain.graph ptg = Opt.graph tg →
  Plain.taskLayers ptg = Opt.taskLayers tg →
  task_trace ptrace = task_trace trace →
  same_run (Plain.execute_layers ptg ctx layers results ptrace)
    (Opt.execute_layers tg ctx layers results trace).
Proof.
  revert ptg tg results ptrace trace.
  induction layers as [|layer layers IH];
    intros ptg tg results ptrace trace Hlimit Hg Hl Ht.
  { cbn. done. }
  cbn [Plain.execute_layers Opt.execute_layers].
  pose proof (executeLayer_agree ptg tg ctx layer results Hlimit Hg Hl) as Hlayer.
  destruct (Plain.executeLayer ptg ctx layer results)
    as [[[ptg1 pev] [plr [perr|]]]|];
    destruct (Opt.executeLayer tg ctx layer results)
    as [[[tg1 ev] [lr [err|]]]|]; try done.
  - destruct Hlayer as (Hg1 & Hl1 & [= <- <-] & Hev & _). cbn.
    split_and!; [done..|]. by rewrite !task_trace_app, Ht, Hev.
  - by destruct Hlayer as (_ & _ & [=] & _).
  - by destruct Hlayer as (_ & _ & [=] & _).
  - destruct Hlayer as (Hg1 & Hl1 & [= <-] & Hev & Hopts).
    apply IH; [by rewrite Hopts|done..|]. by rewrite !task_trace_app, Ht, Hev.
Qed.

Lemma Plain_Execute_sorted ptg ctx popts opts iter order :
  Opt.WorkerCount opts ≠ 0 →
  Store.TopologicalSort (Plain.graph ptg) = inl order →
  same_run (Plain.Execute ptg ctx popts iter)
    (Opt.Execute (of_plain ptg opts) ctx [] iter).
Proof.
  intros Hlimit Hsort. unfold Plain.Execute. rewrite Hsort.
  unfold Opt.Execute. cbn zeta. cbn [foldl of_plain Opt.opts Opt.taskLayers Opt.graph].
  destruct (group_layers iter _) as [layers|]; [|done].
  apply execute_layers_agree; [done|done|done|].
  by destruct (Opt.EnableDebugLog opts).
Qed.

Lemma Plain_Execute_cyclic ptg ctx popts iter err :
  Store.TopologicalSort (Plain.graph ptg) = inr err →
  Plain.Execute ptg ctx popts iter =
  Some (ptg, [],
    (None,
      Some "failed to sort tasks: topological sort cannot be computed on graph with cycles")).
Proof.
  intros Hsort. unfold Plain.Execute. rewrite Hsort.
  by apply StoreFacts.TopologicalSort_inr in Hsort as [-> _].
Qed.

Lemma of_plain_AddTask ptg opts task :
  of_plain (Plain.AddTask ptg task).1 opts = (Opt.AddTask (of_plain ptg opts) task).1 ∧
  (Plain.AddTask ptg task).2 = (Opt.AddTask (of_plain ptg opts) task).2.
Proof. by rewrite Plain_AddTask_add_task, Opt_AddTask_add_task. Qed.

Lemma reachable_of_plain ptg :
  reachable_plain ptg → reachable (of_plain ptg (Opt.mkExecuteOptions 5 false)).
Proof.
  induction 1 as [|ptg task _ IH|ptg ctx popts iter ptg' trace ret _ IH Hp Hex].
  - constructor.
  - rewrite (proj1 (of_plain_AddTask _ _ _)). by constructor.
  - destruct (Store.TopologicalSort (Plain.graph ptg)) as [order|err] eqn:Hsort.
    + pose proof (Plain_Execute_sorted ptg ctx popts (Opt.mkExecuteOptions 5 false)
        iter order ltac:(done) Hsort) as Hagree.
      rewrite Hex in Hagree.
      destruct (Opt.Execute _ ctx [] iter) as [[[tg' trace'] ret']|] eqn:Hex';
        [|done].
      destruct Hagree as (Hg & Hl & _ & _).
      pose proof (Opt_Execute_graph _ _ _ _ _ _ _ Hex') as (_ & _ & Ho).
      cbn in Ho.
      assert (of_plain ptg' (Opt.mkExecuteOptions 5 false) = tg') as ->.
      { destruct tg'. cbn in *. unfold of_plain. congruence. }
      by eapply reachable_Execute.
    + rewrite (Plain_Execute_cyclic ptg ctx popts iter err Hsort) in Hex.
      by injection Hex as <- _ _.
Qed.

(** X16. [Execute] of [src/graph/task.go] returns on every graph a
    caller can hold, under every iteration order of the layer map: it
    does not panic, and it returns either a results map and no error, or
    no results map and an error. *)
Theorem Plain_Execute_never_panics ptg ctx popts iter :
  reachable_plain ptg → iter ≡ₚ map_to_list (Plain.taskLayers ptg) →
  ∃ ptg' trace ret,
    Plain.Execute ptg ctx popts iter = Some (ptg', trace, ret) ∧
    ((∃ res, ret = (Some res, None)) ∨ (∃ err, ret = (None, Some err))).
Proof.
  intros Hr%reachable_of_plain Hp.
  destruct (Store.TopologicalSort (Plain.graph ptg)) as [order|err] eqn:Hsort.
  - pose proof (Plain_Execute_sorted ptg ctx popts (Opt.mkExecuteOptions 5 false)
      iter order ltac:(done) Hsort) as Hagree.
    destruct (Opt_Execute_is_Some _ ctx [] iter Hr Hp ltac:(done))
      as [[[tg' trace'] ret'] Hex'].
    pose proof (Opt_Execute_run _ _ _ _ _ _ _ Hr Hp Hex')
      as (layers & n & _ & _ & _ & _ & _ & _ & _ & Hret).
    rewrite Hex' in Hagree.
    destruct (Plain.Execute ptg ctx popts iter) as [[[ptg' trace] ret]|]; [|done].
    destruct Hagree as (_ & _ & Heq & _). subst ret.
    exists ptg', trace, ret'. split; [done|].
    destruct ret' as [[res|] [err|]]; try done; [left|right]; by eexists.
  - rewrite (Plain_Execute_cyclic ptg ctx popts iter err Hsort).
    eexists _, _, _. split; [done|]. right. by eexists.
Qed.
End PlainVariant.

Lemma Plain_Execute_never_panics_witness :
  ∃ ptg' trace ret,
    Plain.Execute abcd_plain (mkContext false) (Plain.mkExecuteOptions 0)
      (map_to_list (Plain.taskLayers abcd_plain)) = Some (ptg', trace, ret).
Proof.
  destruct (Plain_Execute_never_panics abcd_plain (mkContext false)
    (Plain.mkExecuteOptions 0) (map_to_list (Plain.taskLayers abcd_plain)))
    as (ptg' & trace & ret & Hex & _).
  - apply reachable_plain_register. constructor.
  - reflexivity.
  - by exists ptg', trace, ret.
Defined.


(** ** The results of a run *)
Section Dataflow.
Context {V : Type}.
Implicit Types (tg : Opt.TaskGraph V) (res : gmap string V).

(** The outcome of a task depends on the results only through the
    entries of its dependencies. *)
Lemma outcome_inputs ctx (results results' : gmap string V) (task : Task V) :
  (∀ d, d ∈ Depends task → results !! ID d = results' !! ID d) →
  outcome ctx results task = outcome ctx results' task.
Proof.
  intros Hdeps.
  assert (collect_inputs (Depends task) results
    = collect_inputs (Depends task) results') as Heq.
  { apply map_eq. intros k. rewrite !collect_inputs_lookup.
    case_decide as Hk; [|done].
    apply list_elem_of_fmap in Hk as (d & -> & Hd). by apply Hdeps. }
  unfold outcome. by rewrite Heq.
Qed.

(** X17. The results of a run solve the data flow of the graph. On a
    graph a caller can hold, under any iteration order, when [Execute]
    returns results: the results hold an entry for a task exactly when
    the task has a layer, its guard is absent or true, and its work
    function succeeds, on the inputs taken from the returned results
    themselves; the entry is what the work function returned on these
    inputs under the context of the call. *)
Theorem results_solve_dataflow tg ctx options iter tg' trace res id :
  reachable tg → iter ≡ₚ map_to_list (Opt.taskLayers tg) →
  Opt.Execute tg ctx options iter = Some (tg', trace, (Some res, None)) →
  res !! id =
  match Opt.taskLayers tg !! id, Store.vertices (Opt.graph tg) !! id with
  | Some _, Some task =>
    let inputs := collect_inputs (Depends task) res in
    match Condition task, Execute task ctx inputs with
    | Some condition, inl v => if condition inputs then Some v else None
    | None, inl v => Some v
    | _, inr _ => None
    end
  | _, _ => None
  end.
Proof.
  intros Hr Hp Hex. pose proof (reachable_ok _ Hr) as Hok.
  destruct (Opt_Execute_run _ _ _ _ _ _ _ Hr Hp Hex)
    as (layers & n & Hg & Hmem & _ & _ & _ & _ & _ & Hret).
  destruct Hret as (-> & -> & _).
  destruct (group_layers_registry _ _ Hp (ok_nonneg _ _ Hok))
    as (layers' & Hg' & _ & Htotal & _).
  assert (layers' = layers) as -> by congruence.
  set (R := results_before (Opt.graph tg) ctx layers ∅) in *.
  destruct (Opt.taskLayers tg !! id) as [l|] eqn:Hl.
  2:{ apply results_before_lookup_None; [done|].
      intros i layer task _ Hi Hin _. apply (Hmem _ _ id Hi) in Hin. congruence. }
  destruct (Htotal _ _ Hl) as (layer & Hi & Hin).
  destruct (ok_registered _ _ Hok id) as [task Hv]; [by eexists|].
  rewrite Hv.
  pose proof (ok_nonneg _ _ Hok _ _ Hl) as Hnn.
  pose proof (lookup_lt_Some _ _ _ Hi) as Hlt.
  assert (∀ (j : nat) layer', layers !! j = Some layer' → id ∈ layer' →
    j = Z.to_nat l) as Huniq.
  { intros j layer' Hj Hin'. apply (Hmem _ _ id Hj) in Hin'.
    rewrite Hl in Hin'. injection Hin' as ->. lia. }
  assert (outcome ctx (R (Z.to_nat l)) task = outcome ctx (R (length layers)) task)
    as Hout.
  { apply outcome_inputs. intros d Hd. symmetry.
    apply results_before_stable; [lia|].
    intros j layer' Hj Hlook' Hin'.
    pose proof (proj1 (Hmem _ _ _ Hlook') Hin') as Hlk.
    destruct (ok_layers _ _ Hok _ _ Hl) as (task0 & Hv0 & Hinv).
    assert (task0 = task) as -> by congruence.
    destruct (Depends task) as [|d0 ds] eqn:Hdeps; [by apply elem_of_nil in Hd|].
    destruct Hinv as (m & Hm & _ & Hall).
    destruct (Hall d Hd) as (ld & Hld & Hle). rewrite Hlk in Hld.
    injection Hld as <-. lia. }
  assert (R (length layers) !! id = completed (outcome ctx (R (Z.to_nat l)) task))
    as Hres.
  { destruct (completed (outcome ctx (R (Z.to_nat l)) task)) as [v|] eqn:Hc.
    - eapply results_before_completed; try done.
      intros j layer' Hj Hlook Hin'. pose proof (Huniq _ _ Hlook Hin'). lia.
    - apply results_before_lookup_None; [done|].
      intros i layer' task' _ Hi' Hin' Hv'.
      rewrite (Huniq _ _ Hi' Hin').
      assert (task' = task) as -> by congruence. done. }
  rewrite Hres, Hout. unfold outcome. cbn zeta.
  destruct (Condition task) as [condition|];
    [destruct (condition _)|];
    by destruct (Execute task ctx _).
Qed.
End Dataflow.

Lemma results_solve_dataflow_witness :
  ∃ tg' trace res,
    run_once abcd = Some (tg', trace, (Some res, None)) ∧
    res !! "D" = Some "d".
Proof.
  assert (∃ tg' trace res,
    run_once abcd = Some (tg', trace, (Some res, None)))
    as (tg' & trace & res & Hrun).
  { vm_compute. eexists _, _, _. reflexivity. }
  exists tg', trace, res. split; [exact Hrun|].
  refine (results_solve_dataflow abcd (mkContext false) []
    (map_to_list (Opt.taskLayers abcd)) tg' trace res "D" _ _ Hrun).
  - apply reachable_register. constructor.
  - reflexivity.
Defined.


(** ** The errors of [AddTask], and statuses after it *)
Section RegistrationErrors.
Context {V : Type}.
Implicit Types (g : Store.Graph (Task V)) (taskLayers : gmap string Z).
Implicit Types (t task : Task V) (tg : Opt.TaskGraph V).

(** Unless the identifier is taken, the store holds the task after the
    call, whatever the call returns. *)
Lemma add_task_vertices g taskLayers t g' taskLayers' err :
  add_task g taskLayers t = (g', taskLayers', err) →
  is_Some (Store.vertices g !! ID t) ∧ g' = g ∧ taskLayers' = taskLayers ∧
  err = Some (FailedToAddTask Store.ErrVertexAlreadyExists) ∨
  Store.vertices g !! ID t = None ∧
  Store.vertices g' = <[ID t := t]> (Store.vertices g) ∧
  ∀ e, err ≠ Some (FailedToAddTask e).
Proof.
  unfold add_task.
  destruct (Store.AddVertex ID g t) as [g1 [e|]] eqn:Hv.
  { apply AddVertex_err in Hv as (-> & -> & ?). intros [= <- <- <-]. by left. }
  apply AddVertex_ok in Hv as [Hnone ->]. right. split; [done|].
  destruct (Depends t) as [|d ds] eqn:Hdeps.
  - destruct (Store.TopologicalSort _); injection H as <- <- <-; by split.
  - destruct (add_dependencies _ taskLayers (ID t) (d :: ds) (-1))
      as [g2 [m|e]] eqn:Hadd.
    + apply add_dependencies_store in Hadd as [Hvs _].
      destruct (Store.TopologicalSort _); injection H as <- <- <-; by split.
    + pose proof (add_dependencies_store _ _ _ _ _ _ _ Hadd) as [Hvs _].
      apply add_dependencies_inr in Hadd
        as (done & dep & rest & _ & _ & [(e' & -> & _)|(-> & _)]);
        injection H as <- <- <-; by split.
Qed.

(** X18. The errors of [AddTask] and their causes. On a graph a caller
    can hold, an error returned by [AddTask] is one of five: the
    identifier is taken; a declared dependency is not in the store (the
    store reports a missing source); two declared dependencies have the
    same identifier (the store reports an existing edge); a declared
    dependency is in the store without a layer, which includes the task
    itself; or the graph had a cycle before the call. The store never
    reports a missing target. *)
Theorem AddTask_error_causes tg t err :
  reachable tg → (Opt.AddTask tg t).2 = Some err →
  err = FailedToAddTask Store.ErrVertexAlreadyExists ∧
  is_Some (Store.vertices (Opt.graph tg) !! ID t) ∨
  (∃ dep, dep ∈ Depends t ∧
    err = FailedToAddDependency (Store.ErrSourceNotFound (ID dep)) ∧
    Store.vertices (Opt.graph tg) !! ID dep = None ∧ ID dep ≠ ID t) ∨
  err = FailedToAddDependency Store.ErrEdgeAlreadyExists ∧
  ¬ NoDup (ID <$> Depends t) ∨
  (∃ dep, dep ∈ Depends t ∧
    err = DependencyNotInLayerMap (ID dep) ∧
    Opt.taskLayers tg !! ID dep = None ∧
    (ID dep = ID t ∨ is_Some (Store.vertices (Opt.graph tg) !! ID dep))) ∨
  err = InvalidTaskGraph Store.ErrCycle ∧
  Opt.GetExecutionOrder tg = inr Store.ErrCycle.
Proof.
  intros Hr Herr. pose proof (reachable_ok _ Hr) as Hok.
  rewrite Opt_AddTask_add_task in Herr. cbn [snd] in Herr.
  destruct (add_task (Opt.graph tg) (Opt.taskLayers tg) t) as [[g' l'] err'] eqn:Hadd.
  cbn [snd] in Herr. subst err'.
  destruct err as [e|e|dep|e].
  - left. apply add_task_vertices in Hadd as [(? & _ & _ & [= ->])|(_ & _ & Hne)];
      [done|by destruct (Hne e)].
  - right. unfold add_task in Hadd.
    destruct (Store.AddVertex ID (Opt.graph tg) t) as [g1 [e1|]] eqn:Hv; [done|].
    apply AddVertex_ok in Hv as [Hnone ->].
    destruct (Depends t) as [|d ds] eqn:Hdeps.
    { by destruct (Store.TopologicalSort _). }
    destruct (add_dependencies _ _ (ID t) (d :: ds) (-1)) as [g2 [m|e2]] eqn:Hdep.
    { by destruct (Store.TopologicalSort _). }
    injection Hadd as <- <- ->.
    pose proof (add_dependencies_edges _ _ _ _ _ _ _ Hdep)
      as (done & dep & rest & Hsplit & Hdone & Hes & Hcase).
    cbn [Store.vertices Store.edges] in Hes, Hcase.
    assert (dep ∈ d :: ds) as Hdin.
    { rewrite Hsplit. apply elem_of_app. right. by left. }
    destruct Hcase as [(-> & Hsrc)|[(-> & Htgt)|(-> & Hin)]].
    + left. exists dep. split; [done|]. split; [done|].
      destruct (decide (ID dep = ID t)) as [Heq|Hne].
      * rewrite Heq, lookup_insert_eq in Hsrc. done.
      * rewrite lookup_insert_ne in Hsrc by done. done.
    + by rewrite lookup_insert_eq in Htgt.
    + right. left. split; [done|]. intros Hnd.
      rewrite Hes in Hin. apply elem_of_app in Hin as [Hin|Hin].
      * destruct (ok_edges _ _ Hok _ _ Hin) as [_ [x Hx]]. congruence.
      * apply list_elem_of_fmap in Hin as (d' & [= Hid] & Hd').
        rewrite Hsplit, fmap_app, fmap_cons in Hnd.
        apply NoDup_app in Hnd as (_ & Hdisj & _).
        apply (Hdisj (ID d')).
        -- apply list_elem_of_fmap. by exists d'.
        -- rewrite <- Hid. by left.
  - right. right. right. left. unfold add_task in Hadd.
    destruct (Store.AddVertex ID (Opt.graph tg) t) as [g1 [e1|]] eqn:Hv; [done|].
    apply AddVertex_ok in Hv as [Hnone ->].
    destruct (Depends t) as [|d ds] eqn:Hdeps.
    { by destruct (Store.TopologicalSort _). }
    destruct (add_dependencies _ _ (ID t) (d :: ds) (-1)) as [g2 [m|e2]] eqn:Hdep.
    { by destruct (Store.TopologicalSort _). }
    injection Hadd as <- <- ->.
    pose proof (add_dependencies_edges _ _ _ _ _ _ _ Hdep)
      as (done & dep' & rest & Hsplit & Hdone & -> & Hlay & Hvd & _).
    exists dep'. split_and!; [|done|done|].
    { rewrite Hsplit. apply elem_of_app. right. by left. }
    cbn in Hvd. destruct (decide (ID dep' = ID t)) as [Heq|Hne]; [by left|right].
    by rewrite lookup_insert_ne in Hvd.
  - right. right. right. right.
    pose proof Hadd as Hadd0.
    apply add_task_invalid in Hadd as (Hsort & Hnone & Hvs & Hes & l & Hl).
    apply StoreFacts.TopologicalSort_inr in Hsort as [-> Hcyc]. split; [done|].
    unfold Opt.GetExecutionOrder.
    destruct (Store.TopologicalSort (Opt.graph tg)) as [order|e] eqn:Hs.
    + exfalso. apply StoreFacts.TopologicalSort_inl in Hs; [|apply Hok].
      by destruct (add_task_closes_cycle _ _ _ _ _ _ _ Hok Hs Hadd0 Hcyc) as [? _].
    + by apply StoreFacts.TopologicalSort_inr in Hs as [-> _].
Qed.
End RegistrationErrors.

Section StatusAfterAddTask.
Context {V : Type}.
Implicit Types (t : Task V) (tg : Opt.TaskGraph V).

(** X19. [AddTask] and the statuses. After a call of [AddTask], failed
    or not, every identifier the store held before reports the status it
    reported before; the identifier of the task, if it was new, reports
    the status the caller gave the task ([AddTask] does not set it to
    pending), even when the call failed after the vertex was inserted;
    every other identifier is still reported as not found. *)
Theorem GetTaskStatus_after_AddTask tg t id :
  Opt.GetTaskStatus (Opt.AddTask tg t).1 id =
  match Store.vertices (Opt.graph tg) !! id with
  | Some _ => Opt.GetTaskStatus tg id
  | None =>
    if decide (id = ID t) then (Some (Status t), None)
      else Opt.GetTaskStatus tg id
  end.
Proof.
  rewrite Opt_AddTask_add_task. cbn [fst].
  destruct (add_task (Opt.graph tg) (Opt.taskLayers tg) t) as [[g' l'] err] eqn:Hadd.
  unfold Opt.GetTaskStatus, Store.Vertex. cbn [fst Opt.graph].
  apply add_task_vertices in Hadd as [(Hsome & -> & _)|(Hnone & -> & _)].
  - destruct (Store.vertices (Opt.graph tg) !! id) eqn:Hid; [done|].
    destruct (decide (id = ID t)) as [->|Hne]; [|done].
    rewrite Hid in Hsome. by destruct Hsome.
  - destruct (decide (id = ID t)) as [->|Hne].
    + by rewrite lookup_insert_eq, Hnone.
    + rewrite lookup_insert_ne by done.
      by destruct (Store.vertices (Opt.graph tg) !! id).
Qed.
End StatusAfterAddTask.

Lemma AddTask_error_causes_witness :
  ∃ dep, dep ∈ Depends orphan ∧
  (Opt.AddTask abcd (new_task "E" (succeed "e") (Depends orphan))).2 =
  Some (FailedToAddDependency (Store.ErrSourceNotFound (ID dep))).
Proof.
  destruct (AddTask_error_causes abcd
    (new_task "E" (succeed "e") (Depends orphan))
    (FailedToAddDependency (Store.ErrSourceNotFound "X")))
    as [[[=] _]|[(dep & Hin & [= Heq] & _)|[[[=] _]|[(dep & _ & [=] & _)|[[=] _]]]]].
  - apply reachable_register. constructor.
  - reflexivity.
  - exists dep. split; [exact Hin|]. rewrite <- Heq. reflexivity.
Defined.


(** ** Statuses are written, never read *)
Section StatusBlind.
Context {V : Type}.
Implicit Types (g : Store.Graph (Task V)) (s : LayerState V).
Implicit Types (tg : Opt.TaskGraph V).

Lemma assign_status_both taskID st g g2 :
  status_only g g2 →
  status_only (assign_status taskID st g) (assign_status taskID st g2).
Proof.
  intros Hso.
  eapply status_only_trans; [|apply assign_status_only].
  eapply status_only_trans; [|exact Hso].
  apply status_only_sym, assign_status_only.
Qed.

Lemma run_layer_status_blind layer (results : gmap string V) s s2 :
  status_only (ls_graph s) (ls_graph s2) →
  ls_results s = ls_results s2 → ls_err s = ls_err s2 →
  ls_ctx s = ls_ctx s2 → ls_trace s = ls_trace s2 →
  match run_layer layer results s, run_layer layer results s2 with
  | Some s', Some s2' =>
    status_only (ls_graph s') (ls_graph s2') ∧
    ls_results s' = ls_results s2' ∧ ls_err s' = ls_err s2' ∧
    ls_ctx s' = ls_ctx s2' ∧ ls_trace s' = ls_trace s2'
  | None, None => True
  | _, _ => False
  end.
Proof.
  revert s s2. induction layer as [|id layer IH]; intros s s2 Hso Hr He Hc Ht.
  { cbn. done. }
  cbn [run_layer]. unfold Store.Vertex.
  pose proof (proj2 Hso id) as Hid.
  destruct Hid as [task task2 Hsame|]; [|done].
  apply IH; rewrite !goroutine_outcome; cbn [ls_graph ls_results ls_err ls_ctx ls_trace];
    rewrite <- ?Hc, <- ?Hr, <- ?He, <- ?Ht,
    <- ?(same_task_outcome (ls_ctx s) results task task2 Hsame),
    <- ?(same_task_events id (ls_ctx s) results task task2 Hsame); try done.
  by apply assign_status_both.
Qed.

Lemma executeLayer_status_blind tg tg2 ctx layer results :
  status_only (Opt.graph tg) (Opt.graph tg2) →
  Opt.taskLayers tg = Opt.taskLayers tg2 → Opt.opts tg = Opt.opts tg2 →
  match Opt.executeLayer tg ctx layer results,
    Opt.executeLayer tg2 ctx layer results with
  | Some (tg', events, ret), Some (tg2', events2, ret2) =>
    status_only (Opt.graph tg') (Opt.graph tg2') ∧
    Opt.taskLayers tg' = Opt.taskLayers tg2' ∧ Opt.opts tg' = Opt.opts tg2' ∧
    events = events2 ∧ ret = ret2
  | None, None => True
  | _, _ => False
  end.
Proof.
  intros Hso Hl Ho. unfold Opt.executeLayer. rewrite <- Ho, <- Hl.
  destruct (go_blocks _ _); [done|].
  set (s0 := mkLayerState (Opt.graph tg) _ _ _ _).
  set (s2 := mkLayerState (Opt.graph tg2) _ _ _ _).
  pose proof (run_layer_status_blind layer results s0 s2 Hso eq_refl eq_refl
    eq_refl eq_refl) as Hrun.
  destruct (run_layer layer results s0) as [s'|],
    (run_layer layer results s2) as [s2'|]; try done.
  destruct Hrun as (? & Hr & He & ? & ?). cbn.
  split_and!; [done..|]. unfold wait. by rewrite Hr, He.
Qed.

Lemma execute_layers_status_blind tg tg2 ctx layers results trace :
  status_only (Opt.graph tg) (Opt.graph tg2) →
  Opt.taskLayers tg = Opt.taskLayers tg2 → Opt.opts tg = Opt.opts tg2 →
  match Opt.execute_layers tg ctx layers results trace,
    Opt.execute_layers tg2 ctx layers results trace with
  | Some (tg', trace', ret), Some (tg2', trace2, ret2) =>
    status_only (Opt.graph tg') (Opt.graph tg2') ∧ trace' = trace2 ∧ ret = ret2
  | None, None => True
  | _, _ => False
  end.
Proof.
  revert tg tg2 results trace.
  induction layers as [|layer layers IH]; intros tg tg2 results trace Hso Hl Ho.
  { cbn. done. }
  cbn [Opt.execute_layers].
  pose proof (executeLayer_status_blind tg tg2 ctx layer results Hso Hl Ho) as Hlayer.
  destruct (Opt.executeLayer tg ctx layer results) as [[[tg1 ev] ret]|],
    (Opt.executeLayer tg2 ctx layer results) as [[[tg21 ev2] ret2]|]; try done.
  destruct Hlayer as (Hso1 & Hl1 & Ho1 & <- & <-).
  destruct ret as [lr [err|]]; [done|]. by apply IH.
Qed.

(** Under the sequential schedule, two graphs that differ only in the
    statuses of their tasks, run under the same options in force and
    the same iteration order, have the same events and return the
    same. *)
Lemma Opt_Execute_status_blind tg tg2 ctx options options2 iter :
  status_only (Opt.graph tg) (Opt.graph tg2) →
  Opt.taskLayers tg = Opt.taskLayers tg2 →
  foldl (λ o (option : Opt.ExecuteOption), option o) (Opt.opts tg) options =
  foldl (λ o (option : Opt.ExecuteOption), option o) (Opt.opts tg2) options2 →
  match Opt.Execute tg ctx options iter, Opt.Execute tg2 ctx options2 iter with
  | Some (tg', trace, ret), Some (tg2', trace2, ret2) =>
    trace = trace2 ∧ ret = ret2 ∧ status_only (Opt.graph tg') (Opt.graph tg2')
  | None, None => True
  | _, _ => False
  end.
Proof.
  intros Hso Hl Ho. unfold Opt.Execute. cbn zeta.
  cbn [Opt.opts Opt.taskLayers]. rewrite <- Ho, <- Hl.
  destruct (group_layers iter _) as [layers|]; [|done].
  set (o := foldl _ _ _).
  pose proof (execute_layers_status_blind
    (Opt.mkTaskGraph (Opt.graph tg) (Opt.taskLayers tg) o)
    (Opt.mkTaskGraph (Opt.graph tg2) (Opt.taskLayers tg) o) ctx layers ∅
    ((if Opt.EnableDebugLog o then [EvLogTaskLayers (Opt.taskLayers tg)] else []) ++
    (if Opt.EnableDebugLog o then [EvLogLayers layers] else []))
    Hso eq_refl eq_refl) as Hrun.
  destruct (Opt.execute_layers _ ctx layers ∅ _) as [[[tg' trace] ret]|],
    (Opt.execute_layers _ ctx layers ∅ _) as [[[tg2' trace2] ret2]|]; try done.
  by destruct Hrun as (? & ? & ?).
Qed.
End StatusBlind.



(** ** The order of the events of a run *)
Section EventOrder.
Context {V : Type}.
Implicit Types (tg : Opt.TaskGraph V).

(** The events of the loop of [Execute], layer by layer: the events of
    the call for layer [i] are about tasks of layer [i]. *)
Lemma Opt_execute_layers_trace tg ctx layers results trace tg' trace' ret :
  Opt.execute_layers tg ctx layers results trace = Some (tg', trace', ret) →
  ∃ evs : list (list (Event V)),
    trace' = trace ++ concat evs ∧
    ∀ (i : nat) ev e id, evs !! i = Some ev → e ∈ ev → event_task e = Some id →
    ∃ layer, layers !! i = Some layer ∧ id ∈ layer.
Proof.
  revert tg results trace.
  induction layers as [|layer layers IH]; intros tg results trace Hex.
  { cbn in Hex. injection Hex as <- <- <-. exists []. split.
    - cbn. by rewrite app_nil_r.
    - intros i ev e id Hi. by rewrite lookup_nil in Hi. }
  cbn [Opt.execute_layers] in Hex.
  destruct (Opt.executeLayer tg ctx layer results)
    as [[[tg1 ev1] [lr [err|]]]|] eqn:Hl; [| |done].
  - injection Hex as <- <- <-.
    apply Opt_executeLayer_call in Hl as (_ & _ & _ & (ev & -> & Hev) & _).
    exists [EvSetLimit (Opt.WorkerCount (Opt.opts tg)) :: ev]. split.
    { cbn. by rewrite app_nil_r. }
    intros i ev' e id Hi He Hid. destruct i as [|i]; [|by destruct i].
    injection Hi as <-. apply elem_of_cons in He as [->|He]; [done|].
    destruct (Hev _ He) as (id' & task & ctx' & Hin & _ & Hte & _).
    rewrite (task_events_task _ _ _ _ _ Hte) in Hid. injection Hid as <-.
    by exists layer.
  - apply Opt_executeLayer_call in Hl as (_ & _ & _ & (ev & -> & Hev) & _).
    apply IH in Hex as (evs & -> & Hevs).
    exists ((EvSetLimit (Opt.WorkerCount (Opt.opts tg)) :: ev) :: evs). split.
    { cbn [concat]. by rewrite <- app_assoc. }
    intros i ev' e id Hi He Hid. destruct i as [|i].
    + injection Hi as <-. apply elem_of_cons in He as [->|He]; [done|].
      destruct (Hev _ He) as (id' & task & ctx' & Hin & _ & Hte & _).
      rewrite (task_events_task _ _ _ _ _ Hte) in Hid. injection Hid as <-.
      by exists layer.
    + by apply (Hevs i ev' e id).
Qed.

Lemma elem_of_concat_lookup {A} (xss : list (list A)) y :
  y ∈ concat xss → ∃ (j : nat) ys, xss !! j = Some ys ∧ y ∈ ys.
Proof.
  induction xss as [|xs xss IH]; cbn [concat]; intros Hy.
  { by apply elem_of_nil in Hy. }
  apply elem_of_app in Hy as [Hy|Hy].
  - by exists 0%nat, xs.
  - destruct (IH Hy) as (j & ys & Hj & Hin). by exists (S j), ys.
Qed.

Lemma concat_lookup_order {A} (xss : list (list A)) (p q : nat) x y :
  concat xss !! p = Some x → concat xss !! q = Some y → (p < q)%nat →
  ∃ (i j : nat) xs ys,
    (i ≤ j)%nat ∧ xss !! i = Some xs ∧ x ∈ xs ∧ xss !! j = Some ys ∧ y ∈ ys.
Proof.
  revert p q. induction xss as [|xs xss IH]; intros p q Hp Hq Hlt.
  { cbn in Hp. by rewrite lookup_nil in Hp. }
  cbn [concat] in Hp, Hq.
  destruct (decide (p < length xs)%nat) as [Hin|Hout].
  - rewrite lookup_app_l in Hp by done.
    apply list_elem_of_lookup_2 in Hp.
    apply list_elem_of_lookup_2 in Hq.
    apply elem_of_app in Hq as [Hq|Hq].
    + exists 0%nat, 0%nat, xs, xs. by split_and!.
    + apply elem_of_concat_lookup in Hq as (j & ys & Hj & Hy).
      exists 0%nat, (S j), xs, ys. split_and!; [lia|done..].
  - rewrite lookup_app_r in Hp by lia. rewrite lookup_app_r in Hq by lia.
    destruct (IH _ _ Hp Hq) as (i & j & xs' & ys & Hle & Hi & Hx & Hj & Hy); [lia|].
    exists (S i), (S j), xs', ys. split_and!; [lia|done..].
Qed.

(** X22. The layers run one after the other. In the events of a run on
    a graph a caller can hold, under any iteration order, an event about
    a task never comes before an event about a task of a lower layer;
    so every guard call, work function call and status assignment of a
    declared dependency of a task comes before every one of the task
    itself. *)
Theorem layers_run_in_order tg ctx options iter tg' trace ret :
  reachable tg → iter ≡ₚ map_to_list (Opt.taskLayers tg) →
  Opt.Execute tg ctx options iter = Some (tg', trace, ret) →
  (∀ (p q : nat) e e' id id' l l',
      trace !! p = Some e → trace !! q = Some e' → (p < q)%nat →
      event_task e = Some id → event_task e' = Some id' →
      Opt.taskLayers tg !! id = Some l → Opt.taskLayers tg !! id' = Some l' →
      l ≤ l') ∧
  (∀ (p q : nat) e e' id task d,
      Store.vertices (Opt.graph tg) !! id = Some task → d ∈ Depends task →
      trace !! p = Some e → event_task e = Some id →
      trace !! q = Some e' → event_task e' = Some (ID d) →
      (q < p)%nat).
Proof.
  intros Hr Hp Hex. pose proof (reachable_ok _ Hr) as Hok.
  destruct (Opt_Execute_run _ _ _ _ _ _ _ Hr Hp Hex)
    as (layers & n & Hg & Hmem & _ & Hev & _).
  assert (∀ (p q : nat) e e' id id' l l',
    trace !! p = Some e → trace !! q = Some e' → (p < q)%nat →
    event_task e = Some id → event_task e' = Some id' →
    Opt.taskLayers tg !! id = Some l → Opt.taskLayers tg !! id' = Some l' →
    l ≤ l') as Hsorted.
  { unfold Opt.Execute in Hex. cbn zeta in Hex. rewrite Hg in Hex.
    apply Opt_execute_layers_trace in Hex as (evs & -> & Hevs).
    cbn [Opt.opts Opt.taskLayers] in *.
    set (o := foldl _ _ _).
    set (logs := (if Opt.EnableDebugLog o
      then [EvLogTaskLayers (Opt.taskLayers tg)] else []) ++
      (if Opt.EnableDebugLog o then [EvLogLayers layers] else [])).
    assert (∀ e, e ∈ logs → event_task e = None) as Hlogs.
    { intros e [He|He]%elem_of_app; apply elem_of_log in He; by subst e. }
    intros p q e e' id id' l l' Hpe Hqe Hlt Hid Hid' Hl Hl'.
    assert (∀ (k : nat) x idx, (logs ++ concat evs) !! k = Some x →
      event_task x = Some idx →
      (length logs ≤ k)%nat ∧ concat evs !! (k - length logs)%nat = Some x) as Hpos.
    { intros k x idx Hk Hx.
      destruct (decide (k < length logs)%nat) as [Hin|Hout].
      - rewrite lookup_app_l in Hk by done.
        apply list_elem_of_lookup_2, Hlogs in Hk. congruence.
      - rewrite lookup_app_r in Hk by lia. split; [lia|done]. }
    destruct (Hpos _ _ _ Hpe Hid) as [Hple Hpe'].
    destruct (Hpos _ _ _ Hqe Hid') as [Hqle Hqe'].
    destruct (concat_lookup_order evs _ _ _ _ Hpe' Hqe')
      as (i & j & xs & ys & Hle & Hi & Hx & Hj & Hy); [lia|].
    destruct (Hevs _ _ _ _ Hi Hx Hid) as (layer & Hli & Hin).
    destruct (Hevs _ _ _ _ Hj Hy Hid') as (layer' & Hlj & Hin').
    apply (Hmem _ _ _ Hli) in Hin. apply (Hmem _ _ _ Hlj) in Hin'.
    rewrite Hl in Hin. rewrite Hl' in Hin'.
    injection Hin as ->. injection Hin' as ->. lia. }
  split; [exact Hsorted|].
  intros p q e e' id task d Hv Hd Hpe Hid Hqe Hidd.
  apply list_elem_of_lookup_2 in Hpe as Hein.
  apply list_elem_of_lookup_2 in Hqe as Hein'.
  destruct (Hev _ _ Hein Hid) as (i & layer & _ & _ & _ & Hi & Hin & _).
  destruct (Hev _ _ Hein' Hidd) as (j & layer' & _ & _ & _ & Hj & Hin' & _).
  pose proof (proj1 (Hmem _ _ _ Hi) Hin) as Hl.
  pose proof (proj1 (Hmem _ _ _ Hj) Hin') as Hl'.
  destruct (ok_layers _ _ Hok _ _ Hl) as (task0 & Hv0 & Hinv).
  assert (task0 = task) as -> by congruence.
  destruct (Depends task) as [|d0 ds]; [by apply elem_of_nil in Hd|].
  destruct Hinv as (m & Hm & _ & Hall).
  destruct (Hall d Hd) as (ld & Hld & Hlem).
  rewrite Hl' in Hld. injection Hld as <-.
  destruct (Nat.lt_trichotomy q p) as [?|[->|Hlt]]; [done| |].
  - exfalso. assert (e = e') as -> by congruence.
    rewrite Hid in Hidd. injection Hidd as Heq.
    rewrite Heq, Hl' in Hl. injection Hl as Heq'. lia.
  - exfalso.
    pose proof (Hsorted _ _ _ _ _ _ _ _ Hpe Hqe Hlt Hid Hidd Hl Hl'). lia.
Qed.
End EventOrder.

Lemma layers_run_in_order_witness :
  ∃ tg' trace ret,
    run_once abcd = Some (tg', trace, ret) ∧
    ∀ (p q : nat) e e',
      trace !! p = Some e → event_task e = Some "D" →
      trace !! q = Some e' → event_task e' = Some "B" →
      (q < p)%nat.
Proof.
  assert (∃ tg' trace ret, run_once abcd = Some (tg', trace, ret))
    as (tg' & trace & ret & Hrun).
  { vm_compute. eexists _, _, _. reflexivity. }
  exists tg', trace, ret. split; [exact Hrun|].
  intros p q e e'.
  refine (proj2 (layers_run_in_order abcd (mkContext false) []
    (map_to_list (Opt.taskLayers abcd)) tg' trace ret _ _ Hrun) p q e e' "D"
    (diamond_D (succeed "a") (succeed "b") (succeed "c") (succeed "d"))
    (diamond_B (succeed "a") (succeed "b")) _ _).
  - apply reachable_register. constructor.
  - reflexivity.
  - reflexivity.
  - apply list_elem_of_here.
Defined.


(** * Blocked runs, later calls, and runs compared *)

Section LaterCalls.
Context {V : Type}.
Implicit Types (t task : Task V) (tg : Opt.TaskGraph V).

(** A vertex of the store stays one through every later call. *)
Lemma later_vertex tg tg' id :
  later tg tg' →
  is_Some (Store.vertices (Opt.graph tg) !! id) →
  is_Some (Store.vertices (Opt.graph tg') !! id).
Proof.
  intros Hl Hid.
  induction Hl as [|tg' task Hl IH|tg' ctx options iter tg'' trace ret Hl IH Hp Hex].
  - done.
  - rewrite Opt_AddTask_add_task. cbn [fst Opt.graph].
    destruct (add_task (Opt.graph tg') (Opt.taskLayers tg') task)
      as [[g1 l1] err] eqn:Hadd. cbn [fst].
    apply add_task_vertices in Hadd as [(_ & -> & _)|(_ & -> & _)]; [done|].
    destruct (decide (id = ID task)) as [->|Hne].
    + rewrite lookup_insert_eq. by eexists.
    + by rewrite lookup_insert_ne.
  - apply Opt_Execute_graph in Hex as (Hso & _).
    destruct IH as [x Hx].
    destruct (status_only_lookup _ _ _ _ Hso Hx) as (x' & -> & _). by eexists.
Qed.

(** X4. An identifier is accepted once. Whatever an [AddTask] of a
    task returned, and whatever calls of [AddTask] and [Execute]
    followed it, any later [AddTask] of a task with the same identifier
    fails with the duplicate-vertex error of the store and changes
    nothing. In particular a registration that failed half-way cannot
    be repeated, not even after the missing dependency was
    registered. *)
Theorem AddTask_once_per_identifier tg t tg' t' :
  later (Opt.AddTask tg t).1 tg' → ID t' = ID t →
  Opt.AddTask tg' t' =
  (tg', Some (FailedToAddTask Store.ErrVertexAlreadyExists)).
Proof.
  intros Hl Hid.
  destruct (later_vertex _ _ (ID t) Hl) as [x Hx].
  { rewrite Opt_AddTask_add_task. cbn [fst Opt.graph]. apply add_task_vertex. }
  unfold Opt.AddTask, Store.AddVertex. rewrite Hid, Hx. by destruct tg'.
Qed.
End LaterCalls.

Lemma AddTask_once_per_identifier_witness :
  Opt.AddTask (register [orphan; new_task "X" (succeed "x") []] Opt.NewTaskGraph)
    orphan =
  (register [orphan; new_task "X" (succeed "x") []] Opt.NewTaskGraph,
    Some (FailedToAddTask Store.ErrVertexAlreadyExists)).
Proof.
  apply (AddTask_once_per_identifier Opt.NewTaskGraph orphan).
  - apply (later_AddTask _ _ (new_task "X" (succeed "x") [])). apply later_now.
  - reflexivity.
Defined.

Section BlockedRuns.
Context {V : Type}.
Implicit Types (tg : Opt.TaskGraph V).

(** X1. When [Execute] returns. On every graph a caller can hold, and
    under every iteration order of the layer map, a call of [Execute]
    fails to return in one case only: the worker count in force (the
    stored one after the options of the call) is zero and some task has
    a layer, so that the first [g.Go] blocks for ever. In every other
    case the call returns: the nil dereference of [executeLayer] and
    the index panic of the layer grouping cannot happen. What it
    returns is either a results map and no error, or no results map and
    an error. *)
Theorem Execute_returns_unless_blocked tg ctx options iter :
  reachable tg → iter ≡ₚ map_to_list (Opt.taskLayers tg) →
  (Opt.Execute tg ctx options iter = None ↔
    Opt.WorkerCount
      (foldl (λ o (option : Opt.ExecuteOption), option o) (Opt.opts tg) options) = 0 ∧
    Opt.taskLayers tg ≠ ∅) ∧
  (∀ tg' trace ret, Opt.Execute tg ctx options iter = Some (tg', trace, ret) →
    (∃ res, ret = (Some res, None)) ∨ (∃ err, ret = (None, Some err))).
Proof.
  intros Hr Hp. pose proof (reachable_ok _ Hr) as Hok. split.
  - split.
    + intros Hnone.
      destruct (decide (Opt.WorkerCount
        (foldl (λ o (option : Opt.ExecuteOption), option o) (Opt.opts tg) options) = 0))
        as [Hz|Hnz].
      * split; [done|]. intros Hempty.
        rewrite Hempty, map_to_list_empty in Hp.
        apply Permutation_nil_r in Hp. subst iter.
        unfold Opt.Execute in Hnone. cbn in Hnone. done.
      * destruct (Opt_Execute_is_Some tg ctx options iter Hr Hp Hnz) as [x Hx].
        congruence.
    + intros [Hz Hne].
      destruct (group_layers_registry _ _ Hp (ok_nonneg _ _ Hok))
        as (layers & Hg & Hmem & _ & _ & Hlen).
      destruct (map_choose _ Hne) as (id0 & l0 & Hl0).
      destruct (layers_dense _ _ id0 l0 0 Hok Hl0) as [id Hid].
      { pose proof (ok_nonneg _ _ Hok _ _ Hl0). lia. }
      destruct layers as [|layer layers].
      { cbn in Hlen. pose proof (proj1 (max_layer_spec iter)). lia. }
      assert (id ∈ layer) as Hin by (by apply (Hmem 0%nat layer id)).
      unfold Opt.Execute. cbn zeta. rewrite Hg.
      cbn [Opt.execute_layers]. unfold Opt.executeLayer.
      cbn [Opt.opts]. rewrite Hz.
      destruct layer as [|id1 layer]; [by apply elem_of_nil in Hin|]. done.
  - intros tg' trace ret Hex.
    destruct (Opt_Execute_run _ _ _ _ _ _ _ Hr Hp Hex) as (layers & n & Hrun).
    destruct Hrun as (_ & _ & _ & _ & _ & _ & _ & Hret).
    destruct ret as [[res|] [err|]]; try done; [left|right]; by eexists.
Qed.
End BlockedRuns.

Lemma Execute_returns_unless_blocked_witness :
  (∃ tg' trace ret, run_once abcd = Some (tg', trace, ret)) ∧
  Opt.Execute abcd (mkContext false) [λ o, Opt.mkExecuteOptions 0 false]
    (map_to_list (Opt.taskLayers abcd)) = None.
Proof.
  destruct (Execute_returns_unless_blocked abcd (mkContext false) []
    (map_to_list (Opt.taskLayers abcd))) as [Hnone _].
  { apply reachable_register. constructor. }
  { reflexivity. }
  destruct (Execute_returns_unless_blocked abcd (mkContext false)
    [λ o, Opt.mkExecuteOptions 0 false]
    (map_to_list (Opt.taskLayers abcd))) as [Hblocked _].
  { apply reachable_register. constructor. }
  { reflexivity. }
  split.
  - unfold run_once.
    destruct (Opt.Execute abcd (mkContext false) [] _) as [[[tg' trace] ret]|] eqn:Hrun.
    + by exists tg', trace, ret.
    + exfalso. destruct (proj1 Hnone eq_refl) as [Hz _]. vm_compute in Hz. discriminate.
  - apply Hblocked. split; [reflexivity|]. vm_compute. discriminate.
Defined.

Section RunsCompared.
Context {V : Type}.
Implicit Types (tg : Opt.TaskGraph V).

Lemma set_Status_same_task st (task task2 : Task V) :
  same_task task task2 → set_Status st task = set_Status st task2.
Proof. intros (Hid & He & Hd & Hc). unfold set_Status. by rewrite Hid, He, Hd, Hc. Qed.

(** Two runs, under any two iteration orders and any options, of two
    graphs a caller can hold that differ only in the statuses of their
    tasks: both return results or both return an error; the results are
    equal and the tasks with a layer are left equal; the errors are
    those of tasks of one layer. *)
Lemma Opt_runs_agree tg tg2 ctx options options2 iter iter2
    tg1' trace1 ret1 tg2' trace2 ret2 :
  reachable tg → reachable tg2 →
  status_only (Opt.graph tg) (Opt.graph tg2) →
  Opt.taskLayers tg2 = Opt.taskLayers tg →
  iter ≡ₚ map_to_list (Opt.taskLayers tg) →
  iter2 ≡ₚ map_to_list (Opt.taskLayers tg) →
  Opt.Execute tg ctx options iter = Some (tg1', trace1, ret1) →
  Opt.Execute tg2 ctx options2 iter2 = Some (tg2', trace2, ret2) →
  match ret1, ret2 with
  | (Some res1, None), (Some res2, None) =>
    res1 = res2 ∧
    ∀ id, is_Some (Opt.taskLayers tg !! id) →
    Store.vertices (Opt.graph tg1') !! id = Store.vertices (Opt.graph tg2') !! id
  | (None, Some err1), (None, Some err2) =>
    ∃ id1 e1 id2 e2 l,
      err1 = task_failed id1 e1 ∧ err2 = task_failed id2 e2 ∧
      Opt.taskLayers tg !! id1 = Some l ∧ Opt.taskLayers tg !! id2 = Some l
  | _, _ => False
  end.
Proof.
  intros Hr Hr2 Hso Hlayers Hp Hp2 Hex1 Hex2.
  pose proof (reachable_ok _ Hr) as Hok.
  assert (iter2 ≡ₚ map_to_list (Opt.taskLayers tg2)) as Hp2' by (by rewrite Hlayers).
  destruct (Opt_Execute_run _ _ _ _ _ _ _ Hr Hp Hex1)
    as (layers & n1 & Hg & Hmem & _ & _ & _ & _ & Hbefore1 & Hret1).
  destruct (Opt_Execute_run _ _ _ _ _ _ _ Hr2 Hp2' Hex2)
    as (layers' & n2 & Hg' & Hmem' & _ & _ & _ & _ & Hbefore2 & Hret2).
  rewrite Hlayers in Hmem'.
  assert (Forall2 (≡ₚ) layers layers') as Hperm.
  { apply (group_layers_perm iter iter2); [by rewrite Hp, Hp2| |done|done].
    intros [k l] Hin. rewrite Hp in Hin. apply elem_of_map_to_list in Hin.
    by apply (ok_nonneg _ _ Hok k). }
  pose proof (Forall2_length _ _ _ Hperm) as Hlen.
  set (R := results_before (Opt.graph tg) ctx layers ∅) in *.
  assert (∀ i, results_before (Opt.graph tg2) ctx layers' ∅ i = R i) as HR.
  { intros i. rewrite (results_before_status_only _ _ _ _ _ _ Hso).
    symmetry. by apply results_before_perm. }
  assert (∀ (i : nat) layer id, layers !! i = Some layer → id ∈ layer →
    ∃ layer', layers' !! i = Some layer' ∧ id ∈ layer') as H12.
  { intros i layer id Hi Hin.
    destruct (Forall2_lookup_l _ _ _ _ _ Hperm Hi) as (layer' & Hi' & Hpi).
    exists layer'. split; [done|]. by rewrite <- Hpi. }
  assert (∀ (i : nat) layer' id, layers' !! i = Some layer' → id ∈ layer' →
    ∃ layer, layers !! i = Some layer ∧ id ∈ layer) as H21.
  { intros i layer' id Hi' Hin.
    destruct (Forall2_lookup_r _ _ _ _ _ Hperm Hi') as (layer & Hi & Hpi).
    exists layer. split; [done|]. by rewrite Hpi. }
  (* the task a graph holds, seen from the other graph *)
  assert (∀ id task, Store.vertices (Opt.graph tg) !! id = Some task →
    ∃ task2, Store.vertices (Opt.graph tg2) !! id = Some task2 ∧
    same_task task task2) as Hto2.
  { intros id task Hv. by apply (status_only_lookup _ _ _ _ Hso). }
  assert (∀ id task2, Store.vertices (Opt.graph tg2) !! id = Some task2 →
    ∃ task, Store.vertices (Opt.graph tg) !! id = Some task ∧
    same_task task task2) as Hto1.
  { intros id task2 Hv2.
    destruct (status_only_lookup _ _ _ _ (status_only_sym _ _ Hso) Hv2)
      as (task & Hv & (? & ? & ? & ?)).
    exists task. split; [done|]. by repeat split. }
  destruct ret1 as [[res1|] [err1|]]; try done;
    destruct ret2 as [[res2|] [err2|]]; try done.
  - (* both return results *)
    destruct Hret1 as (-> & -> & _). destruct Hret2 as (-> & -> & _).
    split; [by rewrite HR, Hlen|].
    destruct (group_layers_registry _ _ Hp (ok_nonneg _ _ Hok))
      as (l1 & Hg1 & _ & Htotal & Hnd & _).
    assert (l1 = layers) as -> by congruence.
    destruct (group_layers_registry _ _ Hp2 (ok_nonneg _ _ Hok))
      as (l2 & Hg2 & _ & Htotal' & Hnd' & _).
    assert (l2 = layers') as -> by congruence.
    assert (∀ ls : list (list string), (∀ (i : nat) layer id, ls !! i = Some layer →
      (id ∈ layer ↔ Opt.taskLayers tg !! id = Some (Z.of_nat i))) →
      ∀ (i j : nat) layer layer' id,
      ls !! i = Some layer → ls !! j = Some layer' →
      id ∈ layer → id ∈ layer' → i = j) as Huniq.
    { intros ls Hm i j layer layer' id Hi Hj Hin Hin'.
      apply (Hm _ _ id) in Hi, Hj. apply Hi in Hin. apply Hj in Hin'.
      rewrite Hin in Hin'. injection Hin' as Heq. lia. }
    unfold Opt.Execute in Hex1, Hex2. cbn zeta in Hex1, Hex2.
    rewrite Hg in Hex1. rewrite Hg' in Hex2.
    apply Opt_execute_layers_statuses in Hex1 as (m1 & _ & Hm1 & Hst1 & _ & _);
      [|done|by apply Huniq].
    apply Opt_execute_layers_statuses in Hex2 as (m2 & _ & Hm2 & Hst2 & _ & _);
      [|done|by apply Huniq].
    specialize (Hm1 eq_refl). specialize (Hm2 eq_refl). subst m1 m2.
    cbn [Opt.graph] in Hst1, Hst2.
    intros id [l Hl].
    destruct (Htotal _ _ Hl) as (layer & Hi & Hin).
    destruct (H12 _ _ _ Hi Hin) as (layer' & Hi' & Hin').
    destruct (ok_registered _ _ Hok id) as [task Hv]; [by eexists|].
    destruct (Hto2 _ _ Hv) as (task2 & Hv2 & Hsame).
    destruct (Hst1 _ _ _ _
      (or_intror (conj (lookup_lt_Some _ _ _ Hi) eq_refl)) Hi Hin Hv) as [-> _].
    destruct (Hst2 _ _ _ _
      (or_intror (conj (lookup_lt_Some _ _ _ Hi') eq_refl)) Hi' Hin' Hv2) as [-> _].
    rewrite HR, <- (same_task_outcome _ _ _ _ Hsame).
    by rewrite (set_Status_same_task _ _ _ Hsame).
  - (* the first returns results, the second an error *)
    destruct Hret1 as (_ & _ & Hnofail).
    destruct Hret2 as (i & layer' & pre & id & post & task2 & e & _ & Hi' & -> & Hv2 & Ho & _).
    destruct (H21 i _ id Hi') as (layer & Hi & Hin).
    { apply elem_of_app. right. by left. }
    destruct (Hto1 _ _ Hv2) as (task & Hv & Hsame).
    rewrite HR, <- (same_task_outcome _ _ _ _ Hsame) in Ho.
    pose proof (Hnofail _ _ _ _ Hi Hin Hv) as Hnf.
    by rewrite Ho in Hnf.
  - (* the first returns an error, the second results *)
    destruct Hret2 as (_ & _ & Hnofail).
    destruct Hret1 as (i & layer & pre & id & post & task & e & _ & Hi & -> & Hv & Ho & _).
    destruct (H12 i _ id Hi) as (layer' & Hi' & Hin').
    { apply elem_of_app. right. by left. }
    destruct (Hto2 _ _ Hv) as (task2 & Hv2 & Hsame).
    pose proof (Hnofail _ _ _ _ Hi' Hin' Hv2) as Hnf.
    rewrite HR, <- (same_task_outcome _ _ _ _ Hsame) in Hnf. by rewrite Ho in Hnf.
  - (* both return an error *)
    destruct Hret1
      as (i1 & layer1 & pre1 & id1 & post1 & task1 & e1 & -> & Hi1 & -> & Hv1 & Ho1 & -> & _).
    destruct Hret2
      as (i2 & layer2 & pre2 & id2 & post2 & task2 & e2 & -> & Hi2 & -> & Hv2 & Ho2 & -> & _).
    destruct (Hto1 _ _ Hv2) as (task2' & Hv2' & Hsame2).
    rewrite HR, <- (same_task_outcome _ _ _ _ Hsame2) in Ho2.
    assert (id1 ∈ pre1 ++ id1 :: post1) as Hin1.
    { apply elem_of_app. right. by left. }
    assert (id2 ∈ pre2 ++ id2 :: post2) as Hin2.
    { apply elem_of_app. right. by left. }
    assert (i1 = i2) as <-.
    { destruct (Nat.lt_trichotomy i1 i2) as [Hlt|[?|Hlt]]; [exfalso|done|exfalso].
      - destruct (H12 _ _ _ Hi1 Hin1) as (layer' & Hi' & Hin').
        destruct (Hto2 _ _ Hv1) as (task1' & Hv1' & Hsame1).
        assert (S i1 < S i2)%nat as Hlt' by lia.
        pose proof (Hbefore2 _ _ _ _ Hlt' Hi' Hin' Hv1') as Hnf.
        rewrite HR, <- (same_task_outcome _ _ _ _ Hsame1) in Hnf.
        by rewrite Ho1 in Hnf.
      - destruct (H21 _ _ _ Hi2 Hin2) as (layer & Hi & Hin).
        assert (S i2 < S i1)%nat as Hlt' by lia.
        pose proof (Hbefore1 _ _ _ _ Hlt' Hi Hin Hv2') as Hnf.
        by rewrite Ho2 in Hnf. }
    exists id1, e1, id2, e2, (Z.of_nat i1). split_and!; [done|done| |].
    + by apply (Hmem _ _ id1 Hi1).
    + by apply (Hmem' _ _ id2 Hi2).
Qed.
End RunsCompared.

Section EventsOfARun.
Context {V : Type}.
Implicit Types (g : Store.Graph (Task V)) (s : LayerState V).
Implicit Types (tg : Opt.TaskGraph V).

(** In a layer without failure the events of every task of the layer
    are recorded. *)
Lemma run_layer_trace_live layer (results : gmap string V) s s' id task e :
  ls_err s = None → ls_err s' = None →
  run_layer layer results s = Some s' →
  id ∈ layer → Store.vertices (ls_graph s) !! id = Some task →
  e ∈ task_events id (ls_ctx s) results task → e ∈ ls_trace s'.
Proof.
  intros Herr Herr'. revert s task Herr.
  induction layer as [|id0 layer IH]; intros s task Herr Hrun Hin Hid He;
    cbn [run_layer] in Hrun; [by apply elem_of_nil in Hin|].
  unfold Store.Vertex in Hrun.
  destruct (Store.vertices (ls_graph s) !! id0) as [task0|] eqn:Hid0; [|done].
  set (s1 := goroutine id0 task0 results s) in *.
  assert (ls_err s1 = None) as Herr1.
  { destruct (ls_err s1) as [x|] eqn:Hx; [|done].
    rewrite (run_layer_err_keep _ _ _ _ _ Hx Hrun) in Herr'. done. }
  assert (ls_ctx s1 = ls_ctx s) as Hctx1.
  { destruct (goroutine_ctx id0 task0 results s) as [?|[x Hx]]; [done|].
    fold s1 in Hx. congruence. }
  destruct (decide (id = id0)) as [->|Hne].
  - assert (task0 = task) as -> by congruence.
    destruct (run_layer_trace _ _ _ _ Hrun) as (events & -> & _).
    apply elem_of_app. left. subst s1. rewrite goroutine_outcome. cbn.
    apply elem_of_app. by right.
  - assert (id ∈ layer) as Hin'.
    { apply elem_of_cons in Hin as [?|?]; [done|done]. }
    assert (Store.vertices (ls_graph s1) !! id = Some task) as Hid1.
    { subst s1. rewrite goroutine_outcome. cbn.
      by rewrite lookup_alter, decide_False. }
    apply (IH s1 task Herr1 Hrun Hin' Hid1). by rewrite Hctx1.
Qed.

Lemma Opt_executeLayer_trace_live tg ctx layer results tg1 events lr id task e :
  Opt.executeLayer tg ctx layer results = Some (tg1, events, (lr, None)) →
  id ∈ layer → Store.vertices (Opt.graph tg) !! id = Some task →
  e ∈ task_events id ctx results task → e ∈ events.
Proof.
  unfold Opt.executeLayer. destruct (go_blocks _ _); [done|].
  set (s0 := mkLayerState (Opt.graph tg) ∅ None ctx
    [EvSetLimit (Opt.WorkerCount (Opt.opts tg))]).
  destruct (run_layer layer results s0) as [s|] eqn:Hrun; [|done].
  intros [= <- <- Hwait] Hin Hv He.
  assert (ls_err s = None) as Herr.
  { rewrite <- wait_err. by rewrite Hwait. }
  by apply (run_layer_trace_live layer results s0 s id task e).
Qed.

(** The events of every task of every layer are recorded, when the loop
    of [Execute] ends without error. *)
Lemma Opt_execute_layers_trace_live tg ctx layers results trace tg' trace' res :
  Opt.execute_layers tg ctx layers results trace = Some (tg', trace', (Some res, None)) →
  (∀ e, e ∈ trace → e ∈ trace') ∧
  ∀ (i : nat) layer id task e,
    layers !! i = Some layer → id ∈ layer →
    Store.vertices (Opt.graph tg) !! id = Some task →
    e ∈ task_events id ctx (results_before (Opt.graph tg) ctx layers results i) task →
    e ∈ trace'.
Proof.
  revert tg results trace.
  induction layers as [|layer layers IH]; intros tg results trace Hex.
  { cbn in Hex. injection Hex as <- <- <-. split; [done|].
    intros i layer id task e Hi. by rewrite lookup_nil in Hi. }
  cbn [Opt.execute_layers] in Hex.
  destruct (Opt.executeLayer tg ctx layer results)
    as [[[tg1 ev1] [lr [err|]]]|] eqn:Hl; [done| |done].
  pose proof (Opt_executeLayer_call _ _ _ _ _ _ _ Hl) as (Hso & _ & _ & _ & _ & _ & Hret).
  destruct lr as [res0|]; [|done]. destruct Hret as [-> _].
  cbn [merge_results] in Hex.
  apply IH in Hex as [Hkeep Hall].
  set (g := Opt.graph tg) in *. set (g1 := Opt.graph tg1) in *.
  assert (∀ i, results_before g1 ctx layers (layer_results g ctx results layer ∪ results) i
    = results_before g ctx (layer :: layers) results (S i)) as Hrb.
  { intros i. cbn [results_before]. by apply results_before_status_only. }
  split.
  - intros e He. apply Hkeep. apply elem_of_app. by left.
  - intros i layer' id task e Hi Hin Hv He. destruct i as [|i].
    + cbn in Hi. injection Hi as <-. apply Hkeep. apply elem_of_app. right.
      by apply (Opt_executeLayer_trace_live _ _ _ _ _ _ _ _ _ _ Hl Hin Hv).
    + cbn in Hi.
      destruct (status_only_lookup _ _ _ _ Hso Hv) as (task1 & Hv1 & Hsame).
      apply (Hall i layer' id task1 e Hi Hin Hv1).
      by rewrite Hrb, <- (same_task_events _ _ _ _ _ Hsame).
Qed.

Lemma task_events_inputs taskID ctx (results results' : gmap string V)
    (task : Task V) :
  (∀ d, d ∈ Depends task → results !! ID d = results' !! ID d) →
  task_events taskID ctx results task = task_events taskID ctx results' task.
Proof.
  intros Hdeps.
  assert (collect_inputs (Depends task) results
    = collect_inputs (Depends task) results') as Heq.
  { apply map_eq. intros k. rewrite !collect_inputs_lookup.
    case_decide as Hk; [|done].
    apply list_elem_of_fmap in Hk as (d & -> & Hd). by apply Hdeps. }
  unfold task_events. by rewrite (outcome_inputs _ _ _ _ Hdeps), Heq.
Qed.

(** The events about tasks of a run that returns results: those of the
    tasks that have a layer, each on the inputs taken from the results
    returned. *)
Lemma Opt_Execute_events_live tg ctx options iter tg' trace res e id :
  reachable tg → iter ≡ₚ map_to_list (Opt.taskLayers tg) →
  Opt.Execute tg ctx options iter = Some (tg', trace, (Some res, None)) →
  event_task e = Some id →
  e ∈ trace ↔
  ∃ l task, Opt.taskLayers tg !! id = Some l ∧
  Store.vertices (Opt.graph tg) !! id = Some task ∧
  e ∈ task_events id ctx res task.
Proof.
  intros Hr Hp Hex Hid. pose proof (reachable_ok _ Hr) as Hok.
  destruct (Opt_Execute_run _ _ _ _ _ _ _ Hr Hp Hex)
    as (layers & n & Hg & Hmem & _ & Hev & _ & _ & _ & Hret).
  destruct Hret as (-> & -> & _).
  destruct (group_layers_registry _ _ Hp (ok_nonneg _ _ Hok))
    as (layers' & Hg' & _ & Htotal & _).
  assert (layers' = layers) as -> by congruence.
  set (R := results_before (Opt.graph tg) ctx layers ∅) in *.
  assert (∀ (i : nat) layer task, layers !! i = Some layer → id ∈ layer →
    Store.vertices (Opt.graph tg) !! id = Some task →
    task_events id ctx (R i) task = task_events id ctx (R (length layers)) task)
    as Hfinal.
  { intros i layer task Hi Hin Hv.
    pose proof (proj1 (Hmem _ _ _ Hi) Hin) as Hl.
    pose proof (lookup_lt_Some _ _ _ Hi) as Hlt.
    apply task_events_inputs. intros d Hd. symmetry.
    apply results_before_stable; [lia|].
    intros j layer' Hj Hlook' Hin'.
    pose proof (proj1 (Hmem _ _ _ Hlook') Hin') as Hlk.
    destruct (ok_layers _ _ Hok _ _ Hl) as (task0 & Hv0 & Hinv).
    assert (task0 = task) as -> by congruence.
    destruct (Depends task) as [|d0 ds] eqn:Hdeps; [by apply elem_of_nil in Hd|].
    destruct Hinv as (m & Hm & _ & Hall).
    destruct (Hall d Hd) as (ld & Hld & Hle). rewrite Hlk in Hld.
    injection Hld as <-. lia. }
  split.
  - intros He.
    destruct (Hev _ _ He Hid) as (i & layer & task & ctx' & _ & Hi & Hin & Hv & Hte & Hctx).
    destruct Hctx as [->|[_ [? [=]]]].
    exists (Z.of_nat i), task. split_and!; [by apply (Hmem _ _ _ Hi)|done|].
    by rewrite <- (Hfinal _ _ _ Hi Hin Hv).
  - intros (l & task & Hl & Hv & Hte).
    destruct (Htotal _ _ Hl) as (layer & Hi & Hin).
    rewrite <- (Hfinal _ _ _ Hi Hin Hv) in Hte.
    unfold Opt.Execute in Hex. cbn zeta in Hex. rewrite Hg in Hex.
    apply Opt_execute_layers_trace_live in Hex as [_ Hall].
    by apply (Hall _ _ _ _ _ Hi Hin Hv).
Qed.
End EventsOfARun.

Section StatusesIgnored.
Context {V : Type}.
Implicit Types (tg : Opt.TaskGraph V).

(** X20. [Execute] writes the statuses and never reads them. Take two
    graphs a caller can hold that differ only in the statuses of their
    tasks, such as a graph before and after a run, and two runs of
    them, under any options and any two iteration orders of the layer
    map. Both runs return results or both return an error. When they
    return results, the results are equal, every task with a layer is
    left with the same status, and the same guard calls, work function
    calls and status assignments are made: a task that was already
    completed, failed or skipped is run again. When they return an
    error, the two errors are those of tasks of one layer. *)
Theorem Execute_ignores_statuses tg tg2 ctx options options2 iter iter2
    tg1' trace1 ret1 tg2' trace2 ret2 :
  reachable tg → reachable tg2 →
  status_only (Opt.graph tg) (Opt.graph tg2) →
  Opt.taskLayers tg2 = Opt.taskLayers tg →
  iter ≡ₚ map_to_list (Opt.taskLayers tg) →
  iter2 ≡ₚ map_to_list (Opt.taskLayers tg) →
  Opt.Execute tg ctx options iter = Some (tg1', trace1, ret1) →
  Opt.Execute tg2 ctx options2 iter2 = Some (tg2', trace2, ret2) →
  match ret1, ret2 with
  | (Some res1, None), (Some res2, None) =>
    res1 = res2 ∧
    (∀ id, is_Some (Opt.taskLayers tg !! id) →
      Opt.GetTaskStatus tg1' id = Opt.GetTaskStatus tg2' id) ∧
    (∀ e, is_Some (event_task e) → e ∈ trace1 ↔ e ∈ trace2)
  | (None, Some err1), (None, Some err2) =>
    ∃ id1 e1 id2 e2 l,
      err1 = task_failed id1 e1 ∧ err2 = task_failed id2 e2 ∧
      Opt.taskLayers tg !! id1 = Some l ∧ Opt.taskLayers tg !! id2 = Some l
  | _, _ => False
  end.
Proof.
  intros Hr Hr2 Hso Hlayers Hp Hp2 Hex1 Hex2.
  pose proof (Opt_runs_agree _ _ _ _ _ _ _ _ _ _ _ _ _ Hr Hr2 Hso Hlayers Hp Hp2
    Hex1 Hex2) as Hagree.
  destruct ret1 as [[res1|] [err1|]]; try done;
    destruct ret2 as [[res2|] [err2|]]; try done.
  destruct Hagree as [<- Hvs]. split_and!; [done| |].
  - intros id Hid. unfold Opt.GetTaskStatus, Store.Vertex. by rewrite (Hvs id Hid).
  - intros e [id Hid].
    assert (iter2 ≡ₚ map_to_list (Opt.taskLayers tg2)) as Hp2' by (by rewrite Hlayers).
    rewrite (Opt_Execute_events_live _ _ _ _ _ _ _ _ _ Hr Hp Hex1 Hid).
    rewrite (Opt_Execute_events_live _ _ _ _ _ _ _ _ _ Hr2 Hp2' Hex2 Hid).
    rewrite Hlayers. split.
    + intros (l & task & Hl & Hv & He).
      destruct (status_only_lookup _ _ _ _ Hso Hv) as (task2 & Hv2 & Hsame).
      exists l, task2. split_and!; [done..|].
      by rewrite <- (same_task_events _ _ _ _ _ Hsame).
    + intros (l & task2 & Hl & Hv2 & He).
      destruct (status_only_lookup _ _ _ _ (status_only_sym _ _ Hso) Hv2)
        as (task & Hv & Hsame).
      exists l, task. split_and!; [done..|].
      by rewrite <- (same_task_events _ _ _ _ _ Hsame).
Qed.
End StatusesIgnored.

Lemma Execute_ignores_statuses_witness :
  ∃ tg1 trace1 res1 tg2 trace2,
    run_once abcd = Some (tg1, trace1, (Some res1, None)) ∧
    Opt.Execute tg1 (mkContext false) []
      (reverse (map_to_list (Opt.taskLayers abcd)))
      = Some (tg2, trace2, (Some res1, None)).
Proof.
  assert (∃ tg1 trace1 res1,
    run_once abcd = Some (tg1, trace1, (Some res1, None)))
    as (tg1 & trace1 & res1 & Hrun).
  { vm_compute. eexists _, _, _. reflexivity. }
  assert (reachable abcd) as Hr.
  { apply reachable_register. constructor. }
  pose proof (Opt_Execute_graph _ _ _ _ _ _ _ Hrun) as (Hso & Hl & Ho).
  assert (reachable tg1) as Hr1.
  { apply (reachable_Execute abcd (mkContext false) []
      (map_to_list (Opt.taskLayers abcd)) tg1 trace1 (Some res1, None) Hr);
      [apply Permutation_refl|exact Hrun]. }
  assert (reverse (map_to_list (Opt.taskLayers abcd)) ≡ₚ
    map_to_list (Opt.taskLayers tg1)) as Hp2.
  { rewrite Hl. apply reverse_Permutation. }
  destruct (Opt_Execute_is_Some tg1 (mkContext false) [] _ Hr1 Hp2)
    as [[[tg2 trace2] ret2] Hrun2].
  { cbn [foldl]. rewrite Ho. vm_compute. discriminate. }
  pose proof (Execute_ignores_statuses abcd tg1 (mkContext false) [] []
    (map_to_list (Opt.taskLayers abcd))
    (reverse (map_to_list (Opt.taskLayers abcd)))
    tg1 trace1 (Some res1, None) tg2 trace2 ret2 Hr Hr1 Hso Hl
    (Permutation_refl _) (reverse_Permutation _) Hrun Hrun2) as Hsame.
  exists tg1, trace1, res1, tg2, trace2. split; [exact Hrun|].
  destruct ret2 as [[res2|] [err2|]];
    [destruct Hsame| |destruct Hsame|destruct Hsame].
  destruct Hsame as [<- _]. exact Hrun2.
Defined.

Section VariantsCompared.
Context {V : Type}.
Implicit Types (ptg : Plain.TaskGraph V) (tg : Opt.TaskGraph V).

Lemma elem_of_task_trace (trace : list (Event V)) e :
  e ∈ task_trace trace ↔ is_Some (event_task e) ∧ e ∈ trace.
Proof. unfold task_trace. by rewrite list_elem_of_filter. Qed.

(** X15. [Execute] of [src/graph/task.go] is the cycle check followed by
    what [Execute] of the other variant does. On a graph a caller can
    hold: if the topological sort fails, the call returns the sort
    error, runs no task and changes no status. Otherwise take a call of
    it and a call of the other variant on the same store and layer map,
    under any options and any two iteration orders, that both return
    (the other variant does not return when its worker count is zero).
    Both return results or both return an error. When they return
    results, the results are equal, every task with a layer is left
    with the same status, and the same guard calls, work function calls
    and status assignments are made. When they return an error, the two
    errors are those of tasks of one layer. The [WorkerCount] given to
    the call of [src/graph/task.go] plays no part. *)
Theorem Plain_Execute_agrees ptg ctx popts options iter iter2 :
  reachable_plain ptg →
  iter ≡ₚ map_to_list (Plain.taskLayers ptg) →
  iter2 ≡ₚ map_to_list (Plain.taskLayers ptg) →
  match Plain.GetExecutionOrder ptg with
  | inr _ =>
    Plain.Execute ptg ctx popts iter =
    Some (ptg, [],
      (None,
        Some "failed to sort tasks: topological sort cannot be computed on graph with cycles"))
  | inl _ =>
    ∀ ptg' ptrace pret tg' trace ret,
      Plain.Execute ptg ctx popts iter = Some (ptg', ptrace, pret) →
      Opt.Execute (of_plain ptg (Opt.mkExecuteOptions 5 false)) ctx options iter2
        = Some (tg', trace, ret) →
      match pret, ret with
      | (Some res1, None), (Some res2, None) =>
        res1 = res2 ∧
        (∀ id, is_Some (Plain.taskLayers ptg !! id) →
          Plain.GetTaskStatus ptg' id = Opt.GetTaskStatus tg' id) ∧
        (∀ e, is_Some (event_task e) → e ∈ ptrace ↔ e ∈ trace)
      | (None, Some err1), (None, Some err2) =>
        ∃ id1 e1 id2 e2 l,
          err1 = task_failed id1 e1 ∧ err2 = task_failed id2 e2 ∧
          Plain.taskLayers ptg !! id1 = Some l ∧ Plain.taskLayers ptg !! id2 = Some l
      | _, _ => False
      end
  end.
Proof.
  intros Hrp Hp Hp2. unfold Plain.GetExecutionOrder.
  destruct (Store.TopologicalSort (Plain.graph ptg)) as [order|err] eqn:Hsort;
    [|by apply (Plain_Execute_cyclic ptg ctx popts iter err)].
  intros ptg' ptrace pret tg' trace ret Hpex Hex.
  set (o := Opt.mkExecuteOptions 5 false) in *.
  pose proof (reachable_of_plain _ Hrp) as Hr. fold o in Hr.
  pose proof (Plain_Execute_sorted ptg ctx popts o iter order ltac:(done) Hsort)
    as Hsame.
  rewrite Hpex in Hsame.
  destruct (Opt.Execute (of_plain ptg o) ctx [] iter)
    as [[[tgA traceA] retA]|] eqn:HexA; [|done].
  destruct Hsame as (Hg & Hl & Hret & Htr). subst retA.
  pose proof (Opt_runs_agree _ _ _ _ _ _ _ _ _ _ _ _ _ Hr Hr
    (status_only_refl _) eq_refl Hp Hp2 HexA Hex) as Hagree.
  destruct pret as [[res1|] [err1|]]; try done;
    destruct ret as [[res2|] [err2|]]; try done.
  destruct Hagree as [<- Hvs]. split_and!; [done| |].
  - intros id Hid. unfold Plain.GetTaskStatus, Opt.GetTaskStatus, Store.Vertex.
    rewrite Hg. by rewrite (Hvs id Hid).
  - intros e [id Hid].
    assert (e ∈ ptrace ↔ e ∈ traceA) as ->.
    { pose proof (elem_of_task_trace ptrace e) as H1.
      pose proof (elem_of_task_trace traceA e) as H2.
      rewrite Htr in H1.
      assert (is_Some (event_task e)) as Hs by (by eexists).
      split; intros He.
      - apply H2, H1. by split.
      - apply H1, H2. by split. }
    rewrite (Opt_Execute_events_live _ _ _ _ _ _ _ _ _ Hr Hp HexA Hid).
    by rewrite (Opt_Execute_events_live _ _ _ _ _ _ _ _ _ Hr Hp2 Hex Hid).
Qed.
End VariantsCompared.

Lemma Plain_Execute_agrees_witness :
  ∃ ptg' ptrace res tg' trace,
    Plain.Execute abcd_plain (mkContext false) (Plain.mkExecuteOptions 0)
      (map_to_list (Plain.taskLayers abcd_plain))
      = Some (ptg', ptrace, (Some res, None)) ∧
    Opt.Execute (of_plain abcd_plain (Opt.mkExecuteOptions 5 false))
      (mkContext false) [Opt.WithWorkerCount 2]
      (reverse (map_to_list (Plain.taskLayers abcd_plain)))
      = Some (tg', trace, (Some res, None)).
Proof.
  assert (∃ ptg' ptrace res,
    Plain.Execute abcd_plain (mkContext false) (Plain.mkExecuteOptions 0)
    (map_to_list (Plain.taskLayers abcd_plain))
    = Some (ptg', ptrace, (Some res, None)))
    as (ptg' & ptrace & res & Hprun).
  { vm_compute. eexists _, _, _. reflexivity. }
  assert (∃ tg' trace res2,
    Opt.Execute (of_plain abcd_plain (Opt.mkExecuteOptions 5 false))
    (mkContext false) [Opt.WithWorkerCount 2]
    (reverse (map_to_list (Plain.taskLayers abcd_plain)))
    = Some (tg', trace, (Some res2, None)))
    as (tg' & trace & res2 & Hrun).
  { vm_compute. eexists _, _, _. reflexivity. }
  exists ptg', ptrace, res, tg', trace. split; [exact Hprun|].
  assert (reachable_plain abcd_plain) as Hrp.
  { apply reachable_plain_register. constructor. }
  pose proof (Plain_Execute_agrees abcd_plain (mkContext false)
    (Plain.mkExecuteOptions 0) [Opt.WithWorkerCount 2]
    (map_to_list (Plain.taskLayers abcd_plain))
    (reverse (map_to_list (Plain.taskLayers abcd_plain)))
    Hrp (Permutation_refl _) (reverse_Permutation _)) as Hagree.
  assert (∃ order, Plain.GetExecutionOrder abcd_plain = inl order) as [order Horder].
  { vm_compute. eexists. reflexivity. }
  rewrite Horder in Hagree.
  destruct (Hagree ptg' ptrace (Some res, None) tg' trace (Some res2, None)
    Hprun Hrun) as [Heq _].
  rewrite Heq. exact Hrun.
Defined.
